(** * Cutting-insert inspection: the classical pipeline of
      [stand_image_processing.py], embedded in Rocq.

    Python floats are IEEE binary64 numbers: they are modelled by Rocq's
    primitive floats, so every definition below evaluates to the value the
    program computes.  Python integers are [Z].  Exceptions are an error
    monad; the one mutable list the statistics work on lives in an object
    store, because [ExamineArc.mediana] sorts it in place.

    The routines of OpenCV, NumPy, SciPy and the C library that have no
    simple closed description (filtering, morphology, Canny, line
    fitting, matrix inversion, spline rotation, sine and cosine) are
    parameters of the functions that call them.  Drawing on the frame,
    windows and timing are display only and are left out.

    Two limits of the model are kept in view by the statements.  Python
    raises OverflowError when an integer beyond the binary64 range is
    converted to float and when [**] leaves that range, where the model
    computes an infinity: statements that assert the outcome of such
    arithmetic bound the values.  The parameters that stand for OpenCV's
    routines always return, whereas cv.filter2D refuses an empty array
    with cv2.error: statements that assert the outcome of a search
    suppose that the filter returned or concern regions that are not
    empty.  The colour conversion of polarTransform, which refuses an
    empty region in the same way, is part of the model. *)

From Stdlib Require Import ZArith List Lia Bool Floats.
From Stdlib Require Import Sorted Permutation Orders Mergesort.
Import ListNotations.
Open Scope Z_scope.

(** ** Python values, exceptions and the object store *)

Module Py.

(** The exceptions the modelled code can raise. *)
Inductive exn : Set :=
| ZeroDivisionError
| IndexError
| ValueError
| OverflowError
| UnboundLocalError
| LinAlgError
| Cv2Error (* cv2.error, the exception of OpenCV's binding *).

Inductive result (A : Type) : Type :=
| Ok (a : A)
| Raise (e : exn).
Arguments Ok {A} a.
Arguments Raise {A} e.

Definition bind {A B} (r : result A) (k : A -> result B) : result B :=
  match r with
  | Ok a => k a
  | Raise e => Raise e
  end.

Definition is_ok {A} (r : result A) : bool :=
  match r with Ok _ => true | Raise _ => false end.

(** Faults of the arithmetic itself, as opposed to errors a program
    raises on purpose. *)
Definition arithmetic_fault (e : exn) : bool :=
  match e with
  | ZeroDivisionError | OverflowError => true
  | _ => false
  end.

(** [float(i)]: the binary64 number nearest to the integer [i]. *)
Definition float_of_int (i : Z) : float :=
  SF2Prim (binary_normalize prec emax i 0 false).

(** [int(x)]: truncation toward zero; infinities and NaN are refused. *)
Definition int_of_float (x : float) : result Z :=
  match Prim2SF x with
  | S754_zero _ => Ok 0
  | S754_infinity _ => Raise OverflowError
  | S754_nan => Raise ValueError
  | S754_finite s m e =>
      let a := if 0 <=? e then Z.pos m * 2 ^ e else Z.pos m / 2 ^ (- e) in
      Ok (if s then - a else a)
  end.

(** [x / y] on Python floats. *)
Definition truediv (x y : float) : result float :=
  if PrimFloat.eqb y 0 then Raise ZeroDivisionError else Ok (x / y)%float.

(** [math.sqrt]. *)
Definition math_sqrt (x : float) : result float :=
  if PrimFloat.ltb x 0 then Raise ValueError else Ok (PrimFloat.sqrt x).

(** [sum(l)] over integers: a left fold from 0. *)
Definition sum (l : list Z) : Z := fold_left Z.add l 0.

(** [l[i]]: a negative index counts from the end. *)
Definition getitem {A} (l : list A) (i : Z) : result A :=
  let n := Z.of_nat (length l) in
  let j := if i <? 0 then i + n else i in
  if (0 <=? j) && (j <? n)
  then match nth_error l (Z.to_nat j) with
       | Some a => Ok a
       | None => Raise IndexError
       end
  else Raise IndexError.

(** A slice bound, clamped the way [l[a:b]] clamps it. *)
Definition clamp (n i : Z) : Z :=
  if i <? 0 then Z.max (i + n) 0 else Z.min i n.

(** [l[a:b]]. *)
Definition slice {A} (l : list A) (a b : Z) : list A :=
  let n := Z.of_nat (length l) in
  let a' := clamp n a in
  let b' := clamp n b in
  firstn (Z.to_nat (b' - a')) (skipn (Z.to_nat a') l).

(** *** The object store

    A Python list is an object; a variable holds a reference to it.  The
    store maps references (positions) to the current contents. *)
Definition ref := nat.
Definition heap := list (list Z).

Definition deref (h : heap) (p : ref) : list Z := nth p h [].

Fixpoint update (h : heap) (p : ref) (l : list Z) : heap :=
  match h, p with
  | [], _ => []
  | _ :: t, O => l :: t
  | x :: t, S q => x :: update t q l
  end.

Definition alloc (h : heap) (l : list Z) : ref * heap :=
  (length h, h ++ [l]).

(** Computations that read and write the store and may raise. *)
Definition M (A : Type) : Type := heap -> result A * heap.

Definition ret {A} (a : A) : M A := fun h => (Ok a, h).

Definition mbind {A B} (m : M A) (k : A -> M B) : M B :=
  fun h =>
    match m h with
    | (Ok a, h') => k a h'
    | (Raise e, h') => (Raise e, h')
    end.

Definition lift {A} (r : result A) : M A := fun h => (r, h).

Definition load (p : ref) : M (list Z) := fun h => (Ok (deref h p), h).

Definition store (p : ref) (l : list Z) : M unit :=
  fun h => (Ok tt, update h p l).

End Py.

Import Py.

Declare Scope py_scope.
Delimit Scope py_scope with py.
Notation "x <- m ;; k" := (mbind m (fun x => k))
  (at level 61, m at next level, right associativity) : py_scope.
Notation "'try!' x <- r ;; k" := (bind r (fun x => k))
  (at level 61, x name, r at next level, right associativity) : py_scope.

(** [list.sort()] on integers: the ascending arrangement of the list. *)
Module ZOrder <: TotalLeBool.
Definition t := Z.
Definition leb := Z.leb.
Theorem leb_total : forall a b : Z, leb a b = true \/ leb b a = true.
Proof.
  intros a b; unfold leb.
  destruct (Z.leb_spec a b); [now left | right].
  apply Z.leb_le; lia.
Qed.
End ZOrder.

Module ZSort := Sort ZOrder.

(** ** Parameters of the inspection (module level constants) *)

Definition PX2MM : float := (float_of_int 580 / float_of_int 4)%float.
Definition MAX_DIM : Z := 137.
Definition MIN_DIM : Z := 128.
Definition STD_ERROR : float := 1.5%float.

(** ** class ExamineArc *)

Module ExamineArc.

Open Scope py_scope.

(** A value [mediana] can return: an element of the list or a float. *)
Inductive number : Set :=
| Int (i : Z)
| Float (x : float).

Definition srednia (pts : ref) : M float :=
  l <- load pts ;;
  let suma := sum l in
  lift (truediv (float_of_int suma) (float_of_int (Z.of_nat (length l)))).

(** [int(len(pts) / 2)] is the integer quotient: the float division is
    exact for every length a list can have. *)
Definition mediana (pts : ref) : M number :=
  l0 <- load pts ;;
  _ <- store pts (ZSort.sort l0) ;;
  l <- load pts ;;
  let n := Z.of_nat (length l) in
  if n mod 2 =? 0 then
    let half := n / 2 in
    ret (Float (float_of_int (sum (slice l (half - 1) (half + 1))) / 2)%float)
  else
    x <- lift (getitem l (n / 2)) ;;
    ret (Int x).

(** [x ** 2] on a float. *)
Definition sqr (x : float) : float := (x * x)%float.

Definition wariancja (pts : ref) (srednia : float) : M float :=
  l <- load pts ;;
  let sigma :=
    fold_left (fun sigma ocena => (sigma + sqr (float_of_int ocena - srednia))%float)
              l 0%float in
  lift (truediv sigma (float_of_int (Z.of_nat (length l)))).

Definition odchylenie (pts : ref) (srednia : float) : M float :=
  w <- wariancja pts srednia ;;
  lift (math_sqrt w).

End ExamineArc.

(** ** The statistics stage of findArcPoint

    The verdict is what the function prints on the frame: "OK" or "N_OK",
    followed by the mean and the deviation.  The function's own return
    value is 0 in both cases. *)

Inductive verdict : Set := OK | N_OK.

Record overlay : Set := mkOverlay {
  label : verdict;
  shown_srednia : float;
  shown_odchylenie : float
}.

Definition within_tolerance (s o : float) : bool :=
  (PrimFloat.ltb s (float_of_int MAX_DIM) && PrimFloat.ltb (float_of_int MIN_DIM) s)
  && PrimFloat.ltb o STD_ERROR.

Definition findArcPoint_examine (pts_y : ref) : M (overlay * Z) :=
  (s <- ExamineArc.srednia pts_y ;;
   m <- ExamineArc.mediana pts_y ;;
   o <- ExamineArc.odchylenie pts_y s ;;
   ret (mkOverlay (if within_tolerance s o then OK else N_OK) s o, 0))%py.

(** ** numpy arrays of uint8 samples and the OpenCV operations on them

    An image is the list of its rows.  Flip, rotation, thresholding and
    [findNonZero] are defined below as OpenCV documents them; filtering,
    morphology, Canny, line fitting and the spline rotation stay
    parameters of the pipeline. *)

Module Img.

Definition image := list (list Z).

(** [m.shape]. *)
Definition rows (m : image) : nat := length m.
Definition cols (m : image) : nat := length (hd [] m).

(** The sample at row [r], column [c] (0 outside the array). *)
Definition px (m : image) (r c : nat) : Z := nth c (nth r m []) 0.

Definition tabulate (nr nc : nat) (f : nat -> nat -> Z) : image :=
  map (fun r => map (fun c => f r c) (seq 0 nc)) (seq 0 nr).

(** [np.zeros((nr, nc), dtype=np.uint8)]. *)
Definition zeros (nr nc : nat) : image := tabulate nr nc (fun _ _ => 0).

(** Every row has [nc] samples and there are [nr] rows. *)
Definition has_shape (m : image) (nr nc : nat) : Prop :=
  length m = nr /\ Forall (fun row => length row = nc) m.

(** [cv.flip(m, 1)]: mirror around the vertical axis. *)
Definition flip1 (m : image) : image := map (@rev Z) m.

(** [cv.rotate(m, cv.ROTATE_90_CLOCKWISE)]: dst(i, j) = src(rows-1-j, i). *)
Definition rotate_cw (m : image) : image :=
  tabulate (cols m) (rows m) (fun i j => px m (rows m - 1 - j) i).

(** [cv.rotate(m, cv.ROTATE_90_COUNTERCLOCKWISE)]: dst(i, j) = src(j, cols-1-i). *)
Definition rotate_ccw (m : image) : image :=
  tabulate (cols m) (rows m) (fun i j => px m j (cols m - 1 - i)).

(** [cv.threshold(m, t, 255, cv.THRESH_TOZERO)]. *)
Definition threshold_tozero (t : Z) (m : image) : image :=
  map (map (fun v => if t <? v then v else 0)) m.

(** [np.flatnonzero(row)]: the positions of the nonzero samples. *)
Definition flatnonzero (row : list Z) : list nat :=
  map fst (filter (fun p => negb (snd p =? 0)) (combine (seq 0 (length row)) row)).

Definition replace_nth {A} (n : nat) (a : A) (l : list A) : list A :=
  firstn n l ++ match skipn n l with [] => [] | _ :: t => a :: t end.

(** Writing one sample in place, indices in range. *)
Definition set_px (m : image) (r c : nat) (v : Z) : image :=
  replace_nth r (replace_nth c v (nth r m [])) m.

(** An index of [item]/[itemset]: negative ones count from the end. *)
Definition index (n : nat) (i : Z) : result nat :=
  let j := if i <? 0 then i + Z.of_nat n else i in
  if (0 <=? j) && (j <? Z.of_nat n) then Ok (Z.to_nat j) else Raise IndexError.

(** [m.item(i, j)]. *)
Definition item (m : image) (i j : Z) : result Z :=
  (try! r <- index (rows m) i ;;
   try! c <- index (cols m) j ;;
   Ok (px m r c))%py.

(** [m.itemset(i, j, v)]. *)
Definition itemset (m : image) (i j : Z) (v : Z) : result image :=
  (try! r <- index (rows m) i ;;
   try! c <- index (cols m) j ;;
   Ok (set_px m r c v))%py.

(** The nonzero samples as (x, y) points, row after row. *)
Definition nonzero_points (m : image) : list (Z * Z) :=
  flat_map (fun p => map (fun c => (Z.of_nat c, Z.of_nat (fst p)))
                         (flatnonzero (snd p)))
           (combine (seq 0 (length m)) m).

(** [cv.findNonZero(m)]: Python receives [None] when no sample is nonzero. *)
Definition findNonZero (m : image) : option (list (Z * Z)) :=
  match nonzero_points m with
  | [] => None
  | p :: l => Some (p :: l)
  end.

(** [m[a:b, c:d]]. *)
Definition crop (m : image) (a b c d : Z) : image :=
  map (fun row => slice row c d) (slice m a b).

(** An array without rows or without columns. *)
Definition is_empty (m : image) : bool :=
  Nat.eqb (rows m) 0 || Nat.eqb (cols m) 0.

(** [cv.cvtColor(m, cv.COLOR_GRAY2BGR)]: OpenCV refuses an empty array
    with cv2.error.  The converted copy itself only serves the display. *)
Definition cvtColor_gray2bgr (m : image) : result unit :=
  if is_empty m then Raise Cv2Error else Ok tt.

End Img.

Import Img.

(** A fitted line [(vx, vy, x, y)]: a direction and a point.  Its
    components are taken as Python floats; [cv.fitLine] hands over
    float32 values, which are binary64 numbers as well. *)
Definition line : Set := float * float * float * float.

(** A search direction [(dx, dy)]. *)
Definition direction : Set := Z * Z.

(** The four directions the program searches in: one component is 1 or
    -1 and the other 0. *)
Definition valid_direction (d : direction) : bool :=
  match d with
  | (1, 0) | (-1, 0) | (0, 1) | (0, -1) => true
  | _ => false
  end.

(** ** Edge extraction: linesFiltration, findLinesPoints, searchingBox *)

Definition kernel_a : list Z := [-2; -1; 1; 6; 1; -1; -2].

Definition kernel1 : list (list Z) :=
  map (fun i => repeat (nth i kernel_a 0) 7) [0; 1; 2; 3; 2; 1; 0]%nat.

Definition kernel2 : list (list Z) := repeat kernel_a 5.

(** Rotate image to ensure proper searching direction (lines 86-89). *)
Definition rotate_to_search (d : direction) (roi : image) : image :=
  let roi := if fst d =? -1 then flip1 roi else roi in
  if negb (snd d =? 0) then
    let roi := rotate_cw roi in
    if snd d =? -1 then flip1 roi else roi
  else roi.

(** Find min non zero val in each row (lines 92-97).  [any] tests the
    positions themselves, so a row whose only edge sample is in column 0
    records nothing. *)
Definition first_in_rows (roi : image) : image :=
  fold_left
    (fun drawing r =>
       let non_zero_values := flatnonzero (nth r roi []) in
       if existsb (fun i => negb (Nat.eqb i 0)) non_zero_values
       then set_px drawing r (hd 0%nat non_zero_values) 255
       else drawing)
    (seq 0 (rows roi))
    (zeros (rows roi) (cols roi)).

(** Rotate image to go back to the base coordinates (lines 100-103). *)
Definition rotate_back (d : direction) (drawing : image) : image :=
  let drawing := if fst d =? -1 then flip1 drawing else drawing in
  if negb (snd d =? 0) then
    let drawing := if snd d =? -1 then flip1 drawing else drawing in
    rotate_ccw drawing
  else drawing.

(** Lines 85-110 of findLinesPoints, on the binary edge map. *)
Definition outer_line_points (edges : image) (d : direction)
  : option (list (Z * Z)) :=
  findNonZero (rotate_back d (first_in_rows (rotate_to_search d edges))).

Section Edges.

(** [cv.filter2D(roi, -1, kernel)]. *)
Variable cv_filter2D : image -> list (list Z) -> image.
(** [cv.morphologyEx(roi, cv.MORPH_OPEN, np.ones((7,7)))]. *)
Variable cv_morph_open : image -> image.
(** [cv.Canny(roi, 100, 30)]. *)
Variable cv_Canny : image -> image.
(** [cv.fitLine(points, cv.DIST_HUBER, 0, 0.01, 0.05)]. *)
Variable cv_fitLine : list (Z * Z) -> line.

(** No kernel is bound when both components of the direction are 0. *)
Definition linesFiltration (roi : image) (d : direction) : result image :=
  let kernel := None in
  let kernel := if negb (snd d =? 0) then Some kernel1 else kernel in
  let kernel := if negb (fst d =? 0) then Some kernel2 else kernel in
  match kernel with
  | Some k => Ok (cv_filter2D roi k)
  | None => Raise UnboundLocalError
  end.

Definition findLinesPoints (roi : image) (d : direction)
  : option (list (Z * Z)) :=
  let roi := cv_morph_open roi in
  let roi := cv_Canny roi in
  outer_line_points roi d.

(** The value searchingBox returns when no point was found. *)
Definition no_line : line := (-1, -1, -1, -1)%float.

(** Drawing the line and the box on the frame is display only and left
    out; the end points handed to it are converted with [int], which
    refuses NaN and infinities. *)
Definition searchingBox (image : image) (points : Z * Z * Z * Z)
           (d : direction) : result line :=
  let '(p0, p1, p2, p3) := points in
  let roi := crop image p1 (p1 + p3) p0 (p0 + p2) in
  let roi := threshold_tozero 150 roi in
  (try! roi <- linesFiltration roi d ;;
   match findLinesPoints roi d with
   | None => Ok no_line
   | Some pts =>
       let '(vx, vy, x, y) := cv_fitLine pts in
       let x := (x + float_of_int p0)%float in
       let y := (y + float_of_int p1)%float in
       let k := 10000%float in
       try! _ <- int_of_float (x - k * vx)%float ;;
       try! _ <- int_of_float (y - k * vy)%float ;;
       try! _ <- int_of_float (x + k * vx)%float ;;
       try! _ <- int_of_float (y + k * vy)%float ;;
       Ok (vx, vy, x, y)
   end)%py.

End Edges.

(** ** polarTransform *)

(** A loop whose body may raise. *)
Fixpoint foldM {A S : Type} (f : S -> A -> result S) (l : list A) (s : S)
  : result S :=
  match l with
  | [] => Ok s
  | a :: t => bind (f s a) (foldM f t)
  end.

(** [range(a, b)]. *)
Definition range (a b : Z) : list Z :=
  map (fun i => a + Z.of_nat i) (seq 0 (Z.to_nat (b - a))).

(** The least integer not below [x], for the length of [np.arange]. *)
Definition ceil_of_float (x : float) : result Z :=
  match Prim2SF x with
  | S754_zero _ => Ok 0
  | S754_infinity _ | S754_nan => Raise ValueError
  | S754_finite s m e =>
      let v := if s then Z.neg m else Z.pos m in
      Ok (if 0 <=? e then v * 2 ^ e else - ((- v) / 2 ^ (- e)))
  end.

(** [np.arange(0, stop, step)]: [ceil(stop / step)] values [0 + i * step]. *)
Definition np_arange (stop step : float) : result (list float) :=
  (try! q <- truediv (stop - 0)%float step ;;
   try! n <- ceil_of_float q ;;
   Ok (map (fun i => (0 + float_of_int (Z.of_nat i) * step)%float)
           (seq 0 (Z.to_nat n))))%py.

(** [math.radians]. *)
Definition math_radians (x : float) : float :=
  (x * (0x1.921fb54442d18p+1 / 180))%float.

(** The shape [np.zeros] gives the raster (line 262). *)
Definition polar_shape (r : Z * Z) (theta theta_inc : float)
  : result (nat * nat) :=
  (try! q <- truediv theta theta_inc ;;
   try! n <- int_of_float q ;;
   let nr := snd r - fst r in
   if (nr <? 0) || (n + 1 <? 0) then Raise ValueError
   else Ok (Z.to_nat nr, Z.to_nat (n + 1)))%py.

Section Polar.

(** [math.sin] and [math.cos] of the C library. *)
Variable math_sin : float -> float.
Variable math_cos : float -> float.

(** Where the ray of angle [alpha] is sampled for the radius [R]:
    (line 266-267 and 272-273). *)
Definition polar_sample (r : Z * Z) (alpha : float) (R : Z) : result (Z * Z) :=
  (try! x0 <- int_of_float (math_sin (math_radians alpha) * float_of_int (fst r)) ;;
   try! y0 <- int_of_float (math_cos (math_radians alpha) * float_of_int (fst r)) ;;
   try! x <- int_of_float (math_sin (math_radians alpha) * float_of_int R) ;;
   try! y <- int_of_float (math_cos (math_radians alpha) * float_of_int R) ;;
   Ok (x + x0, y + y0))%py.

(** The column the ray of angle [alpha] is written to. *)
Definition polar_column (alpha theta_inc : float) : result Z :=
  int_of_float (alpha / theta_inc)%float.

(** The body of the inner loop (lines 272-276). *)
Definition polar_step (roi : image) (r : Z * Z) (theta_inc alpha : float)
           (x0 y0 : Z) (roi2 : image) (R : Z) : result image :=
  (try! x <- int_of_float (math_sin (math_radians alpha) * float_of_int R) ;;
   let x := x + x0 in
   try! y <- int_of_float (math_cos (math_radians alpha) * float_of_int R) ;;
   let y := y + y0 in
   try! c <- polar_column alpha theta_inc ;;
   try! v <- item roi x y ;;
   itemset roi2 (R - fst r) c v)%py.

(** The body of the outer loop (lines 266-276). *)
Definition polar_ray (roi : image) (r : Z * Z) (theta_inc : float)
           (roi2 : image) (alpha : float) : result image :=
  (try! x0 <- int_of_float (math_sin (math_radians alpha) * float_of_int (fst r)) ;;
   try! y0 <- int_of_float (math_cos (math_radians alpha) * float_of_int (fst r)) ;;
   try! _ <- cvtColor_gray2bgr roi ;;
   foldM (polar_step roi r theta_inc alpha x0 y0) (range (fst r) (snd r)) roi2)%py.

(** [start_point] is a parameter of the function that its body never
    reads.  The arrays [drawing] and [roid] only serve the display that
    is commented out: of [roid] the conversion that builds it is kept,
    because it can fail; [drawing] is left out. *)
Definition polarTransform (roi : image) (start_point : Z * Z) (r : Z * Z)
           (theta theta_inc : float) : result image :=
  (try! shape <- polar_shape r theta theta_inc ;;
   let roi2 := zeros (fst shape) (snd shape) in
   try! theta_range <- np_arange theta theta_inc ;;
   foldM (polar_ray roi r theta_inc) theta_range roi2)%py.

End Polar.

(** ** findArcPoint *)

Definition matrix := list (list float).

(** The system [A], [B] of line 165-166: unknowns (t1, t2, xs, ys). *)
Definition crossing_system (line1 line2 : line) : matrix * list float :=
  let '(vx1, vy1, x1, y1) := line1 in
  let '(vx2, vy2, x2, y2) := line2 in
  ([[vx1; 0; -1; 0]; [vy1; 0; 0; -1]; [0; vx2; -1; 0]; [0; vy2; 0; -1]],
   [- x1; - y1; - x2; - y2])%float.

(** The determinant of [A] up to sign: zero when the directions are parallel. *)
Definition direction_cross (line1 line2 : line) : float :=
  let '(vx1, vy1, _, _) := line1 in
  let '(vx2, vy2, _, _) := line2 in
  (vx1 * vy2 - vy1 * vx2)%float.

(** [A.dot(B)] for a matrix and a vector. *)
Definition dot (A : matrix) (B : list float) : list float :=
  map (fun row =>
         fold_left (fun acc ab => (acc + fst ab * snd ab)%float) (combine row B) 0%float)
      A.

(** Lines 170-171: the components of the offset direction ([rot_ang] of
    line 169 is never read). *)
Definition offset_vector (line1 line2 : line) : float * float :=
  let '(vx1, vy1, _, _) := line1 in
  let '(vx2, vy2, _, _) := line2 in
  let vy := if PrimFloat.ltb vy2 0 then abs (vx1 + vx2) else abs (vy1 + vy2) in
  let vx := if PrimFloat.ltb vy2 0 then abs (vy1 + vy2) else abs (vx1 + vx2) in
  (vx, vy)%float.

(** Lines 173-174: [k], the number of offset vectors between the crossing
    point and the arc centre. *)
Definition offset_scale (vx vy : float) : result float :=
  (try! l <- math_sqrt (ExamineArc.sqr vx + ExamineArc.sqr vy)%float ;;
   truediv (PX2MM * 4)%float l)%py.

(** Lines 180-186: the four possible arc centres. *)
Definition arc_centres (xs ys vx vy k : float) : list (float * float) :=
  let v := [(vx, vy); (- vx, vy); (- vx, - vy); (vx, - vy)]%float in
  map (fun vi => (xs + fst vi * k, ys + snd vi * k)%float) v.

(** Line 192: the distance of a candidate to the centre of the frame;
    [img_shape] is (height, width). *)
Definition centre_distance (img_shape : Z * Z) (c : float * float) : result float :=
  let '(img_cy, img_cx) := img_shape in
  math_sqrt (ExamineArc.sqr (fst c - float_of_int img_cx / 2)
             + ExamineArc.sqr (snd c - float_of_int img_cy / 2))%float.

(** Lines 189-195: the loop choosing [properArc]; [None] while the
    variable is not bound. *)
Fixpoint choose_arc (img_shape : Z * Z) (C : list (float * float)) (i : nat)
         (min_dist : float) (properArc : option nat)
  : result (float * option nat) :=
  match C with
  | [] => Ok (min_dist, properArc)
  | c :: rest =>
      bind (centre_distance img_shape c)
           (fun dist =>
              if PrimFloat.ltb dist min_dist
              then choose_arc img_shape rest (S i) dist (Some i)
              else choose_arc img_shape rest (S i) min_dist properArc)
  end.

(** Lines 189-196: the chosen centre [(xc, yc)]. *)
Definition proper_arc (img_shape : Z * Z) (C : list (float * float))
  : result (float * float) :=
  (try! st <- choose_arc img_shape C 0 9999 None ;;
   match snd st with
   | None => Raise UnboundLocalError
   | Some properArc => getitem C (Z.of_nat properArc)
   end)%py.

(** Lines 199-203: the bounds of the region between arc centre and crossing. *)
Definition arc_region (xc yc xs ys : float) : result (Z * Z * Z * Z) :=
  let inc := 100%float in
  (try! rx0 <- (if PrimFloat.ltb xc xs then int_of_float xc else int_of_float (xs - inc)) ;;
   try! ry0 <- (if PrimFloat.ltb yc ys then int_of_float yc else int_of_float (ys - inc)) ;;
   try! rxk <- (if PrimFloat.ltb xs xc then int_of_float xc else int_of_float (xs + inc)) ;;
   try! ryk <- (if PrimFloat.ltb ys yc then int_of_float yc else int_of_float (ys + inc)) ;;
   Ok (rx0, ry0, rxk, ryk))%py.

(** Lines 207-210: the guards of the three branches that assign an angle. *)
Definition branch_90 (xc yc xs ys : float) : bool :=
  PrimFloat.ltb xs xc && PrimFloat.ltb yc ys.
Definition branch_180 (xc yc xs ys : float) : bool :=
  PrimFloat.ltb xs xc && PrimFloat.ltb ys yc.
Definition branch_270 (xc yc xs ys : float) : bool :=
  PrimFloat.ltb xc xs && PrimFloat.ltb ys yc.

Definition rotation_angle (xc yc xs ys : float) : Z :=
  let ang := 0 in
  if branch_90 xc yc xs ys then 90
  else if branch_180 xc yc xs ys then 180
  else if branch_270 xc yc xs ys then 270
  else ang.

Section ArcPoint.

Variable cv_filter2D : image -> list (list Z) -> image.
Variable cv_morph_open : image -> image.
Variable cv_Canny : image -> image.
(** [np.linalg.inv]. *)
Variable np_linalg_inv : matrix -> result matrix.
(** [scipy.ndimage.rotate(roi, ang)]. *)
Variable ndimage_rotate : image -> Z -> image.
Variable math_sin : float -> float.
Variable math_cos : float -> float.

(** Lines 163-168: the crossing point of the two lines. *)
Definition lines_crossing (line1 line2 : line) : result (float * float) :=
  let '(A, B) := crossing_system line1 line2 in
  (try! Ainv <- np_linalg_inv A ;;
   let R := dot Ainv B in
   match slice R 2 (Z.of_nat (length R)) with
   | [xs; ys] => Ok (xs, ys)
   | _ => Raise ValueError
   end)%py.

(** Lines 163-211: the arc centre, the rotated region and its angle.
    The coordinates handed to the drawing calls are converted with
    [int], which refuses NaN and infinities. *)
Definition arc_centre (image : image) (img_shape : Z * Z) (line1 line2 : line)
  : result (float * float * Z * Img.image) :=
  (try! s <- lines_crossing line1 line2 ;;
   let '(xs, ys) := s in
   let '(vx, vy) := offset_vector line1 line2 in
   try! k <- offset_scale vx vy ;;
   try! _ <- int_of_float (xs + k * vx)%float ;;
   try! _ <- int_of_float (ys + k * vy)%float ;;
   try! _ <- int_of_float xs ;;
   try! _ <- int_of_float ys ;;
   let C := arc_centres xs ys vx vy k in
   try! _ <- foldM (fun (_ : unit) c =>
                      try! _ <- int_of_float (fst c) ;;
                      try! _ <- int_of_float (snd c) ;; Ok tt) C tt ;;
   try! c <- proper_arc img_shape C ;;
   let '(xc, yc) := c in
   try! reg <- arc_region xc yc xs ys ;;
   let '(rx0, ry0, rxk, ryk) := reg in
   let roi := crop image ry0 ryk rx0 rxk in
   let ang := rotation_angle xc yc xs ys in
   let roi := ndimage_rotate roi ang in
   try! _ <- int_of_float xc ;;
   try! _ <- int_of_float yc ;;
   Ok (xc, yc, ang, roi))%py.

(** The whole function: the overlay it prints, if any, and its return
    value (-1 when the arc or its edge was not found, 0 otherwise). *)
Definition findArcPoint (image : image) (img_shape : Z * Z) (line1 line2 : line)
  : M (option overlay * Z) :=
  (a <- lift (arc_centre image img_shape line1 line2) ;;
   let '(_, _, _, roi) := a in
   match
     (try! r0 <- int_of_float (PX2MM * 1)%float ;;
      try! r1 <- int_of_float (PX2MM * 2.25)%float ;;
      polarTransform math_sin math_cos roi (0, 0) (r0, r1) 90 0.25)%py
   with
   | Raise _ => ret (None, -1)
   | Ok roi =>
       let roi2 := threshold_tozero 150 roi in
       roi2 <- lift (linesFiltration cv_filter2D roi2 (0, -1)) ;;
       match findLinesPoints cv_morph_open cv_Canny roi2 (0, 1) with
       | None => ret (None, -1)
       | Some pts =>
           fun h =>
             let '(pts_y, h) := alloc h (map snd pts) in
             (o <- findArcPoint_examine pts_y ;;
              ret (Some (fst o), snd o)) h
       end
   end)%py.

End ArcPoint.

(** ** The main loop: the classical processing of one frame (lines 390-400)

    [searchingBox] draws the fitted line and the box on the global frame
    [img], the very array it receives as [image]: the second search reads
    the frame the first one has drawn on, while [findArcPoint] works on
    the copy [img2] taken before.  Drawing happens in place and keeps the
    shape of the frame. *)

Section Frame.

Variable cv_filter2D : image -> list (list Z) -> image.
Variable cv_morph_open : image -> image.
Variable cv_Canny : image -> image.
Variable cv_fitLine : list (Z * Z) -> line.
Variable np_linalg_inv : matrix -> result matrix.
Variable ndimage_rotate : image -> Z -> image.
Variable math_sin : float -> float.
Variable math_cos : float -> float.
(** [cv.line(img, p1, p2, (255,255,255), 3, cv.LINE_AA, 0)]. *)
Variable cv_line : image -> Z * Z -> Z * Z -> image.
(** [cv.rectangle(img, points, (255,255,255), 2)]. *)
Variable cv_rectangle : image -> Z * Z * Z * Z -> image.

(** The frame [img] after a call of searchingBox (lines 119-148): it is
    drawn on only when a line was fitted. *)
Definition searchingBox_draws (img : image) (points : Z * Z * Z * Z)
           (d : direction) : result image :=
  let '(p0, p1, p2, p3) := points in
  let roi := crop img p1 (p1 + p3) p0 (p0 + p2) in
  let roi := threshold_tozero 150 roi in
  (try! roi <- linesFiltration cv_filter2D roi d ;;
   match findLinesPoints cv_morph_open cv_Canny roi d with
   | None => Ok img
   | Some pts =>
       let '(vx, vy, x, y) := cv_fitLine pts in
       let x := (x + float_of_int p0)%float in
       let y := (y + float_of_int p1)%float in
       let k := 10000%float in
       try! p1x <- int_of_float (x - k * vx)%float ;;
       try! p1y <- int_of_float (y - k * vy)%float ;;
       try! p2x <- int_of_float (x + k * vx)%float ;;
       try! p2y <- int_of_float (y + k * vy)%float ;;
       Ok (cv_rectangle (cv_line img (p1x, p1y) (p2x, p2y)) points)
   end)%py.

(** Lines 390-400: detect the two lines, then find and examine the edge.
    The failure value of searchingBox is handed on untested. *)
Definition process_frame (img : image) : M (option overlay * Z) :=
  let img2 := img in
  let img_shape := (Z.of_nat (rows img), Z.of_nat (cols img)) in
  (line1 <- lift (searchingBox cv_filter2D cv_morph_open cv_Canny cv_fitLine
                               img (1000, 625, 800, 200) (0, 1)) ;;
   img <- lift (searchingBox_draws img (1000, 625, 800, 200) (0, 1)) ;;
   line2 <- lift (searchingBox cv_filter2D cv_morph_open cv_Canny cv_fitLine
                               img (325, 1075, 300, 300) (1, 0)) ;;
   findArcPoint cv_filter2D cv_morph_open cv_Canny np_linalg_inv ndimage_rotate
                math_sin math_cos img2 img_shape line1 line2)%py.

End Frame.

(** * Notions of the specification *)

(** ** What the specification calls mean, median and deviation *)

(** The arithmetic mean: the sum of the values over their number. *)
Definition arithmetic_mean (l : list Z) : float :=
  (float_of_int (fold_right Z.add 0%Z l) / float_of_int (Z.of_nat (length l)))%float.

(** The midpoint of the sorted sequence: its central value, or the
    average of the two central values when the length is even. *)
Definition sorted_midpoint (l : list Z) : ExamineArc.number :=
  let s := ZSort.sort l in
  let n := length l in
  if Nat.even n
  then ExamineArc.Float
         (float_of_int (nth (n / 2 - 1)%nat s 0 + nth (n / 2)%nat s 0)%Z / 2)%float
  else ExamineArc.Int (nth (n / 2)%nat s 0).

(** The sum of the squared deviations from [mean], added up in the order
    of [l]. *)
Definition squared_deviations (l : list Z) (mean : float) : float :=
  fold_left (fun acc x =>
               (acc + (float_of_int x - mean) * (float_of_int x - mean))%float)
            l 0%float.

(** The population standard deviation: the squared deviations are divided
    by the number of values, not by one less. *)
Definition population_deviation (l : list Z) (mean : float) : float :=
  PrimFloat.sqrt
    (squared_deviations (ZSort.sort l) mean / float_of_int (Z.of_nat (length l)))%float.

(** The largest length for which [float(len(pts))] is exact. *)
Definition exact_length (l : list Z) : Prop := Z.of_nat (length l) < 2 ^ 53.

(** A radial-position sequence holds pixel indices: non-negative
    integers, which cv.findNonZero delivers in 32 bits, and few enough of
    them for their sum to stay in 32 bits as well.  For such values no
    sum, no conversion to float and no squaring leaves the range of its
    type, whether the values are Python integers or numpy's. *)
Definition radial_positions (l : list Z) : Prop :=
  Forall (fun y => 0 <= y) l /\ fold_right Z.add 0 l < 2 ^ 31.


(** The specification's claim that an empty sequence is reported by an error
    of the program's own rather than by a fault of the arithmetic. *)
Definition empty_input_is_reported : Prop :=
  forall (h : heap) (p : ref),
    nth_error h p = Some [] ->
    exists e, fst (findArcPoint_examine p h) = Raise e /\ arithmetic_fault e = false.

(** The column [first_in_rows] records for a row, if it records one. *)
Definition first_edge (row : list Z) : option nat :=
  let non_zero_values := flatnonzero row in
  if existsb (fun i => negb (Nat.eqb i 0)) non_zero_values
  then Some (hd 0%nat non_zero_values)
  else None.

(** The shape of a map of [nr] rows and [nc] columns once it is rotated
    for the search. *)
Definition search_shape (d : direction) (nr nc : nat) : nat * nat :=
  if snd d =? 0 then (nr, nc) else (nc, nr).

(** The Region-local (row, column) of the sample that the rotated map
    shows at row [r], column [c]. *)
Definition base_coords (d : direction) (nr nc r c : nat) : nat * nat :=
  match d with
  | (-1, 0) => (r, nc - 1 - c)%nat
  | (0, 1) => (nr - 1 - c, r)%nat
  | (0, -1) => (c, r)
  | _ => (r, c)
  end.

(** No sample of the map is an edge sample. *)
Definition all_zero (m : image) : Prop := Forall (Forall (fun v => v = 0)) m.

(** The specification's claim that a region without edge samples yields the
    empty point set, a value of the same type as a set of points. *)
Definition no_edges_give_empty_set : Prop :=
  forall (edges : image) (d : direction),
    all_zero edges -> outer_line_points edges d = Some [].

(** The specification's claim that each of the four quadrants has a branch
    of its own that assigns its angle. *)
Definition every_quadrant_has_a_branch : Prop :=
  forall xc yc xs ys : float,
    PrimFloat.eqb xc xs = false -> PrimFloat.eqb yc ys = false ->
    In (rotation_angle xc yc xs ys) [0; 90; 180; 270]
    /\ (branch_90 xc yc xs ys || branch_180 xc yc xs ys
        || branch_270 xc yc xs ys) = true.

(** The specification's claim that parallel lines are found out before the
    matrix is inverted: the solver then fails with one and the same error
    whatever the inversion routine does with the matrix. *)
Definition parallel_lines_detected_before_inversion : Prop :=
  forall (inv inv' : matrix -> result matrix) (line1 line2 : line),
    PrimFloat.eqb (direction_cross line1 line2) 0 = true ->
    exists e, lines_crossing inv line1 line2 = Raise e
              /\ lines_crossing inv' line1 line2 = Raise e.

(** The candidate [c] is at least as close to the centre of the frame as
    every candidate of [C]. *)
Definition closest_to_centre (img_shape : Z * Z) (C : list (float * float))
           (c : float * float) : Prop :=
  In c C
  /\ exists d, centre_distance img_shape c = Ok d
     /\ forall c' d', In c' C -> centre_distance img_shape c' = Ok d' ->
                      PrimFloat.ltb d' d = false.

(** The column of a raster of [nc] columns that receives the ray of angle
    [alpha]. *)
Definition raster_column (nc : nat) (alpha theta_inc : float) : result nat :=
  bind (polar_column alpha theta_inc) (index nc).

(** The specification's claim that the raster cell of an angle and a radius
    holds the sample at [start_point] plus the radius along the ray. The
    positions are converted as the code converts them; at the angle 0 they
    are whole numbers. *)
Definition polar_samples_from_start_point : Prop :=
  forall math_sin math_cos : float -> float,
    math_sin 0%float = 0%float -> math_cos 0%float = 1%float ->
    forall (roi : image) (start_point r : Z * Z) (theta theta_inc : float)
           (out : image) (angles : list float),
      polarTransform math_sin math_cos roi start_point r theta theta_inc = Ok out ->
      np_arange theta theta_inc = Ok angles ->
      forall (alpha : float) (R : Z),
        In alpha angles -> fst r <= R < snd r ->
        exists x y c,
          int_of_float (float_of_int (fst start_point)
                        + math_sin (math_radians alpha) * float_of_int R)%float = Ok x
          /\ int_of_float (float_of_int (snd start_point)
                           + math_cos (math_radians alpha) * float_of_int R)%float = Ok y
          /\ polar_column alpha theta_inc = Ok c
          /\ item out (R - fst r) c = item roi x y.

(** The specification's claim that the raster has one column for each
    sampled angle. *)
Definition raster_has_a_column_per_angle : Prop :=
  forall math_sin math_cos : float -> float,
    math_sin 0%float = 0%float -> math_cos 0%float = 1%float ->
    forall (roi : image) (start_point r : Z * Z) (theta theta_inc : float)
           (out : image) (angles : list float),
      polarTransform math_sin math_cos roi start_point r theta theta_inc = Ok out ->
      np_arange theta theta_inc = Ok angles ->
      rows out = Z.to_nat (snd r - fst r) /\ cols out = length angles.

(** ** Auxiliary notions of the proofs *)

(** Not below zero: either zero, a positive number, +infinity or NaN. *)
Definition sf_nonneg (f : spec_float) : bool :=
  match f with
  | S754_finite true _ _ | S754_infinity true => false
  | _ => true
  end.

(** Strictly positive: a positive finite number or +infinity. *)
Definition sf_pos (f : spec_float) : bool :=
  match f with
  | S754_finite false _ _ | S754_infinity false => true
  | _ => false
  end.

Definition float_nonneg (x : float) : bool := sf_nonneg (Prim2SF x).
Definition float_pos (x : float) : bool := sf_pos (Prim2SF x).

(** What holds of [min_dist] and [properArc] once the candidates [P] were
    compared. *)
Definition chosen (img_shape : Z * Z) (P : list (float * float))
           (min_dist : float) (properArc : option nat) : Prop :=
  match properArc with
  | None => min_dist = 9999%float
  | Some j => exists cj, nth_error P j = Some cj
                         /\ centre_distance img_shape cj = Ok min_dist
                         /\ PrimFloat.ltb min_dist 9999 = true
  end
  /\ forall c' d', In c' P -> centre_distance img_shape c' = Ok d' ->
                   PrimFloat.ltb d' min_dist = false.


(** * Notions of the further properties *)

(** ** Notions for the points the edge extractor returns *)

(** The (row, column) at which the rotated map shows the Region-local
    sample of row [y], column [x]. *)
Definition scan_coords (d : direction) (nr nc y x : nat) : nat * nat :=
  match d with
  | (-1, 0) => (y, nc - 1 - x)%nat
  | (0, 1) => (x, nr - 1 - y)%nat
  | (0, -1) => (x, y)
  | _ => (y, x)
  end.

(** The samples (y, x) and (y', x') are searched together: they lie in
    one row for a horizontal direction, in one column for a vertical one. *)
Definition same_scan_line (d : direction) (y x y' x' : nat) : Prop :=
  if snd d =? 0 then y' = y else x' = x.

(** The sample at (y, x) is an edge sample and the search along [d] meets
    no edge sample of its scan line before it. *)
Definition first_hit (d : direction) (edges : image) (y x : nat) : Prop :=
  px edges y x <> 0
  /\ match d with
     | (1, 0) => forall x', (x' < x)%nat -> px edges y x' = 0
     | (-1, 0) => forall x', (x < x')%nat -> px edges y x' = 0
     | (0, 1) => forall y', (y < y')%nat -> px edges y' x = 0
     | (0, -1) => forall y', (y' < y)%nat -> px edges y' x = 0
     | _ => True
     end.

(** The sample at (y, x) lies on the border line where the search along
    [d] starts. *)
Definition on_start_line (d : direction) (nr nc y x : nat) : bool :=
  match d with
  | (1, 0) => Nat.eqb x 0
  | (-1, 0) => Nat.eqb x (nc - 1)
  | (0, 1) => Nat.eqb y (nr - 1)
  | (0, -1) => Nat.eqb y 0
  | _ => false
  end.

(** The coordinate of a point that names its scan line. *)
Definition scan_line (d : direction) (p : Z * Z) : Z :=
  if snd d =? 0 then snd p else fst p.

(** The number of scan lines of a map of [nr] rows and [nc] columns. *)
Definition scan_lines (d : direction) (nr nc : nat) : nat :=
  if snd d =? 0 then nr else nc.

(** ** Notions for the order statistics *)

(** How many values of [l] are at most [m], and how many at least [m]. *)
Definition count_le (m : Z) (l : list Z) : nat :=
  length (filter (fun x => x <=? m) l).
Definition count_ge (m : Z) (l : list Z) : nat :=
  length (filter (fun x => m <=? x) l).

(** ** Notions for the search box *)

(** What [cv.threshold(.., 150, 255, cv.THRESH_TOZERO)] makes of a sample. *)
Definition above_threshold (v : Z) : Z := if 150 <? v then v else 0.

(** ** Notions for the configured polar transform *)

(** The angle of index [i] in [np.arange(0, 90, 0.25)]. *)
Definition configured_angle (i : nat) : float :=
  (0 + float_of_int (Z.of_nat i) * 0.25)%float.

(** ** Notions for the offset to the arc centre *)

(** The direction of a line as searchingBox returns it: cv.fitLine
    normalises the direction it fits, and the failure value has the
    components -1, so no component exceeds 1 in magnitude.  For such
    components no sum and no square leaves the range of its type, whether
    the components are Python floats or numpy's float32. *)
Definition unit_direction (l : line) : Prop :=
  let '(vx, vy, _, _) := l in
  PrimFloat.leb (abs vx) 1 = true /\ PrimFloat.leb (abs vy) 1 = true.

(** * Facts and theorems *)

(** * Facts about binary64 arithmetic *)

Module FloatFacts.

Lemma round_aux_sign (s : bool) (m e : Z) (l : location) :
  let f := binary_round_aux prec emax s m e l in
  f = S754_nan \/ f = S754_zero s \/ f = S754_infinity s
  \/ exists m' e', f = S754_finite s m' e'.
Proof.
  unfold binary_round_aux.
  destruct (shr_fexp prec emax m e l) as [mrs' e'].
  destruct (shr_fexp prec emax _ e' loc_Exact) as [mrs'' e''].
  destruct (shr_m mrs'') as [|q|q]; auto.
  destruct (e'' <=? emax - prec); eauto 6.
Qed.

Lemma round_aux_nonneg (m e : Z) (l : location) :
  sf_nonneg (binary_round_aux prec emax false m e l) = true.
Proof.
  destruct (round_aux_sign false m e l) as [H|[H|[H|(m' & e' & H)]]];
    rewrite H; reflexivity.
Qed.

Lemma sf_mul_self_nonneg (f : spec_float) :
  sf_nonneg (SF64mul f f) = true.
Proof.
  unfold SF64mul; destruct f as [s|s| |s m e]; simpl; try reflexivity.
  - now rewrite xorb_nilpotent.
  - rewrite xorb_nilpotent. apply round_aux_nonneg.
Qed.

Lemma sf_add_nonneg (f g : spec_float) :
  sf_nonneg f = true -> sf_nonneg g = true -> sf_nonneg (SF64add f g) = true.
Proof.
  unfold SF64add.
  destruct f as [s|[]| |[] m e]; destruct g as [t|[]| |[] n e2];
    simpl; intros Hf Hg; try discriminate; try reflexivity;
    try (destruct s; try destruct t; reflexivity).
  unfold binary_round.
  destruct (shl_align _ _ _) as [mz ez].
  apply round_aux_nonneg.
Qed.

Lemma sf_div_nonneg (f g : spec_float) :
  sf_nonneg f = true -> sf_pos g = true -> sf_nonneg (SF64div f g) = true.
Proof.
  unfold SF64div.
  destruct f as [s|[]| |[] m e]; destruct g as [t|[]| |[] n e2];
    simpl; intros Hf Hg; try discriminate; try reflexivity;
    try (destruct s; reflexivity).
  destruct (SFdiv_core_binary prec emax (Z.pos m) e (Z.pos n) e2) as [[mz ez] lz].
    apply round_aux_nonneg.
Qed.

Lemma nonneg_not_ltb_zero (x : float) :
  float_nonneg x = true -> PrimFloat.ltb x 0 = false.
Proof.
  unfold float_nonneg; rewrite ltb_spec.
  change (Prim2SF 0) with (S754_zero false).
  destruct (Prim2SF x) as [s|[]| |[] m e]; simpl; try discriminate; reflexivity.
Qed.

Lemma pos_not_eqb_zero (x : float) :
  float_pos x = true -> PrimFloat.eqb x 0 = false.
Proof.
  unfold float_pos; rewrite eqb_spec.
  change (Prim2SF 0) with (S754_zero false).
  destruct (Prim2SF x) as [s|[]| |[] m e]; simpl; try discriminate; reflexivity.
Qed.

Lemma nonneg_zero : float_nonneg 0 = true.
Proof. reflexivity. Qed.

Lemma nonneg_sqr (x : float) : float_nonneg (ExamineArc.sqr x) = true.
Proof.
  unfold float_nonneg, ExamineArc.sqr. rewrite mul_spec. apply sf_mul_self_nonneg.
Qed.

Lemma nonneg_add (x y : float) :
  float_nonneg x = true -> float_nonneg y = true -> float_nonneg (x + y) = true.
Proof.
  unfold float_nonneg. rewrite add_spec. apply sf_add_nonneg.
Qed.

Lemma nonneg_div (x y : float) :
  float_nonneg x = true -> float_pos y = true -> float_nonneg (x / y) = true.
Proof.
  unfold float_nonneg, float_pos. rewrite div_spec. apply sf_div_nonneg.
Qed.

End FloatFacts.

Module IntToFloat.

Lemma digits2_size (p : positive) : digits2_pos p = Pos.size p.
Proof. induction p; simpl; congruence. Qed.

Lemma digits2_shift (p k : positive) :
  digits2_pos (Pos.iter xO p k) = (digits2_pos p + k)%positive.
Proof.
  induction k as [|k IH] using Pos.peano_ind.
  - simpl. now rewrite Pos.add_1_r.
  - rewrite Pos.iter_succ. simpl. rewrite IH. lia.
Qed.

Lemma digits2_bound (p : positive) (n : Z) :
  0 <= n -> Z.pos p < 2 ^ n -> Z.pos (digits2_pos p) <= n.
Proof.
  intros Hn Hp. rewrite digits2_size.
  destruct (Z_le_gt_dec (Z.pos (Pos.size p)) n) as [|Hgt]; [assumption|exfalso].
  pose proof (Pos.size_le p) as Hle.
  assert (H2 : 2 ^ Z.pos (Pos.size p) <= 2 * Z.pos p).
  { rewrite <- Pos2Z.inj_pow. change (2 * Z.pos p) with (Z.pos p~0). lia. }
  assert (H3 : 2 ^ (n + 1) <= 2 ^ Z.pos (Pos.size p)).
  { apply Z.pow_le_mono_r; lia. }
  rewrite Z.pow_add_r in H3 by lia. lia.
Qed.

(** No rounding takes place when a mantissa already has 53 digits. *)
Lemma round_aux_exact (m : positive) (e : Z) :
  Z.pos (digits2_pos m) = 53 -> -1074 <= e <= 971 ->
  binary_round_aux prec emax false (Z.pos m) e loc_Exact = S754_finite false m e.
Proof.
  intros Hd He.
  assert (Hs : forall l, shr_fexp prec emax (Z.pos m) e l
                         = (shr_record_of_loc (Z.pos m) l, e)).
  { intros l. unfold shr_fexp, fexp, emin, Zdigits2. rewrite Hd.
    replace (Z.max (53 + e - prec) (3 - emax - prec) - e) with 0
      by (unfold prec, emax; lia).
    reflexivity. }
  unfold binary_round_aux. rewrite Hs. cbn [shr_record_of_loc shr_m loc_of_shr_record round_nearest_even].
  rewrite Hs. cbn [shr_record_of_loc shr_m].
  replace (e <=? emax - prec) with true; [reflexivity|].
  symmetry; apply Z.leb_le. unfold prec, emax; lia.
Qed.

Lemma normalize_small (p : positive) :
  Z.pos p < 2 ^ 53 ->
  exists m e, binary_normalize prec emax (Z.pos p) 0 false = S754_finite false m e
              /\ valid_binary (S754_finite false m e) = true.
Proof.
  intros Hp.
  pose proof (digits2_bound p 53 ltac:(lia) Hp) as Hd.
  assert (Hd1 : 1 <= Z.pos (digits2_pos p)) by lia.
  cbn [binary_normalize]. unfold binary_round.
  assert (Hf : fexp prec emax (Z.pos (digits2_pos p) + 0) = Z.pos (digits2_pos p) - 53).
  { unfold fexp, emin, prec, emax; lia. }
  rewrite Hf. unfold shl_align.
  assert (Hv : forall m e, Z.pos (digits2_pos m) = 53 -> -1074 <= e <= 971 ->
                           valid_binary (S754_finite false m e) = true).
  { intros m e Hm He. unfold SpecFloat.valid_binary, bounded, canonical_mantissa.
    rewrite Hm. apply andb_true_iff; split.
    - apply Z.eqb_eq. unfold fexp, emin, prec, emax; lia.
    - apply Z.leb_le. unfold prec, emax; lia. }
  destruct (Z.pos (digits2_pos p) - 53 - 0) as [|k|k] eqn:E.
  - exists p, 0. split; [apply round_aux_exact; lia | apply Hv; lia].
  - lia.
  - exists (Pos.iter xO p k), (Z.pos (digits2_pos p) - 53).
    assert (Hk : Z.pos (digits2_pos (Pos.iter xO p k)) = 53)
      by (rewrite digits2_shift; lia).
    split; [apply round_aux_exact; lia | apply Hv; lia].
Qed.

Lemma float_of_int_pos (i : Z) :
  0 < i < 2 ^ 53 -> float_pos (float_of_int i) = true.
Proof.
  intros [H0 H1]. destruct i as [|p|p]; try lia.
  destruct (normalize_small p H1) as (m & e & Hn & Hv).
  unfold float_pos, float_of_int. rewrite Hn, Prim2SF_SF2Prim by exact Hv.
  reflexivity.
Qed.

End IntToFloat.

(** * The order of binary64 numbers *)

Module FloatOrder.

Ltac fold_pos_compare :=
  repeat match goal with
         | |- context [PosDef.Pos.compare_cont Eq ?a ?b] =>
             change (PosDef.Pos.compare_cont Eq a b) with (Pos.compare a b)
         end.

(** Swapping the operands of a comparison reverses its outcome. *)
Lemma sf_compare_swap (f g : spec_float) :
  SFcompare g f = match SFcompare f g with
                  | Some c => Some (CompOpp c)
                  | None => None
                  end.
Proof.
  destruct f as [s|s| |s m e]; destruct g as [t|t| |t n e'];
    simpl; try reflexivity;
    try (destruct s; reflexivity); try (destruct t; reflexivity);
    try (destruct s, t; reflexivity).
  fold_pos_compare. rewrite (Z.compare_antisym e e'), (Pos.compare_antisym m n).
  destruct s, t; try reflexivity;
    destruct (e ?= e'); simpl; try reflexivity;
    destruct (m ?= n)%positive; reflexivity.
Qed.

Lemma ltb_asym (x y : float) :
  PrimFloat.ltb x y = true -> PrimFloat.ltb y x = false.
Proof.
  rewrite !ltb_spec. unfold SFltb. rewrite (sf_compare_swap (Prim2SF x) (Prim2SF y)).
  destruct (SFcompare (Prim2SF x) (Prim2SF y)) as [[ | | ]|]; simpl; congruence.
Qed.

Lemma ltb_irrefl (x : float) : PrimFloat.ltb x x = false.
Proof.
  destruct (PrimFloat.ltb x x) eqn:E; [|reflexivity].
  pose proof (ltb_asym x x E). congruence.
Qed.

(** Finite numbers of one sign are ordered by exponent, then mantissa. *)
Lemma lex_lt_trans (e1 e2 e3 : Z) (m1 m2 m3 : positive) :
  match e1 ?= e2 with Eq => (m1 ?= m2)%positive | c => c end = Lt ->
  match e2 ?= e3 with Eq => (m2 ?= m3)%positive | c => c end = Lt ->
  match e1 ?= e3 with Eq => (m1 ?= m3)%positive | c => c end = Lt.
Proof.
  destruct (Z.compare_spec e1 e2), (Z.compare_spec e2 e3), (Z.compare_spec e1 e3);
    try discriminate; try lia; try reflexivity.
  rewrite !Pos.compare_lt_iff. lia.
Qed.

Lemma lex_gt_trans (e1 e2 e3 : Z) (m1 m2 m3 : positive) :
  match e1 ?= e2 with Eq => (m1 ?= m2)%positive | c => c end = Gt ->
  match e2 ?= e3 with Eq => (m2 ?= m3)%positive | c => c end = Gt ->
  match e1 ?= e3 with Eq => (m1 ?= m3)%positive | c => c end = Gt.
Proof.
  destruct (Z.compare_spec e1 e2), (Z.compare_spec e2 e3), (Z.compare_spec e1 e3);
    try discriminate; try lia; try reflexivity.
  rewrite !Pos.compare_gt_iff. lia.
Qed.

Lemma sf_ltb_trans (f g h : spec_float) :
  SFltb f g = true -> SFltb g h = true -> SFltb f h = true.
Proof.
  unfold SFltb.
  destruct f as [s|s| |s m1 e1]; destruct g as [t|t| |t m2 e2];
    destruct h as [u|u| |u m3 e3]; simpl;
    try discriminate; try reflexivity;
    try (destruct s; discriminate || reflexivity);
    try (destruct t; discriminate || reflexivity);
    try (destruct u; discriminate || reflexivity);
    try (destruct s, t; discriminate || reflexivity);
    try (destruct s, u; discriminate || reflexivity);
    try (destruct t, u; discriminate || reflexivity);
    try (destruct s, t, u; discriminate || reflexivity).
  fold_pos_compare.
  destruct s, t, u; try discriminate; try reflexivity; intros H1 H2.
  - assert (G1 : match e1 ?= e2 with Eq => (m1 ?= m2)%positive | c => c end = Gt)
      by (destruct (e1 ?= e2); try discriminate; try reflexivity;
          destruct (m1 ?= m2)%positive; discriminate || reflexivity).
    assert (G2 : match e2 ?= e3 with Eq => (m2 ?= m3)%positive | c => c end = Gt)
      by (destruct (e2 ?= e3); try discriminate; try reflexivity;
          destruct (m2 ?= m3)%positive; discriminate || reflexivity).
    pose proof (lex_gt_trans _ _ _ _ _ _ G1 G2) as G.
    destruct (e1 ?= e3); try discriminate; try reflexivity.
    now rewrite G.
  - assert (G1 : match e1 ?= e2 with Eq => (m1 ?= m2)%positive | c => c end = Lt)
      by (destruct (e1 ?= e2); try discriminate; try reflexivity;
          destruct (m1 ?= m2)%positive; discriminate || reflexivity).
    assert (G2 : match e2 ?= e3 with Eq => (m2 ?= m3)%positive | c => c end = Lt)
      by (destruct (e2 ?= e3); try discriminate; try reflexivity;
          destruct (m2 ?= m3)%positive; discriminate || reflexivity).
    pose proof (lex_lt_trans _ _ _ _ _ _ G1 G2) as G.
    destruct (e1 ?= e3); try discriminate; try reflexivity.
    now rewrite G.
Qed.

Lemma ltb_trans (x y z : float) :
  PrimFloat.ltb x y = true -> PrimFloat.ltb y z = true -> PrimFloat.ltb x z = true.
Proof. rewrite !ltb_spec. apply sf_ltb_trans. Qed.

End FloatOrder.

(** * The statistics: ExamineArc and the verdict *)

Module StoreFacts.

Lemma deref_lookup (h : heap) (p : ref) (l : list Z) :
  nth_error h p = Some l -> deref h p = l.
Proof.
  unfold deref. revert p; induction h as [|x h IH]; intros [|p] H; simpl in *;
    try discriminate; [congruence | auto].
Qed.

Lemma update_lookup (h : heap) (p : ref) (l l' : list Z) :
  nth_error h p = Some l -> nth_error (update h p l') p = Some l'.
Proof.
  revert p; induction h as [|x h IH]; intros [|p] H; simpl in *;
    try discriminate; [reflexivity | eauto].
Qed.

Lemma update_other (h : heap) (p q : ref) (l' : list Z) :
  q <> p -> nth_error (update h p l') q = nth_error h q.
Proof.
  revert p q; induction h as [|x h IH]; intros [|p] [|q] H; simpl;
    try reflexivity; try congruence.
  apply IH; congruence.
Qed.

Lemma update_same (h : heap) (p : ref) (l : list Z) :
  nth_error h p = Some l -> update h p l = h.
Proof.
  revert p; induction h as [|x h IH]; intros [|p] H; simpl in *;
    try discriminate; [congruence | f_equal; auto].
Qed.

End StoreFacts.

Module SortFacts.

Lemma sort_length (l : list Z) : length (ZSort.sort l) = length l.
Proof. symmetry. apply Permutation_length, ZSort.Permuted_sort. Qed.

Lemma sort_ascending (l : list Z) : Sorted Z.le (ZSort.sort l).
Proof.
  pose proof (ZSort.Sorted_sort l) as H.
  induction H as [| x l' Hl IH Hhd]; constructor; auto.
  destruct Hhd; constructor. now apply Z.leb_le.
Qed.

Lemma sort_nil : ZSort.sort [] = [].
Proof. reflexivity. Qed.

(** An ascending arrangement of a list is unique. *)
Lemma sorted_fixpoint (l : list Z) : ZSort.sort l = l -> Sorted Z.le l.
Proof. intros H. rewrite <- H. apply sort_ascending. Qed.

End SortFacts.

Module ListFacts.

Lemma sum_from (l : list Z) (a : Z) : fold_left Z.add l a = a + fold_right Z.add 0 l.
Proof.
  revert a; induction l as [|x l IH]; intros a; simpl; [lia|].
  rewrite IH. lia.
Qed.

Lemma sum_fold_right (l : list Z) : sum l = fold_right Z.add 0 l.
Proof. unfold sum. rewrite sum_from. lia. Qed.

Lemma two_from (k : nat) (l : list Z) :
  (S k < length l)%nat ->
  firstn 2 (skipn k l) = [nth k l 0; nth (S k) l 0].
Proof.
  revert l; induction k as [|k IH]; intros l H.
  - destruct l as [|a [|b l]]; simpl in *; try lia. reflexivity.
  - destruct l as [|a l]; simpl in *; try lia.
    rewrite IH by lia. reflexivity.
Qed.

(** The slice [l[half - 1 : half + 1]] of a list of even length. *)
Lemma central_slice (l : list Z) :
  Nat.even (length l) = true ->
  sum (slice l (Z.of_nat (length l) / 2 - 1) (Z.of_nat (length l) / 2 + 1))
  = nth (length l / 2 - 1)%nat l 0 + nth (length l / 2)%nat l 0.
Proof.
  intros He. apply Nat.even_spec in He. destruct He as [k Hk].
  destruct k as [|k].
  - destruct l; [reflexivity | simpl in Hk; lia].
  - assert (Hdiv : (length l / 2 = S k)%nat).
    { rewrite Hk. rewrite Nat.mul_comm. apply Nat.div_mul. lia. }
    assert (HdivZ : Z.of_nat (length l) / 2 = Z.of_nat (S k)).
    { rewrite Hk. rewrite Nat2Z.inj_mul. rewrite Z.mul_comm.
      apply Z.div_mul. lia. }
    unfold slice. rewrite HdivZ, Hdiv. unfold clamp.
    replace (Z.of_nat (S k) - 1 <? 0) with false by (symmetry; apply Z.ltb_ge; lia).
    replace (Z.of_nat (S k) + 1 <? 0) with false by (symmetry; apply Z.ltb_ge; lia).
    rewrite !Z.min_l by lia.
    replace (Z.to_nat (Z.of_nat (S k) + 1 - (Z.of_nat (S k) - 1))) with 2%nat by lia.
    replace (Z.to_nat (Z.of_nat (S k) - 1)) with k by lia.
    replace (S k - 1)%nat with k by lia.
    rewrite two_from by lia. unfold sum. simpl. lia.
Qed.

Lemma central_item (l : list Z) :
  Nat.even (length l) = false ->
  getitem l (Z.of_nat (length l) / 2) = Ok (nth (length l / 2)%nat l 0).
Proof.
  intros Ho.
  assert (Hn : (0 < length l)%nat) by (destruct l; [discriminate | simpl; lia]).
  assert (Hlt : (length l / 2 < length l)%nat) by (apply Nat.div_lt; lia).
  assert (HZ : Z.of_nat (length l) / 2 = Z.of_nat (length l / 2)).
  { change 2 with (Z.of_nat 2). now rewrite <- Nat2Z.inj_div. }
  unfold getitem. rewrite HZ.
  replace (Z.of_nat (length l / 2) <? 0) with false by (symmetry; apply Z.ltb_ge; lia).
  replace (0 <=? Z.of_nat (length l / 2)) with true by (symmetry; apply Z.leb_le; lia).
  replace (Z.of_nat (length l / 2) <? Z.of_nat (length l)) with true
    by (symmetry; apply Z.ltb_lt; lia).
  cbn [andb]. rewrite Nat2Z.id.
  rewrite (nth_error_nth' l 0 Hlt). reflexivity.
Qed.

Lemma even_mod (n : nat) : (Z.of_nat n mod 2 =? 0) = Nat.even n.
Proof.
  change 2 with (Z.of_nat 2). rewrite <- Nat2Z.inj_mod.
  destruct (Nat.even n) eqn:E.
  - apply Z.eqb_eq. apply Nat.even_spec in E. destruct E as [k ->].
    rewrite Nat.mul_comm, Nat.Div0.mod_mul. reflexivity.
  - apply Z.eqb_neq. intros H.
    assert (Hm : (n mod 2 = 0)%nat) by lia.
    apply Nat.Div0.mod_divides in Hm. destruct Hm as [k Hk].
    assert (Nat.even n = true) by (apply Nat.even_spec; exists k; lia).
    congruence.
Qed.

End ListFacts.

Module StatsFacts.

Import FloatFacts IntToFloat StoreFacts SortFacts ListFacts.

Lemma length_pos (l : list Z) : l <> [] -> exact_length l ->
  0 < Z.of_nat (length l) < 2 ^ 53.
Proof.
  intros Hne Hlen. split; [|exact Hlen].
  destruct l; [congruence | simpl; lia].
Qed.

Lemma truediv_by_length (x : float) (l : list Z) :
  l <> [] -> exact_length l ->
  truediv x (float_of_int (Z.of_nat (length l)))
  = Ok (x / float_of_int (Z.of_nat (length l)))%float.
Proof.
  intros Hne Hlen. unfold truediv.
  now rewrite pos_not_eqb_zero by (apply float_of_int_pos, length_pos; assumption).
Qed.

Lemma srednia_run (h : heap) (p : ref) (pts : list Z) :
  nth_error h p = Some pts -> pts <> [] -> exact_length pts ->
  ExamineArc.srednia p h = (Ok (arithmetic_mean pts), h).
Proof.
  intros Hp Hne Hlen.
  unfold ExamineArc.srednia, mbind, load, lift.
  rewrite (deref_lookup h p pts Hp), truediv_by_length by assumption.
  unfold arithmetic_mean. now rewrite sum_fold_right.
Qed.

Lemma srednia_empty (h : heap) (p : ref) :
  nth_error h p = Some [] ->
  ExamineArc.srednia p h = (Raise ZeroDivisionError, h).
Proof.
  intros Hp. unfold ExamineArc.srednia, mbind, load, lift.
  rewrite (deref_lookup h p [] Hp). reflexivity.
Qed.

Lemma mediana_run (h : heap) (p : ref) (pts : list Z) :
  nth_error h p = Some pts ->
  ExamineArc.mediana p h
  = (Ok (sorted_midpoint pts), update h p (ZSort.sort pts)).
Proof.
  intros Hp.
  unfold ExamineArc.mediana, mbind, load, store, lift, ret.
  rewrite (deref_lookup h p pts Hp).
  rewrite (deref_lookup _ p _ (update_lookup h p pts _ Hp)).
  rewrite even_mod. unfold sorted_midpoint.
  rewrite sort_length.
  destruct (Nat.even (length pts)) eqn:He.
  - rewrite <- (sort_length pts) at 1 2 3 4.
    rewrite central_slice by (now rewrite sort_length).
    now rewrite sort_length.
  - rewrite <- (sort_length pts) at 1.
    rewrite central_item by (now rewrite sort_length).
    now rewrite sort_length.
Qed.

Lemma squared_deviations_nonneg (l : list Z) (s acc : float) :
  float_nonneg acc = true ->
  float_nonneg (fold_left (fun a x =>
                             (a + (float_of_int x - s) * (float_of_int x - s))%float)
                          l acc)
  = true.
Proof.
  revert acc; induction l as [|x l IH]; intros acc Hacc; simpl; [assumption|].
  apply IH, nonneg_add; [assumption | apply (nonneg_sqr (float_of_int x - s))].
Qed.

Lemma odchylenie_run (h : heap) (p : ref) (l : list Z) (s : float) :
  nth_error h p = Some l -> l <> [] -> exact_length l ->
  ExamineArc.odchylenie p s h
  = (Ok (PrimFloat.sqrt
           (squared_deviations l s / float_of_int (Z.of_nat (length l)))), h).
Proof.
  intros Hp Hne Hlen.
  unfold ExamineArc.odchylenie, ExamineArc.wariancja, mbind, load, lift.
  rewrite (deref_lookup h p l Hp), truediv_by_length by assumption.
  unfold ExamineArc.sqr. fold (squared_deviations l s).
  unfold math_sqrt. rewrite nonneg_not_ltb_zero; [reflexivity|].
  apply nonneg_div.
  - apply squared_deviations_nonneg, nonneg_zero.
  - apply float_of_int_pos, length_pos; assumption.
Qed.

Lemma sort_not_nil (l : list Z) : l <> [] -> ZSort.sort l <> [].
Proof.
  intros Hne Hs. apply Hne, length_zero_iff_nil.
  now rewrite <- sort_length, Hs.
Qed.

Lemma examine_run (h : heap) (p : ref) (pts : list Z) :
  nth_error h p = Some pts -> pts <> [] -> exact_length pts ->
  let s := arithmetic_mean pts in
  let o := population_deviation pts s in
  findArcPoint_examine p h
  = (Ok (mkOverlay (if within_tolerance s o then OK else N_OK) s o, 0),
     update h p (ZSort.sort pts)).
Proof.
  intros Hp Hne Hlen s o.
  unfold findArcPoint_examine, mbind at 1.
  rewrite (srednia_run h p pts) by assumption.
  unfold mbind at 1. rewrite (mediana_run h p pts Hp).
  unfold mbind at 1.
  rewrite (odchylenie_run _ p (ZSort.sort pts) (arithmetic_mean pts)
             (update_lookup h p pts _ Hp)).
  - unfold ret. rewrite sort_length. reflexivity.
  - now apply sort_not_nil.
  - unfold exact_length. now rewrite sort_length.
Qed.

End StatsFacts.

(** ** The claims about the statistics stage *)




(** C8, as the specification states it, fails: on the empty sequence the
    stage stops with the division by zero of the mean. *)
Lemma empty_input_not_reported : ~ empty_input_is_reported.
Proof.
  intros H. destruct (H [[]] 0%nat eq_refl) as (e & He & Hf).
  vm_compute in He. injection He as <-. discriminate.
Qed.

(** C8, amended: for every empty input sequence the mean raises
    ZeroDivisionError, and the statistics stage of findArcPoint ends with
    that exception, the store untouched. *)
Theorem empty_input_zero_division (h : heap) (p : ref) :
  nth_error h p = Some [] ->
  ExamineArc.srednia p h = (Raise ZeroDivisionError, h)
  /\ findArcPoint_examine p h = (Raise ZeroDivisionError, h)
  /\ arithmetic_fault ZeroDivisionError = true.
Proof.
  intros Hp. split; [now apply StatsFacts.srednia_empty|]. split; [|reflexivity].
  unfold findArcPoint_examine, mbind at 1.
  now rewrite StatsFacts.srednia_empty.
Qed.

Lemma empty_input_zero_division_witness :
  nth_error [[]] 0 = Some (@nil Z)
  /\ findArcPoint_examine 0%nat [[]] = (Raise ZeroDivisionError, [[]]).
Proof.
  split; [reflexivity|].
  exact (proj1 (proj2 (empty_input_zero_division [[]] 0%nat eq_refl))).
Defined.

(** C10: mediana sorts the list object it is given.  After the call the
    caller's reference holds the ascending arrangement of the sequence,
    every other object is untouched, a sequence that was not ascending has
    changed, and the statistics stage as a whole leaves the store in that
    state. *)
Theorem mediana_sorts_in_place (h : heap) (p : ref) (pts : list Z) :
  nth_error h p = Some pts ->
  let h' := snd (ExamineArc.mediana p h) in
  nth_error h' p = Some (ZSort.sort pts)
  /\ Sorted Z.le (ZSort.sort pts)
  /\ Permutation pts (ZSort.sort pts)
  /\ (forall q, q <> p -> nth_error h' q = nth_error h q)
  /\ (~ Sorted Z.le pts -> nth_error h' p <> Some pts)
  /\ (pts <> [] -> exact_length pts -> snd (findArcPoint_examine p h) = h').
Proof.
  intros Hp h'. unfold h'. rewrite (StatsFacts.mediana_run h p pts Hp). simpl.
  split; [eapply StoreFacts.update_lookup; eassumption|].
  split; [apply SortFacts.sort_ascending|].
  split; [apply ZSort.Permuted_sort|].
  split; [intros q Hq; now apply StoreFacts.update_other|].
  split.
  - intros Hns Heq.
    rewrite (StoreFacts.update_lookup h p pts _ Hp) in Heq.
    injection Heq as Heq. apply Hns. now apply SortFacts.sorted_fixpoint.
  - intros Hne Hlen. now rewrite (StatsFacts.examine_run h p pts Hp Hne Hlen).
Qed.

Lemma mediana_sorts_in_place_witness :
  let pts := [130; 128; 131; 129] in
  nth_error [[7]; pts] 1 = Some pts
  /\ snd (ExamineArc.mediana 1%nat [[7]; pts]) = [[7]; [128; 129; 130; 131]]
  /\ nth_error (snd (ExamineArc.mediana 1%nat [[7]; pts])) 1 = Some (ZSort.sort pts).
Proof.
  intros pts.
  split; [reflexivity|]. split; [reflexivity|].
  exact (proj1 (mediana_sorts_in_place [[7]; pts] 1%nat pts eq_refl)).
Defined.

(** * Arrays: shape and samples of the OpenCV operations *)

Module ImgFacts.

Lemma nth_map_seq {A} (g : nat -> A) (n i : nat) (d : A) :
  (i < n)%nat -> nth i (map g (seq 0 n)) d = g i.
Proof.
  intros Hi.
  rewrite (nth_indep _ d (g 0%nat)) by (now rewrite length_map, length_seq).
  rewrite map_nth, seq_nth by assumption. reflexivity.
Qed.

Lemma shape_rows (m : image) (nr nc : nat) : has_shape m nr nc -> rows m = nr.
Proof. now intros [H _]. Qed.

Lemma shape_cols (m : image) (nr nc : nat) :
  has_shape m nr nc -> (0 < nr)%nat -> cols m = nc.
Proof.
  intros [Hl Hf] Hn. unfold cols. destruct m as [|row m]; simpl in *; [lia|].
  now inversion Hf.
Qed.

Lemma shape_row (m : image) (nr nc r : nat) :
  has_shape m nr nc -> (r < nr)%nat -> length (nth r m []) = nc.
Proof.
  intros [Hl Hf] Hr. rewrite Forall_forall in Hf. apply Hf, nth_In. lia.
Qed.

Lemma tabulate_shape (nr nc : nat) (f : nat -> nat -> Z) :
  has_shape (tabulate nr nc f) nr nc.
Proof.
  unfold tabulate; split.
  - now rewrite length_map, length_seq.
  - apply Forall_forall. intros row Hin. apply in_map_iff in Hin.
    destruct Hin as (r & <- & _). now rewrite length_map, length_seq.
Qed.

Lemma px_tabulate (nr nc : nat) (f : nat -> nat -> Z) (r c : nat) :
  (r < nr)%nat -> (c < nc)%nat -> px (tabulate nr nc f) r c = f r c.
Proof.
  intros Hr Hc. unfold px, tabulate.
  rewrite (nth_map_seq (fun r => map (fun c => f r c) (seq 0 nc))) by assumption.
  now rewrite (nth_map_seq (fun c => f r c)).
Qed.

(** Two arrays of one shape with the same samples are the same array. *)
Lemma image_ext (m m' : image) (nr nc : nat) :
  has_shape m nr nc -> has_shape m' nr nc ->
  (forall r c, (r < nr)%nat -> (c < nc)%nat -> px m r c = px m' r c) ->
  m = m'.
Proof.
  intros Hm Hm' Hpx.
  apply (nth_ext m m' [] []).
  - destruct Hm, Hm'. congruence.
  - intros r Hr.
    assert (Hr' : (r < nr)%nat) by (destruct Hm; lia).
    apply (nth_ext _ _ 0 0).
    + now rewrite (shape_row m nr nc r Hm Hr'), (shape_row m' nr nc r Hm' Hr').
    + intros c Hc. rewrite (shape_row m nr nc r Hm Hr') in Hc.
      now apply Hpx.
Qed.

Lemma flip1_shape (m : image) (nr nc : nat) :
  has_shape m nr nc -> has_shape (flip1 m) nr nc.
Proof.
  intros [Hl Hf]. unfold flip1; split.
  - now rewrite length_map.
  - apply Forall_forall. intros row Hin. apply in_map_iff in Hin.
    destruct Hin as (row' & <- & Hin'). rewrite length_rev.
    rewrite Forall_forall in Hf. now apply Hf.
Qed.

Lemma px_flip1 (m : image) (nr nc r c : nat) :
  has_shape m nr nc -> (r < nr)%nat -> (c < nc)%nat ->
  px (flip1 m) r c = px m r (nc - 1 - c).
Proof.
  intros Hm Hr Hc. unfold px, flip1.
  rewrite (nth_indep _ [] (rev [])) by (rewrite length_map; destruct Hm; lia).
  rewrite map_nth.
  pose proof (shape_row m nr nc r Hm Hr) as Hlen.
  rewrite rev_nth by lia. rewrite Hlen. f_equal. lia.
Qed.

Lemma rotate_cw_shape (m : image) (nr nc : nat) :
  has_shape m nr nc -> (0 < nr)%nat -> has_shape (rotate_cw m) nc nr.
Proof.
  intros Hm Hn. unfold rotate_cw.
  rewrite (shape_rows m nr nc Hm), (shape_cols m nr nc Hm Hn).
  apply tabulate_shape.
Qed.

Lemma px_rotate_cw (m : image) (nr nc i j : nat) :
  has_shape m nr nc -> (0 < nr)%nat -> (i < nc)%nat -> (j < nr)%nat ->
  px (rotate_cw m) i j = px m (nr - 1 - j) i.
Proof.
  intros Hm Hn Hi Hj. unfold rotate_cw.
  rewrite (shape_rows m nr nc Hm), (shape_cols m nr nc Hm Hn).
  now rewrite px_tabulate.
Qed.

Lemma rotate_ccw_shape (m : image) (nr nc : nat) :
  has_shape m nr nc -> (0 < nr)%nat -> has_shape (rotate_ccw m) nc nr.
Proof.
  intros Hm Hn. unfold rotate_ccw.
  rewrite (shape_rows m nr nc Hm), (shape_cols m nr nc Hm Hn).
  apply tabulate_shape.
Qed.

Lemma px_rotate_ccw (m : image) (nr nc i j : nat) :
  has_shape m nr nc -> (0 < nr)%nat -> (i < nc)%nat -> (j < nr)%nat ->
  px (rotate_ccw m) i j = px m j (nc - 1 - i).
Proof.
  intros Hm Hn Hi Hj. unfold rotate_ccw.
  rewrite (shape_rows m nr nc Hm), (shape_cols m nr nc Hm Hn).
  now rewrite px_tabulate.
Qed.

(** *** Writing one sample *)

Lemma replace_nth_length {A} (n : nat) (a : A) (l : list A) :
  length (replace_nth n a l) = length l.
Proof.
  unfold replace_nth.
  rewrite <- (firstn_skipn n l) at 3. rewrite !length_app.
  f_equal. destruct (skipn n l); reflexivity.
Qed.

Lemma nth_replace_nth {A} (n i : nat) (a d : A) (l : list A) :
  (n < length l)%nat ->
  nth i (replace_nth n a l) d = if Nat.eqb i n then a else nth i l d.
Proof.
  revert n i; induction l as [|x l IH]; intros n i Hn; simpl in Hn; [lia|].
  destruct n as [|n]; destruct i as [|i]; try reflexivity.
  unfold replace_nth in *. simpl. apply IH. lia.
Qed.

Lemma replace_nth_outside {A} (n : nat) (a : A) (l : list A) :
  (length l <= n)%nat -> replace_nth n a l = l.
Proof.
  intros Hn. unfold replace_nth.
  rewrite skipn_all2, firstn_all2, app_nil_r by lia. reflexivity.
Qed.

Lemma set_px_shape (m : image) (nr nc r c : nat) (v : Z) :
  has_shape m nr nc -> has_shape (set_px m r c v) nr nc.
Proof.
  intros Hm. pose proof Hm as [Hl Hf]. unfold set_px.
  destruct (Nat.lt_ge_cases r nr) as [Hr|Hr].
  - split; [now rewrite replace_nth_length|].
    apply Forall_forall. intros row Hin.
    destruct (In_nth _ _ [] Hin) as (i & Hi & <-).
    rewrite replace_nth_length in Hi.
    rewrite nth_replace_nth by lia.
    destruct (Nat.eqb i r).
    + rewrite replace_nth_length. apply (shape_row m nr nc r Hm Hr).
    + apply (shape_row m nr nc i Hm). lia.
  - rewrite replace_nth_outside by lia. exact Hm.
Qed.

Lemma px_set_px (m : image) (nr nc r c r' c' : nat) (v : Z) :
  has_shape m nr nc -> (r < nr)%nat -> (c < nc)%nat ->
  px (set_px m r c v) r' c'
  = if Nat.eqb r' r && Nat.eqb c' c then v else px m r' c'.
Proof.
  intros Hm Hr Hc. pose proof Hm as [Hl Hf]. unfold px, set_px.
  rewrite nth_replace_nth by lia.
  destruct (Nat.eqb r' r) eqn:Er; simpl; [|reflexivity].
  apply Nat.eqb_eq in Er. subst r'.
  rewrite nth_replace_nth by (rewrite (shape_row m nr nc r Hm Hr); lia).
  reflexivity.
Qed.

(** *** The nonzero positions of a row *)

Lemma flatnonzero_from (k : nat) (row : list Z) (i : nat) (rest : list nat) :
  map fst (filter (fun p => negb (snd p =? 0)) (combine (seq k (length row)) row))
  = i :: rest ->
  (k <= i < k + length row)%nat /\ nth (i - k) row 0 <> 0
  /\ forall j, (j < i - k)%nat -> nth j row 0 = 0.
Proof.
  revert k; induction row as [|x row IH]; intros k H; simpl in H; [discriminate|].
  destruct (x =? 0) eqn:Ex; simpl in H.
  - apply Z.eqb_eq in Ex. subst x.
    destruct (IH (S k) H) as (Hb & Hnz & Hz). simpl.
    replace (i - k)%nat with (S (i - S k)) by lia.
    split; [lia|]. split; [exact Hnz|].
    intros [|j] Hj; [reflexivity|]. apply Hz. lia.
  - apply Z.eqb_neq in Ex. injection H as <- _.
    rewrite Nat.sub_diag. simpl. split; [lia|]. split; [exact Ex|].
    intros j Hj; lia.
Qed.

(** The head of [np.flatnonzero(row)] is the first nonzero sample. *)
Lemma flatnonzero_head (row : list Z) (i : nat) (rest : list nat) :
  flatnonzero row = i :: rest ->
  (i < length row)%nat /\ nth i row 0 <> 0
  /\ forall j, (j < i)%nat -> nth j row 0 = 0.
Proof.
  intros H. destruct (flatnonzero_from 0 row i rest H) as (Hb & Hnz & Hz).
  rewrite Nat.sub_0_r in *. repeat split; [lia | assumption | assumption].
Qed.

Lemma flatnonzero_zero_row (row : list Z) :
  Forall (fun v => v = 0) row -> flatnonzero row = [].
Proof.
  unfold flatnonzero. generalize 0%nat.
  induction row as [|x row IH]; intros k H; [reflexivity|].
  inversion H; subst. simpl. apply IH. assumption.
Qed.

Lemma flatnonzero_in_from (k : nat) (row : list Z) (i : nat) :
  In i (map fst (filter (fun p => negb (snd p =? 0))
                        (combine (seq k (length row)) row)))
  <-> (k <= i < k + length row)%nat /\ nth (i - k) row 0 <> 0.
Proof.
  revert k; induction row as [|x row IH]; intros k; simpl.
  - split; [intros [] | intros [H _]; lia].
  - destruct (x =? 0) eqn:Ex; simpl.
    + apply Z.eqb_eq in Ex. subst x. rewrite IH. split.
      * intros [Hb Hnz]. split; [lia|].
        now replace (i - k)%nat with (S (i - S k)) by lia.
      * intros [Hb Hnz]. destruct (i - k)%nat as [|d] eqn:Ed; [now contradiction Hnz|].
        split; [lia|]. now replace (i - S k)%nat with d by lia.
    + apply Z.eqb_neq in Ex. rewrite IH. split.
      * intros [<-|[Hb Hnz]].
        -- rewrite Nat.sub_diag. split; [lia | exact Ex].
        -- split; [lia|]. now replace (i - k)%nat with (S (i - S k)) by lia.
      * intros [Hb Hnz]. destruct (i - k)%nat as [|d] eqn:Ed.
        -- left. lia.
        -- right. split; [lia|]. now replace (i - S k)%nat with d by lia.
Qed.

(** The positions [np.flatnonzero(row)] lists are those of the nonzero samples. *)
Lemma flatnonzero_in (row : list Z) (i : nat) :
  In i (flatnonzero row) <-> (i < length row)%nat /\ nth i row 0 <> 0.
Proof.
  unfold flatnonzero. rewrite flatnonzero_in_from, Nat.sub_0_r. intuition lia.
Qed.

End ImgFacts.

(** * Edge extraction: the search along a direction *)

Module ScanFacts.

Import ImgFacts.

Lemma valid_direction_cases (d : direction) :
  valid_direction d = true ->
  d = (1, 0) \/ d = (-1, 0) \/ d = (0, 1) \/ d = (0, -1).
Proof.
  destruct d as [dx dy]. unfold valid_direction.
  destruct dx as [|[p|p|]|[p|p|]]; destruct dy as [|[q|q|]|[q|q|]];
    try discriminate; auto.
Qed.

Lemma flip1_involutive (m : image) : flip1 (flip1 m) = m.
Proof.
  unfold flip1. rewrite map_map. rewrite <- (map_id m) at 2.
  apply map_ext. intros row. apply rev_involutive.
Qed.

Lemma rotate_ccw_cw (m : image) (nr nc : nat) :
  has_shape m nr nc -> (0 < nr)%nat -> (0 < nc)%nat ->
  rotate_ccw (rotate_cw m) = m.
Proof.
  intros Hm Hr Hc.
  pose proof (rotate_cw_shape m nr nc Hm Hr) as Hcw.
  apply (image_ext _ _ nr nc); [now apply rotate_ccw_shape | assumption |].
  intros r c Hr' Hc'.
  rewrite (px_rotate_ccw _ nc nr) by assumption.
  rewrite (px_rotate_cw _ nr nc) by (assumption || lia).
  f_equal; lia.
Qed.

(** The drawing after the rows below [k] were searched. *)
Lemma first_in_rows_prefix (m : image) (nr nc k : nat) :
  has_shape m nr nc -> (k <= nr)%nat ->
  let drawing :=
    fold_left
      (fun drawing r =>
         let non_zero_values := flatnonzero (nth r m []) in
         if existsb (fun i => negb (Nat.eqb i 0)) non_zero_values
         then set_px drawing r (hd 0%nat non_zero_values) 255
         else drawing)
      (seq 0 k) (zeros nr nc) in
  has_shape drawing nr nc
  /\ forall r c, (r < nr)%nat -> (c < nc)%nat ->
       px drawing r c
       = if (r <? k)%nat
         then match first_edge (nth r m []) with
              | Some c' => if Nat.eqb c c' then 255 else 0
              | None => 0
              end
         else 0.
Proof.
  intros Hm. induction k as [|k IH]; intros Hk.
  - simpl. split; [apply tabulate_shape|].
    intros r c Hr Hc. unfold zeros. now rewrite px_tabulate.
  - rewrite seq_S, fold_left_app. simpl.
    destruct (IH ltac:(lia)) as [Hs Hpx]. clear IH.
    set (D := fold_left _ (seq 0 k) (zeros nr nc)) in *.
    assert (Hfe : forall r c, (r < nr)%nat -> (c < nc)%nat -> r <> k ->
                  (if (r <? S k)%nat
                   then match first_edge (nth r m []) with
                        | Some c' => if Nat.eqb c c' then 255 else 0
                        | None => 0
                        end
                   else 0) = px D r c).
    { intros r c Hr Hc Hne. rewrite Hpx by assumption.
      destruct (Nat.ltb_spec r (S k)); destruct (Nat.ltb_spec r k);
        try reflexivity; lia. }
    unfold first_edge in *.
    destruct (existsb _ (flatnonzero (nth k m []))) eqn:Ex.
    + destruct (flatnonzero (nth k m [])) as [|i rest] eqn:Enz; [discriminate|].
      destruct (flatnonzero_head _ _ _ Enz) as (Hi & _).
      rewrite (shape_row m nr nc k Hm ltac:(lia)) in Hi. simpl hd.
      split; [now apply set_px_shape|].
      intros r c Hr Hc.
      rewrite (px_set_px D nr nc) by (assumption || lia).
      destruct (Nat.eqb_spec r k) as [->|Hne].
      * rewrite Enz, Ex. simpl hd.
        replace (k <? S k)%nat with true by (symmetry; apply Nat.ltb_lt; lia).
        simpl. destruct (Nat.eqb c i); [reflexivity|].
        rewrite Hpx by assumption.
        now replace (k <? k)%nat with false by (symmetry; apply Nat.ltb_ge; lia).
      * simpl. symmetry. now apply Hfe.
    + split; [assumption|].
      intros r c Hr Hc.
      destruct (Nat.eqb_spec r k) as [->|Hne].
      * rewrite Ex.
        replace (k <? S k)%nat with true by (symmetry; apply Nat.ltb_lt; lia).
        rewrite Hpx by assumption.
        now replace (k <? k)%nat with false by (symmetry; apply Nat.ltb_ge; lia).
      * symmetry. now apply Hfe.
Qed.

Lemma first_in_rows_spec (m : image) (nr nc : nat) :
  has_shape m nr nc -> (0 < nr)%nat ->
  has_shape (first_in_rows m) nr nc
  /\ forall r c, (r < nr)%nat -> (c < nc)%nat ->
       px (first_in_rows m) r c
       = match first_edge (nth r m []) with
         | Some c' => if Nat.eqb c c' then 255 else 0
         | None => 0
         end.
Proof.
  intros Hm Hn.
  pose proof (first_in_rows_prefix m nr nc nr Hm (Nat.le_refl nr)) as H.
  cbv zeta in H. destruct H as [Hs Hpx].
  unfold first_in_rows. cbv zeta.
  rewrite (shape_rows m nr nc Hm), (shape_cols m nr nc Hm Hn).
  split; [exact Hs|].
  intros r c Hr Hc. rewrite (Hpx r c Hr Hc).
  now replace (r <? nr)%nat with true by (symmetry; apply Nat.ltb_lt; lia).
Qed.

(** A recorded sample marks the first edge sample of its row. *)
Lemma scan_recorded (m : image) (nr nc r c : nat) :
  has_shape m nr nc -> (r < nr)%nat -> (c < nc)%nat ->
  px (first_in_rows m) r c <> 0 ->
  px (first_in_rows m) r c = 255 /\ px m r c <> 0
  /\ forall c', (c' < c)%nat -> px m r c' = 0.
Proof.
  intros Hm Hr Hc.
  destruct (first_in_rows_spec m nr nc Hm ltac:(lia)) as [_ Hpx].
  rewrite (Hpx r c Hr Hc). unfold first_edge.
  destruct (flatnonzero (nth r m [])) as [|i rest] eqn:Enz.
  - simpl. intros H; now contradiction H.
  - destruct (existsb _ (i :: rest)); [|intros H; now contradiction H].
    simpl hd. destruct (flatnonzero_head _ _ _ Enz) as (Hi & Hnz & Hz).
    destruct (Nat.eqb_spec c i) as [->|Hne]; intros H; [|now contradiction H].
    split; [reflexivity|]. split; [exact Hnz|exact Hz].
Qed.

End ScanFacts.

Module ZeroFacts.

Import ImgFacts.

Lemma zero_row (m : image) (r : nat) :
  all_zero m -> Forall (fun v => v = 0) (nth r m []).
Proof.
  intros Hz. destruct (nth_in_or_default r m []) as [Hin | ->]; [|constructor].
  unfold all_zero in Hz. rewrite Forall_forall in Hz. now apply Hz.
Qed.

Lemma px_all_zero (m : image) (r c : nat) : all_zero m -> px m r c = 0.
Proof.
  intros Hz. unfold px.
  pose proof (zero_row m r Hz) as Hrow.
  destruct (nth_in_or_default c (nth r m []) 0) as [Hin | ->]; [|reflexivity].
  rewrite Forall_forall in Hrow. now apply Hrow.
Qed.

Lemma tabulate_all_zero (nr nc : nat) (f : nat -> nat -> Z) :
  (forall r c, f r c = 0) -> all_zero (tabulate nr nc f).
Proof.
  intros Hf. unfold all_zero, tabulate.
  apply Forall_forall. intros row Hin. apply in_map_iff in Hin.
  destruct Hin as (r & <- & _).
  apply Forall_forall. intros v Hv. apply in_map_iff in Hv.
  destruct Hv as (c & <- & _). apply Hf.
Qed.

Lemma flip1_all_zero (m : image) : all_zero m -> all_zero (flip1 m).
Proof.
  unfold all_zero, flip1. intros Hz.
  apply Forall_forall. intros row Hin. apply in_map_iff in Hin.
  destruct Hin as (row' & <- & Hin').
  rewrite Forall_forall in Hz. specialize (Hz row' Hin').
  apply Forall_forall. intros v Hv. apply in_rev in Hv.
  rewrite Forall_forall in Hz. now apply Hz.
Qed.

Lemma rotate_cw_all_zero (m : image) : all_zero m -> all_zero (rotate_cw m).
Proof.
  intros Hz. apply tabulate_all_zero. intros r c. now apply px_all_zero.
Qed.

Lemma rotate_ccw_all_zero (m : image) : all_zero m -> all_zero (rotate_ccw m).
Proof.
  intros Hz. apply tabulate_all_zero. intros r c. now apply px_all_zero.
Qed.

Lemma rotate_to_search_all_zero (d : direction) (m : image) :
  all_zero m -> all_zero (rotate_to_search d m).
Proof.
  intros Hz. unfold rotate_to_search.
  destruct (fst d =? -1), (negb (snd d =? 0)), (snd d =? -1);
    auto using flip1_all_zero, rotate_cw_all_zero.
Qed.

Lemma rotate_back_all_zero (d : direction) (m : image) :
  all_zero m -> all_zero (rotate_back d m).
Proof.
  intros Hz. unfold rotate_back.
  destruct (fst d =? -1), (negb (snd d =? 0)), (snd d =? -1);
    auto using flip1_all_zero, rotate_ccw_all_zero.
Qed.

(** Nothing is recorded in a map without edge samples. *)
Lemma first_in_rows_all_zero (m : image) :
  all_zero m -> first_in_rows m = zeros (rows m) (cols m).
Proof.
  intros Hz. unfold first_in_rows.
  generalize (zeros (rows m) (cols m)) as drawing.
  induction (seq 0 (rows m)) as [|r l IH]; intros drawing; [reflexivity|].
  simpl. rewrite (flatnonzero_zero_row _ (zero_row m r Hz)). simpl. apply IH.
Qed.

Lemma nonzero_points_all_zero (m : image) :
  all_zero m -> nonzero_points m = [].
Proof.
  unfold nonzero_points, all_zero. generalize 0%nat.
  induction m as [|row m IH]; intros k Hz; [reflexivity|].
  inversion Hz; subst. simpl.
  rewrite (flatnonzero_zero_row row) by assumption. simpl. now apply IH.
Qed.

Lemma findNonZero_all_zero (m : image) : all_zero m -> findNonZero m = None.
Proof.
  intros Hz. unfold findNonZero. now rewrite nonzero_points_all_zero.
Qed.

(** A set of points that [findNonZero] returns is never empty. *)
Lemma findNonZero_some (m : image) (pts : list (Z * Z)) :
  findNonZero m = Some pts -> pts <> [].
Proof.
  unfold findNonZero. destruct (nonzero_points m); [discriminate|].
  intros H; injection H as <-. discriminate.
Qed.

Lemma outer_line_points_all_zero (edges : image) (d : direction) :
  all_zero edges -> outer_line_points edges d = None.
Proof.
  intros Hz. unfold outer_line_points.
  apply findNonZero_all_zero, rotate_back_all_zero.
  rewrite first_in_rows_all_zero by now apply rotate_to_search_all_zero.
  apply tabulate_all_zero. reflexivity.
Qed.

End ZeroFacts.

(** ** The claims about the edge extractor *)

(** C7: for each of the four valid directions the rotation back undoes
    the rotation for the search: it restores every map of the region's
    shape, and a sample that the search records at the first nonzero
    position of a row of the rotated map appears in the result at the
    Region-local coordinates of that very edge sample. *)
Theorem rotate_back_undoes (d : direction) (roi : image) (nr nc : nat) :
  valid_direction d = true ->
  has_shape roi nr nc -> (0 < nr)%nat -> (0 < nc)%nat ->
  let searched := rotate_to_search d roi in
  let drawing := first_in_rows searched in
  let out := rotate_back d drawing in
  rotate_back d searched = roi
  /\ has_shape out nr nc
  /\ forall r c,
       (r < fst (search_shape d nr nc))%nat ->
       (c < snd (search_shape d nr nc))%nat ->
       let (y, x) := base_coords d nr nc r c in
       (y < nr)%nat /\ (x < nc)%nat
       /\ px searched r c = px roi y x
       /\ px out y x = px drawing r c
       /\ (px drawing r c <> 0 ->
           px drawing r c = 255 /\ px roi y x <> 0
           /\ forall c', (c' < c)%nat -> px searched r c' = 0).
Proof.
  intros Hd Hm Hr Hc.
  pose proof (ImgFacts.rotate_cw_shape roi nr nc Hm Hr) as Hcw.
  pose proof (ImgFacts.flip1_shape roi nr nc Hm) as Hfl.
  pose proof (ImgFacts.flip1_shape _ nc nr Hcw) as Hcwfl.
  destruct (ScanFacts.valid_direction_cases d Hd) as [-> | [-> | [-> | ->]]];
    cbn [rotate_to_search rotate_back search_shape base_coords fst snd
         Z.eqb Pos.eqb negb].
  - (* (1, 0): the map is searched as it is *)
    destruct (ScanFacts.first_in_rows_spec roi nr nc Hm Hr) as [Hs _].
    split; [reflexivity|]. split; [exact Hs|].
    intros r c Hr' Hc'.
    repeat split; try assumption;
      destruct (ScanFacts.scan_recorded roi nr nc r c Hm Hr' Hc' H)
        as (H1 & H2 & H3); assumption.
  - (* (-1, 0): mirrored *)
    destruct (ScanFacts.first_in_rows_spec _ nr nc Hfl Hr) as [Hs _].
    split; [apply ScanFacts.flip1_involutive|].
    split; [now apply ImgFacts.flip1_shape|].
    intros r c Hr' Hc'.
    assert (Hpx : px (flip1 roi) r c = px roi r (nc - 1 - c))
      by (now apply (ImgFacts.px_flip1 roi nr nc)).
    split; [assumption|]. split; [lia|]. split; [exact Hpx|].
    split.
    + rewrite (ImgFacts.px_flip1 _ nr nc) by (assumption || lia).
      f_equal; lia.
    + intros H.
      destruct (ScanFacts.scan_recorded _ nr nc r c Hfl Hr' Hc' H) as (H1 & H2 & H3).
      rewrite <- Hpx. auto.
  - (* (0, 1): a quarter turn clockwise *)
    destruct (ScanFacts.first_in_rows_spec _ nc nr Hcw Hc) as [Hs _].
    split; [now apply (ScanFacts.rotate_ccw_cw roi nr nc)|].
    split; [now apply ImgFacts.rotate_ccw_shape|].
    intros r c Hr' Hc'.
    assert (Hpx : px (rotate_cw roi) r c = px roi (nr - 1 - c) r)
      by (now apply (ImgFacts.px_rotate_cw roi nr nc)).
    split; [lia|]. split; [assumption|]. split; [exact Hpx|].
    split.
    + rewrite (ImgFacts.px_rotate_ccw _ nc nr) by (assumption || lia).
      f_equal; lia.
    + intros H.
      destruct (ScanFacts.scan_recorded _ nc nr r c Hcw Hr' Hc' H) as (H1 & H2 & H3).
      rewrite <- Hpx. auto.
  - (* (0, -1): a quarter turn clockwise, then mirrored *)
    destruct (ScanFacts.first_in_rows_spec _ nc nr Hcwfl Hc) as [Hs _].
    split.
    { rewrite ScanFacts.flip1_involutive.
      now apply (ScanFacts.rotate_ccw_cw roi nr nc). }
    split.
    { apply ImgFacts.rotate_ccw_shape; [|assumption].
      now apply ImgFacts.flip1_shape. }
    intros r c Hr' Hc'.
    assert (Hpx : px (flip1 (rotate_cw roi)) r c = px roi c r).
    { rewrite (ImgFacts.px_flip1 _ nc nr) by assumption.
      rewrite (ImgFacts.px_rotate_cw roi nr nc) by (assumption || lia).
      f_equal; lia. }
    split; [assumption|]. split; [assumption|]. split; [exact Hpx|].
    split.
    + rewrite (ImgFacts.px_rotate_ccw _ nc nr)
        by (assumption || now apply ImgFacts.flip1_shape).
      rewrite (ImgFacts.px_flip1 _ nc nr) by (assumption || lia).
      f_equal; lia.
    + intros H.
      destruct (ScanFacts.scan_recorded _ nc nr r c Hcwfl Hr' Hc' H) as (H1 & H2 & H3).
      rewrite <- Hpx. auto.
Qed.

Lemma rotate_back_undoes_witness :
  let roi := [[0; 0; 5; 0]; [0; 3; 0; 4]; [7; 0; 0; 0]] in
  valid_direction (0, -1) = true /\ has_shape roi 3 4
  /\ rotate_back (0, -1) (rotate_to_search (0, -1) roi) = roi.
Proof.
  intros roi.
  assert (Hs : has_shape roi 3 4) by (split; [reflexivity | repeat constructor]).
  split; [reflexivity|]. split; [exact Hs|].
  exact (proj1 (rotate_back_undoes (0, -1) roi 3 4 eq_refl Hs
                  (Nat.lt_0_succ 2) (Nat.lt_0_succ 3))).
Defined.

(** C6, as the specification states it, fails: a map without edge samples
    yields Python's None, not an empty set of points. *)
Lemma no_edges_give_none_not_empty : ~ no_edges_give_empty_set.
Proof.
  intros H.
  assert (Hz : all_zero [[0; 0]; [0; 0]]) by (repeat constructor).
  specialize (H [[0; 0]; [0; 0]] (1, 0) Hz).
  vm_compute in H. discriminate.
Qed.

(** C6, amended: when the region holds no edge sample in any row,
    findLinesPoints returns None, the value findNonZero gives for a map
    without nonzero samples, and searchingBox, which tests for None,
    returns its failure value (-1, -1, -1, -1) without fitting a line. *)
Theorem no_edges_return_none
        (cv_filter2D : image -> list (list Z) -> image)
        (cv_morph_open cv_Canny : image -> image)
        (cv_fitLine : list (Z * Z) -> line)
        (image : image) (p0 p1 p2 p3 : Z) (d : direction) (roi : Img.image) :
  linesFiltration cv_filter2D
    (threshold_tozero 150 (crop image p1 (p1 + p3) p0 (p0 + p2))) d = Ok roi ->
  all_zero (cv_Canny (cv_morph_open roi)) ->
  findLinesPoints cv_morph_open cv_Canny roi d = None
  /\ searchingBox cv_filter2D cv_morph_open cv_Canny cv_fitLine
                  image (p0, p1, p2, p3) d = Ok no_line.
Proof.
  intros Hf Hz.
  assert (Hn : findLinesPoints cv_morph_open cv_Canny roi d = None)
    by (unfold findLinesPoints; now apply ZeroFacts.outer_line_points_all_zero).
  split; [exact Hn|].
  unfold searchingBox. rewrite Hf. simpl. now rewrite Hn.
Qed.

Lemma no_edges_return_none_witness :
  let keep := fun (roi : image) (_ : list (list Z)) => roi in
  let same := fun roi : image => roi in
  let fit := fun _ : list (Z * Z) => (1, 0, 0, 0)%float in
  let frame := [[0; 0; 0]; [0; 0; 0]; [0; 0; 0]] in
  searchingBox keep same same fit frame (0, 0, 3, 3) (1, 0) = Ok no_line.
Proof.
  intros keep same fit frame.
  refine (proj2 (no_edges_return_none keep same same fit frame 0 0 3 3 (1, 0)
                   frame eq_refl _)).
  repeat constructor.
Defined.

(** X2: the search records, in each row, the first nonzero sample, but
    only in a row that has a nonzero sample outside column 0: `any` is
    applied to the positions, and the position 0 counts as false.  A row
    whose only edge sample sits in column 0 records nothing. *)
Theorem first_in_rows_records (m : image) (nr nc r c : nat) :
  has_shape m nr nc -> (r < nr)%nat -> (c < nc)%nat ->
  (px (first_in_rows m) r c = 255 \/ px (first_in_rows m) r c = 0)
  /\ (px (first_in_rows m) r c = 255 <->
      px m r c <> 0
      /\ (forall c', (c' < c)%nat -> px m r c' = 0)
      /\ exists c'', (0 < c'')%nat /\ (c'' < nc)%nat /\ px m r c'' <> 0).
Proof.
  intros Hm Hr Hc.
  destruct (ScanFacts.first_in_rows_spec m nr nc Hm ltac:(lia)) as [_ Hpx].
  rewrite (Hpx r c Hr Hc). clear Hpx.
  pose proof (ImgFacts.shape_row m nr nc r Hm Hr) as Hlen.
  unfold first_edge, px.
  destruct (flatnonzero (nth r m [])) as [|i rest] eqn:Enz.
  - simpl. split; [now right|]. split; [discriminate|].
    intros (_ & _ & c'' & H0 & Hlt & Hnz).
    assert (Hin : In c'' (flatnonzero (nth r m [])))
      by (apply ImgFacts.flatnonzero_in; split; [lia | exact Hnz]).
    rewrite Enz in Hin. destruct Hin.
  - destruct (ImgFacts.flatnonzero_head _ _ _ Enz) as (Hi & Hnz & Hz).
    destruct (existsb (fun i => negb (Nat.eqb i 0)) (i :: rest)) eqn:Ex.
    + simpl hd. destruct (Nat.eqb_spec c i) as [->|Hne].
      * split; [now left|]. split; [|reflexivity].
        intros _. split; [exact Hnz|]. split; [exact Hz|].
        apply existsb_exists in Ex. destruct Ex as (j & Hj & Hj0).
        rewrite <- Enz in Hj. apply ImgFacts.flatnonzero_in in Hj.
        exists j. destruct (Nat.eqb_spec j 0); [discriminate|].
        repeat split; [lia | lia | tauto].
      * split; [now right|]. split; [discriminate|].
        intros (Hc0 & Hfirst & _). exfalso.
        destruct (Nat.lt_trichotomy c i) as [Hlt|[Heq|Hgt]]; [|contradiction|].
        -- apply Hc0, Hz, Hlt.
        -- apply Hnz, Hfirst, Hgt.
    + split; [now right|]. split; [discriminate|].
      intros (_ & _ & c'' & H0 & Hlt & Hnz'). exfalso.
      assert (Hin : In c'' (i :: rest)).
      { rewrite <- Enz. apply ImgFacts.flatnonzero_in. split; [lia | exact Hnz']. }
      assert (Ht : existsb (fun i => negb (Nat.eqb i 0)) (i :: rest) = true).
      { apply existsb_exists. exists c''. split; [exact Hin|].
        destruct (Nat.eqb_spec c'' 0); [lia | reflexivity]. }
      congruence.
Qed.

Lemma first_in_rows_records_witness :
  let m := [[0; 0; 5; 0]; [0; 3; 0; 4]; [7; 0; 0; 0]] in
  has_shape m 3 4
  /\ first_in_rows m = [[0; 0; 255; 0]; [0; 255; 0; 0]; [0; 0; 0; 0]]
  /\ (px (first_in_rows m) 2 0 = 255 \/ px (first_in_rows m) 2 0 = 0).
Proof.
  intros m.
  assert (Hs : has_shape m 3 4) by (split; [reflexivity | repeat constructor]).
  split; [exact Hs|]. split; [reflexivity|].
  exact (proj1 (first_in_rows_records m 3 4 2 0 Hs (Nat.lt_succ_diag_r 2)
                  (Nat.lt_0_succ 3))).
Defined.

(** * The arc centre *)

Module ArcFacts.

Import FloatFacts FloatOrder.

Lemma centre_distance_ok (img_shape : Z * Z) (c : float * float) :
  exists d, centre_distance img_shape c = Ok d.
Proof.
  destruct img_shape as [img_cy img_cx]. unfold centre_distance, math_sqrt.
  rewrite nonneg_not_ltb_zero; [eauto|].
  apply nonneg_add; apply nonneg_sqr.
Qed.

Lemma slice_last_two {A} (w x y z : A) :
  slice [w; x; y; z] 2 (Z.of_nat (length [w; x; y; z])) = [y; z].
Proof. reflexivity. Qed.

Lemma chosen_step (img_shape : Z * Z) (P : list (float * float))
      (c : float * float) (m d : float) (pa : option nat) :
  chosen img_shape P m pa -> centre_distance img_shape c = Ok d ->
  chosen img_shape (P ++ [c])
         (if PrimFloat.ltb d m then d else m)
         (if PrimFloat.ltb d m then Some (length P) else pa).
Proof.
  intros [Hpa Hmin] Hd. destruct (PrimFloat.ltb d m) eqn:Hlt; split.
  - exists c. split; [|split; [exact Hd|]].
    + rewrite nth_error_app2, Nat.sub_diag by lia. reflexivity.
    + destruct pa as [j|]; [|now subst m].
      destruct Hpa as (cj & _ & _ & Hb). now apply (ltb_trans d m).
  - intros c' d' Hin Hd'. apply in_app_or in Hin. destruct Hin as [Hin|[<-|[]]].
    + destruct (PrimFloat.ltb d' d) eqn:E; [|reflexivity].
      pose proof (ltb_trans d' d m E Hlt) as Ht.
      rewrite (Hmin c' d' Hin Hd') in Ht. discriminate.
    + assert (d' = d) by congruence. subst d'. apply ltb_irrefl.
  - destruct pa as [j|]; [|exact Hpa].
    destruct Hpa as (cj & Hn & Hc & Hb). exists cj. split; [|auto].
    rewrite nth_error_app1; [exact Hn|]. apply nth_error_Some. congruence.
  - intros c' d' Hin Hd'. apply in_app_or in Hin. destruct Hin as [Hin|[<-|[]]].
    + now apply (Hmin c' d').
    + assert (d' = d) by congruence. now subst d'.
Qed.

Lemma choose_arc_chosen (img_shape : Z * Z) (rest P : list (float * float))
      (m : float) (pa : option nat) :
  chosen img_shape P m pa ->
  exists m' pa', choose_arc img_shape rest (length P) m pa = Ok (m', pa')
                 /\ chosen img_shape (P ++ rest) m' pa'.
Proof.
  revert P m pa; induction rest as [|c rest IH]; intros P m pa Hinv.
  - exists m, pa. rewrite app_nil_r. now split.
  - destruct (centre_distance_ok img_shape c) as [d Hd].
    pose proof (chosen_step img_shape P c m d pa Hinv Hd) as Hst.
    simpl. rewrite Hd. simpl.
    replace (S (length P)) with (length (P ++ [c]))
      by (rewrite length_app; simpl; lia).
    replace (P ++ c :: rest) with ((P ++ [c]) ++ rest)
      by (now rewrite <- app_assoc).
    destruct (PrimFloat.ltb d m); apply IH; exact Hst.
Qed.

Lemma getitem_nth_error {A} (l : list A) (j : nat) (a : A) :
  nth_error l j = Some a -> getitem l (Z.of_nat j) = Ok a.
Proof.
  intros H. assert (Hj : (j < length l)%nat) by (apply nth_error_Some; congruence).
  unfold getitem.
  replace (Z.of_nat j <? 0) with false by (symmetry; apply Z.ltb_ge; lia).
  replace (0 <=? Z.of_nat j) with true by (symmetry; apply Z.leb_le; lia).
  replace (Z.of_nat j <? Z.of_nat (length l)) with true
    by (symmetry; apply Z.ltb_lt; lia).
  cbn [andb]. now rewrite Nat2Z.id, H.
Qed.

End ArcFacts.

(** ** The claims about the arc centre solver *)

(** C2, as the specification states it, fails: no test precedes the
    inversion, so what happens to parallel lines is decided by the
    inversion routine alone. *)
Lemma parallel_lines_reach_inversion : ~ parallel_lines_detected_before_inversion.
Proof.
  intros H.
  destruct (H (fun _ => Raise LinAlgError)
              (fun _ => Ok [[1; 0; 0; 0]; [0; 1; 0; 0]; [0; 0; 1; 0]; [0; 0; 0; 1]]%float)
              (1, 0, 0, 0)%float (1, 0, 0, 1)%float eq_refl)
    as (e & H1 & H2).
  vm_compute in H2. discriminate.
Qed.

(** C2, amended: findArcPoint hands the coefficient matrix to
    np.linalg.inv without any determinant or condition test.  When the
    inversion raises (LinAlgError for a singular matrix), that exception
    leaves lines_crossing, the arc centre computation and findArcPoint
    itself uncaught; when the inversion returns a 4x4 matrix, a crossing
    point is computed from it, parallel directions or not. *)
Theorem crossing_fails_as_inversion_fails
        (cv_filter2D : image -> list (list Z) -> image)
        (cv_morph_open cv_Canny : image -> image)
        (np_linalg_inv : matrix -> result matrix)
        (ndimage_rotate : image -> Z -> image)
        (math_sin math_cos : float -> float)
        (image : image) (img_shape : Z * Z) (line1 line2 : line) (h : heap) :
  let A := fst (crossing_system line1 line2) in
  (forall e, np_linalg_inv A = Raise e ->
     lines_crossing np_linalg_inv line1 line2 = Raise e
     /\ arc_centre np_linalg_inv ndimage_rotate image img_shape line1 line2 = Raise e
     /\ findArcPoint cv_filter2D cv_morph_open cv_Canny np_linalg_inv ndimage_rotate
                     math_sin math_cos image img_shape line1 line2 h
        = (Raise e, h))
  /\ (forall Ainv, np_linalg_inv A = Ok Ainv -> length Ainv = 4%nat ->
        exists xs ys, lines_crossing np_linalg_inv line1 line2 = Ok (xs, ys)).
Proof.
  destruct line1 as [[[vx1 vy1] x1] y1], line2 as [[[vx2 vy2] x2] y2].
  intros A; split.
  - intros e He.
    assert (Hc : lines_crossing np_linalg_inv (vx1, vy1, x1, y1) (vx2, vy2, x2, y2)
                 = Raise e).
    { unfold lines_crossing. cbn [crossing_system].
      unfold A in He. cbn [crossing_system fst] in He. now rewrite He. }
    split; [exact Hc|].
    assert (Ha : arc_centre np_linalg_inv ndimage_rotate image img_shape
                            (vx1, vy1, x1, y1) (vx2, vy2, x2, y2) = Raise e).
    { unfold arc_centre. now rewrite Hc. }
    split; [exact Ha|].
    unfold findArcPoint, mbind, lift. now rewrite Ha.
  - intros Ainv Hinv Hlen.
    unfold lines_crossing. cbn [crossing_system].
    unfold A in Hinv. cbn [crossing_system fst] in Hinv. rewrite Hinv.
    cbn [bind].
    destruct Ainv as [|a [|b [|c [|d [|]]]]]; try discriminate.
    unfold dot. cbn [map]. rewrite ArcFacts.slice_last_two. eauto.
Qed.

(** Parallel lines under an inversion that raises, and under one that does not. *)
Example crossing_of_parallel_lines :
  let line1 := (1, 0, 0, 0)%float in
  let line2 := (1, 0, 0, 1)%float in
  PrimFloat.eqb (direction_cross line1 line2) 0 = true
  /\ lines_crossing (fun _ => Raise LinAlgError) line1 line2 = Raise LinAlgError
  /\ is_ok (lines_crossing (fun A => Ok A) line1 line2) = true.
Proof. repeat split. Qed.

(** Lines that are parallel up to 2^-60 have an invertible matrix: with
    its exact inverse (checked column by column) the solver returns a
    crossing point 2^60 pixels away and reports nothing. *)
Example nearly_parallel_lines_cross :
  let line1 := (1, 0, 0, 0)%float in
  let line2 := (1, 0x1p-60, 0, 1)%float in
  let A_inverse :=
    [[1; -0x1p+60; -1; 0x1p+60]; [0; -0x1p+60; 0; 0x1p+60];
     [0; -0x1p+60; -1; 0x1p+60]; [0; -1; 0; 0]]%float in
  direction_cross line1 line2 = 0x1p-60%float
  /\ map (dot (fst (crossing_system line1 line2)))
         [[1; 0; 0; 0]; [-0x1p+60; -0x1p+60; -0x1p+60; -1];
          [-1; 0; -1; 0]; [0x1p+60; 0x1p+60; 0x1p+60; 0]]%float
     = [[1; 0; 0; 0]; [0; 1; 0; 0]; [0; 0; 1; 0]; [0; 0; 0; 1]]%float
  /\ lines_crossing (fun _ => Ok A_inverse) line1 line2 = Ok (-0x1p+60, 0)%float.
Proof. repeat split. Qed.

(** C4, as the specification states it, fails: when the centre lies
    left of and above the crossing point no branch is taken. *)
Lemma fourth_quadrant_has_no_branch : ~ every_quadrant_has_a_branch.
Proof.
  intros H. destruct (H 0 0 1 1 eq_refl eq_refl)%float as [_ Hb].
  vm_compute in Hb. discriminate.
Qed.

(** C4, amended: the rotation angle is always one of 0, 90, 180 and 270.
    The quadrants xc > xs, yc < ys and xc > xs, yc > ys and xc < xs,
    yc > ys are given 90, 180 and 270 by a branch each; the quadrant
    xc < xs, yc < ys takes no branch and keeps the initial angle 0. *)
Theorem rotation_angle_cardinal (xc yc xs ys : float) :
  In (rotation_angle xc yc xs ys) [0; 90; 180; 270]
  /\ (PrimFloat.ltb xs xc = true -> PrimFloat.ltb yc ys = true ->
      branch_90 xc yc xs ys = true /\ rotation_angle xc yc xs ys = 90)
  /\ (PrimFloat.ltb xs xc = true -> PrimFloat.ltb ys yc = true ->
      branch_180 xc yc xs ys = true /\ rotation_angle xc yc xs ys = 180)
  /\ (PrimFloat.ltb xc xs = true -> PrimFloat.ltb ys yc = true ->
      branch_270 xc yc xs ys = true /\ rotation_angle xc yc xs ys = 270)
  /\ (PrimFloat.ltb xc xs = true -> PrimFloat.ltb yc ys = true ->
      branch_90 xc yc xs ys = false /\ branch_180 xc yc xs ys = false
      /\ branch_270 xc yc xs ys = false /\ rotation_angle xc yc xs ys = 0).
Proof.
  unfold rotation_angle, branch_90, branch_180, branch_270.
  split.
  { destruct (PrimFloat.ltb xs xc), (PrimFloat.ltb yc ys),
      (PrimFloat.ltb ys yc), (PrimFloat.ltb xc xs); simpl; auto 6. }
  repeat (split; [intros H1 H2|]); try intros H1 H2;
    rewrite ?H1, ?H2, ?(FloatOrder.ltb_asym _ _ H1), ?(FloatOrder.ltb_asym _ _ H2);
    repeat split.
Qed.

(** The four quadrants around the crossing point (10, 10). *)
Example rotation_angle_by_quadrant :
  rotation_angle 20 5 10 10 = 90 /\ rotation_angle 20 15 10 10 = 180
  /\ rotation_angle 5 15 10 10 = 270 /\ rotation_angle 5 5 10 10 = 0.
Proof. repeat split. Qed.

(** C5: the code misses the claim when the two fitted lines are nearly
    parallel.  In a frame of 2000 x 1500 pixels take the horizontal line
    through (1400, 725), inside the first search box, and the line
    through (475, 1225), inside the second one, that rises by 1 in 32.
    They cross at (-15517.1875, 725).  The matrix [A_inverse] is the
    exact inverse of the coefficient matrix, which the first conjunct
    checks column by column.  Every candidate centre is more than 15900
    pixels from the centre of the frame, beyond the 9999 that min_dist
    starts from: no candidate is selected and reading properArc raises
    UnboundLocalError. *)
Theorem far_crossing_selects_nothing :
  let line1 := (1, 0, 1400, 725)%float in
  let line2 := (0.99951171875, 0.03125, 475, 1225)%float in
  let A_inverse :=
    [[1; -31.984375; -1; 31.984375]; [0; -32; 0; 32];
     [0; -31.984375; -1; 31.984375]; [0; -1; 0; 0]]%float in
  let inv := fun _ : matrix => Ok A_inverse in
  map (dot (fst (crossing_system line1 line2)))
      [[1; 0; 0; 0]; [-31.984375; -32; -31.984375; -1];
       [-1; 0; -1; 0]; [31.984375; 32; 31.984375; 0]]%float
  = [[1; 0; 0; 0]; [0; 1; 0; 0]; [0; 0; 1; 0]; [0; 0; 0; 1]]%float
  /\ lines_crossing inv line1 line2 = Ok (-15517.1875, 725)%float
  /\ offset_vector line1 line2 = (1.99951171875, 0.03125)%float
  /\ (exists k C,
        offset_scale 1.99951171875 0.03125 = Ok k
        /\ C = arc_centres (-15517.1875) 725 1.99951171875 0.03125 k
        /\ Forall (fun c => exists d, centre_distance (1500, 2000) c = Ok d
                                      /\ PrimFloat.ltb 15900 d = true) C
        /\ proper_arc (1500, 2000) C = Raise UnboundLocalError)
  /\ arc_centre inv (fun roi _ => roi) [] (1500, 2000) line1 line2
     = Raise UnboundLocalError.
Proof.
  repeat split.
  eexists. eexists. split; [vm_compute; reflexivity|].
  split; [reflexivity|]. split.
  - vm_compute. repeat constructor; eexists; split; reflexivity.
  - vm_compute. reflexivity.
Qed.

(** X1: the loop over the candidates either binds properArc to a
    candidate that no candidate is closer to the centre of the frame
    than, or leaves it unbound, and then reading it raises
    UnboundLocalError, because no candidate lies less than 9999 pixels
    from the centre. *)
Theorem proper_arc_closest_or_unbound (img_shape : Z * Z) (C : list (float * float)) :
  (exists c, proper_arc img_shape C = Ok c /\ closest_to_centre img_shape C c)
  \/ (proper_arc img_shape C = Raise UnboundLocalError
      /\ forall c' d', In c' C -> centre_distance img_shape c' = Ok d' ->
                       PrimFloat.ltb d' 9999 = false).
Proof.
  assert (H0 : chosen img_shape [] 9999 None) by (split; [reflexivity | intros ? ? []]).
  destruct (ArcFacts.choose_arc_chosen img_shape C [] 9999 None H0) as (m & pa & Hrun & Hpa & Hmin).
  simpl in Hrun, Hpa, Hmin. unfold proper_arc. rewrite Hrun. simpl.
  destruct pa as [j|].
  - left. destruct Hpa as (cj & Hn & Hd & Hb). exists cj.
    split; [now apply ArcFacts.getitem_nth_error|].
    split; [eapply nth_error_In; eassumption|].
    exists m. split; [exact Hd | exact Hmin].
  - right. subst m. split; [reflexivity | exact Hmin].
Qed.


(** * The polar transform *)

Module PolarFacts.

Import ImgFacts.

Lemma index_bound (n : nat) (i : Z) (k : nat) : index n i = Ok k -> (k < n)%nat.
Proof.
  unfold index. destruct ((0 <=? _) && (_ <? _)) eqn:E; [|discriminate].
  intros H; injection H as <-.
  apply andb_true_iff in E. destruct E as [E1 E2].
  apply Z.leb_le in E1. apply Z.ltb_lt in E2. lia.
Qed.

Lemma index_nonneg (n : nat) (i : Z) (k : nat) :
  0 <= i -> index n i = Ok k -> k = Z.to_nat i.
Proof.
  intros Hi. unfold index.
  replace (i <? 0) with false by (symmetry; apply Z.ltb_ge; lia).
  destruct ((0 <=? i) && (i <? Z.of_nat n)); [|discriminate].
  now intros H; injection H as <-.
Qed.

Lemma index_in_range (n : nat) (i : Z) :
  0 <= i < Z.of_nat n -> index n i = Ok (Z.to_nat i).
Proof.
  intros Hi. unfold index.
  replace (i <? 0) with false by (symmetry; apply Z.ltb_ge; lia).
  replace (0 <=? i) with true by (symmetry; apply Z.leb_le; lia).
  now replace (i <? Z.of_nat n) with true by (symmetry; apply Z.ltb_lt; lia).
Qed.

Lemma bind_ok {A B} (r : result A) (k : A -> result B) (b : B) :
  bind r k = Ok b -> exists a, r = Ok a /\ k a = Ok b.
Proof. destruct r as [a|e]; simpl; [eauto | discriminate]. Qed.

Lemma itemset_ok (m m' : image) (i j v : Z) :
  itemset m i j v = Ok m' ->
  exists rn cn, index (rows m) i = Ok rn /\ index (cols m) j = Ok cn
                /\ m' = set_px m rn cn v.
Proof.
  unfold itemset. intros H.
  apply bind_ok in H. destruct H as (rn & Hr & H).
  apply bind_ok in H. destruct H as (cn & Hc & H).
  injection H as <-. eauto.
Qed.

Lemma item_ok (m : image) (nr nc : nat) (i j : Z) (rn cn : nat) :
  has_shape m nr nc -> (0 < nr)%nat ->
  index nr i = Ok rn -> index nc j = Ok cn -> item m i j = Ok (px m rn cn).
Proof.
  intros Hm Hn Hi Hj. unfold item.
  rewrite (shape_rows m nr nc Hm), (shape_cols m nr nc Hm Hn), Hi, Hj.
  reflexivity.
Qed.

Lemma range_spec (a b R : Z) : In R (range a b) <-> a <= R < b.
Proof.
  unfold range. rewrite in_map_iff. split.
  - intros (i & <- & Hi). apply in_seq in Hi. lia.
  - intros HR. exists (Z.to_nat (R - a)). split; [lia|]. apply in_seq. lia.
Qed.

Lemma range_nodup (a b : Z) : NoDup (range a b).
Proof.
  unfold range. apply Finite.Injective_map_NoDup; [|apply seq_NoDup].
  intros i j H. lia.
Qed.

Section Ray.

Variables math_sin math_cos : float -> float.
Variable roi : image.
Variable r : Z * Z.
Variable theta_inc : float.
Variables nr nc : nat.
Hypothesis Hnr : nr = Z.to_nat (snd r - fst r).

(** One step of the inner loop writes one sample of the source. *)
Lemma polar_step_ok (alpha : float) (x0 y0 : Z) (roi2 roi2' : image) (R : Z) :
  has_shape roi2 nr nc -> fst r <= R < snd r ->
  polar_step math_sin math_cos roi r theta_inc alpha x0 y0 roi2 R = Ok roi2' ->
  exists x y c cn v,
    int_of_float (math_sin (math_radians alpha) * float_of_int R) = Ok x
    /\ int_of_float (math_cos (math_radians alpha) * float_of_int R) = Ok y
    /\ polar_column alpha theta_inc = Ok c
    /\ index nc c = Ok cn
    /\ item roi (x + x0) (y + y0) = Ok v
    /\ roi2' = set_px roi2 (Z.to_nat (R - fst r)) cn v.
Proof.
  intros Hs HR H. unfold polar_step in H.
  apply bind_ok in H. destruct H as (x & Hx & H).
  apply bind_ok in H. destruct H as (y & Hy & H).
  apply bind_ok in H. destruct H as (c & Hc & H).
  apply bind_ok in H. destruct H as (v & Hv & H).
  apply itemset_ok in H. destruct H as (rn & cn & Hrn & Hcn & ->).
  assert (Hpos : (0 < nr)%nat) by lia.
  rewrite (shape_rows roi2 nr nc Hs) in Hrn.
  rewrite (shape_cols roi2 nr nc Hs Hpos) in Hcn.
  apply index_nonneg in Hrn; [|lia]. subst rn.
  exists x, y, c, cn, v. repeat split; assumption.
Qed.

(** The inner loop over a list of distinct radii. *)
Lemma polar_steps_ok (alpha : float) (x0 y0 : Z) (Rs : list Z) :
  NoDup Rs -> (forall R, In R Rs -> fst r <= R < snd r) ->
  forall roi2 roi2',
    has_shape roi2 nr nc ->
    foldM (polar_step math_sin math_cos roi r theta_inc alpha x0 y0) Rs roi2 = Ok roi2' ->
    has_shape roi2' nr nc
    /\ (forall rr cc,
          (forall cn, raster_column nc alpha theta_inc = Ok cn -> cc <> cn)
          \/ (forall R, In R Rs -> rr <> Z.to_nat (R - fst r)) ->
          px roi2' rr cc = px roi2 rr cc)
    /\ (forall R, In R Rs ->
          exists x y c cn v,
            int_of_float (math_sin (math_radians alpha) * float_of_int R) = Ok x
            /\ int_of_float (math_cos (math_radians alpha) * float_of_int R) = Ok y
            /\ polar_column alpha theta_inc = Ok c
            /\ index nc c = Ok cn
            /\ item roi (x + x0) (y + y0) = Ok v
            /\ px roi2' (Z.to_nat (R - fst r)) cn = v).
Proof.
  induction Rs as [|R Rs IH]; intros Hnd Hin roi2 roi2' Hs H.
  - simpl in H. injection H as <-. split; [assumption|]. split; [reflexivity|].
    intros R [].
  - simpl in H. apply bind_ok in H. destruct H as (mid & Hstep & Hrest).
    assert (HR : fst r <= R < snd r) by (apply Hin; now left).
    destruct (polar_step_ok alpha x0 y0 roi2 mid R Hs HR Hstep)
      as (x & y & c & cn & v & Hx & Hy & Hc & Hcn & Hv & ->).
    apply NoDup_cons_iff in Hnd. destruct Hnd as [Hnotin Hnd'].
    assert (Hs' : has_shape (set_px roi2 (Z.to_nat (R - fst r)) cn v) nr nc)
      by now apply set_px_shape.
    destruct (IH Hnd' (fun R' H' => Hin R' (or_intror H')) _ _ Hs' Hrest)
      as (Hshape & Hkeep & Hwritten).
    assert (Hcol : raster_column nc alpha theta_inc = Ok cn)
      by (unfold raster_column; now rewrite Hc).
    assert (Hrn : (Z.to_nat (R - fst r) < nr)%nat) by lia.
    pose proof (index_bound nc c cn Hcn) as Hcb.
    split; [exact Hshape|]. split.
    + intros rr cc Hor. rewrite Hkeep.
      * rewrite (px_set_px roi2 nr nc) by assumption.
        destruct (Nat.eqb_spec rr (Z.to_nat (R - fst r))) as [->|Hne];
          [|reflexivity].
        destruct (Nat.eqb_spec cc cn) as [->|Hne']; [|reflexivity].
        exfalso. destruct Hor as [Hor|Hor].
        -- now apply (Hor cn).
        -- apply (Hor R); [now left | reflexivity].
      * destruct Hor as [Hor|Hor]; [now left | right].
        intros R' HR'. apply Hor. now right.
    + intros R' [<-|HR'].
      * exists x, y, c, cn, v. repeat split; try assumption.
        rewrite Hkeep.
        -- rewrite (px_set_px roi2 nr nc) by assumption.
           now rewrite !Nat.eqb_refl.
        -- right. intros R' HR' Heq.
           assert (fst r <= R' < snd r) by (apply Hin; now right).
           assert (R' = R) by lia. subst R'. contradiction.
      * apply Hwritten. exact HR'.
Qed.

(** One ray: the body of the outer loop. *)
Lemma polar_ray_ok (alpha : float) (roi2 roi2' : image) :
  has_shape roi2 nr nc ->
  polar_ray math_sin math_cos roi r theta_inc roi2 alpha = Ok roi2' ->
  has_shape roi2' nr nc
  /\ (forall rr cc,
        (forall cn, raster_column nc alpha theta_inc = Ok cn -> cc <> cn) ->
        px roi2' rr cc = px roi2 rr cc)
  /\ (forall R, fst r <= R < snd r ->
        exists x y c cn v,
          polar_sample math_sin math_cos r alpha R = Ok (x, y)
          /\ polar_column alpha theta_inc = Ok c
          /\ index nc c = Ok cn
          /\ item roi x y = Ok v
          /\ px roi2' (Z.to_nat (R - fst r)) cn = v).
Proof.
  intros Hs H. unfold polar_ray in H.
  apply bind_ok in H. destruct H as (x0 & Hx0 & H).
  apply bind_ok in H. destruct H as (y0 & Hy0 & H).
  apply bind_ok in H. destruct H as (u & _ & H).
  destruct (polar_steps_ok alpha x0 y0 (range (fst r) (snd r))
              (range_nodup _ _) (fun R HR => proj1 (range_spec _ _ R) HR)
              roi2 roi2' Hs H) as (Hshape & Hkeep & Hwritten).
  split; [exact Hshape|]. split.
  - intros rr cc Hcc. apply Hkeep. now left.
  - intros R HR.
    destruct (Hwritten R (proj2 (range_spec _ _ R) HR))
      as (x & y & c & cn & v & Hx & Hy & Hc & Hcn & Hv & Hpx).
    exists (x + x0), (y + y0), c, cn, v.
    split; [|repeat split; assumption].
    unfold polar_sample. now rewrite Hx0, Hy0, Hx, Hy.
Qed.

(** The outer loop. *)
Lemma polar_rays_ok (angles : list float) :
  forall roi2 out,
    has_shape roi2 nr nc ->
    foldM (polar_ray math_sin math_cos roi r theta_inc) angles roi2 = Ok out ->
    has_shape out nr nc
    /\ (forall rr cc,
          (forall alpha cn, In alpha angles ->
                            raster_column nc alpha theta_inc = Ok cn -> cc <> cn) ->
          px out rr cc = px roi2 rr cc)
    /\ (forall j alpha R,
          nth_error angles j = Some alpha -> fst r <= R < snd r ->
          (forall j' alpha', (j < j')%nat -> nth_error angles j' = Some alpha' ->
                             raster_column nc alpha' theta_inc
                             <> raster_column nc alpha theta_inc) ->
          exists x y c cn v,
            polar_sample math_sin math_cos r alpha R = Ok (x, y)
            /\ polar_column alpha theta_inc = Ok c
            /\ index nc c = Ok cn
            /\ item roi x y = Ok v
            /\ px out (Z.to_nat (R - fst r)) cn = v).
Proof.
  induction angles as [|a angles IH]; intros roi2 out Hs H.
  - simpl in H. injection H as <-. split; [assumption|]. split; [reflexivity|].
    intros [|j] alpha R Hj; discriminate.
  - simpl in H. apply bind_ok in H. destruct H as (mid & Hray & Hrest).
    destruct (polar_ray_ok a roi2 mid Hs Hray) as (Hsm & Hkeepm & Hwrm).
    destruct (IH mid out Hsm Hrest) as (Hso & Hkeepo & Hwro).
    split; [exact Hso|]. split.
    + intros rr cc Hcc. rewrite Hkeepo.
      * apply Hkeepm. intros cn Hcn. apply (Hcc a); [now left | exact Hcn].
      * intros alpha cn Hin Hcn. apply (Hcc alpha); [now right | exact Hcn].
    + intros [|j] alpha R Hj HR Hlater.
      * simpl in Hj. injection Hj as <-.
        destruct (Hwrm R HR) as (x & y & c & cn & v & Hsample & Hc & Hcn & Hv & Hpx).
        exists x, y, c, cn, v. repeat split; try assumption.
        rewrite Hkeepo; [exact Hpx|].
        intros alpha' cn' Hin' Hcn' Heq. subst cn'.
        destruct (In_nth_error _ _ Hin') as [j' Hj'].
        apply (Hlater (S j') alpha'); [lia | exact Hj' |].
        rewrite Hcn'. unfold raster_column. now rewrite Hc.
      * simpl in Hj. apply (Hwro j alpha R Hj HR).
        intros j' alpha' Hlt Hj'. apply (Hlater (S j') alpha'); [lia | exact Hj'].
Qed.

End Ray.

Lemma polar_shape_ok (r : Z * Z) (theta theta_inc : float) (nr nc : nat) :
  polar_shape r theta theta_inc = Ok (nr, nc) ->
  exists q n, truediv theta theta_inc = Ok q /\ int_of_float q = Ok n
              /\ nr = Z.to_nat (snd r - fst r) /\ nc = Z.to_nat (n + 1)
              /\ 0 <= snd r - fst r /\ 0 <= n + 1.
Proof.
  unfold polar_shape. intros H.
  apply bind_ok in H. destruct H as (q & Hq & H).
  apply bind_ok in H. destruct H as (n & Hn & H).
  destruct (snd r - fst r <? 0) eqn:E1; [discriminate|].
  destruct (n + 1 <? 0) eqn:E2; [discriminate|].
  simpl in H. injection H as <- <-.
  apply Z.ltb_ge in E1, E2. exists q, n. repeat split; assumption.
Qed.

End PolarFacts.

(** ** The claims about the polar transform *)

(** C1, as the specification states it, fails: the sample is taken one
    inner radius further out than the claim says, and [start_point] does
    not enter. *)
Lemma polar_samples_not_from_start_point : ~ polar_samples_from_start_point.
Proof.
  intros H.
  destruct (H (fun _ => 0%float) (fun _ => 1%float) eq_refl eq_refl
              [[10; 11; 12; 13; 14; 15]] (0, 0) (1, 3) 1%float 1%float
              [[12; 0]; [13; 0]] [0%float] eq_refl eq_refl
              0%float 1 (or_introl eq_refl) ltac:(simpl; lia))
    as (x & y & c & Hx & Hy & Hc & Hitem).
  vm_compute in Hx, Hy, Hc.
  injection Hx as <-. injection Hy as <-. injection Hc as <-.
  vm_compute in Hitem. discriminate.
Qed.

(** C1, amended: for every sampled angle alpha and every integer radius R
    in [r0, r1), the transform writes into the raster cell
    (R - r0, int(alpha / theta_inc)) the sample
    roi.item(int(sin(alpha) * R) + int(sin(alpha) * r0),
             int(cos(alpha) * R) + int(cos(alpha) * r0)),
    each product truncated toward zero and no interpolation made; the
    cell holds that sample in the returned raster unless a later angle is
    written to the same column.  The position is measured from index
    (0, 0) of the source, whatever [start_point] is. *)
Theorem polar_raster_samples
        (math_sin math_cos : float -> float) (roi : image)
        (start_point r : Z * Z) (theta theta_inc : float)
        (out : image) (angles : list float) :
  polarTransform math_sin math_cos roi start_point r theta theta_inc = Ok out ->
  np_arange theta theta_inc = Ok angles ->
  forall (j : nat) (alpha : float) (R : Z),
    nth_error angles j = Some alpha -> fst r <= R < snd r ->
    (forall j' alpha', (j < j')%nat -> nth_error angles j' = Some alpha' ->
                       raster_column (cols out) alpha' theta_inc
                       <> raster_column (cols out) alpha theta_inc) ->
    exists x y c v,
      polar_sample math_sin math_cos r alpha R = Ok (x, y)
      /\ polar_column alpha theta_inc = Ok c
      /\ item roi x y = Ok v
      /\ item out (R - fst r) c = Ok v.
Proof.
  intros Hrun Hangles j alpha R Hj HR Hlater.
  unfold polarTransform in Hrun.
  apply PolarFacts.bind_ok in Hrun. destruct Hrun as ([nr nc] & Hshape & Hrun).
  rewrite Hangles in Hrun. cbn [bind fst snd] in Hrun.
  destruct (PolarFacts.polar_shape_ok r theta theta_inc nr nc Hshape)
    as (q & n & _ & _ & Hnr & Hnc & Hr0 & Hn0).
  destruct (PolarFacts.polar_rays_ok math_sin math_cos roi r theta_inc nr nc Hnr
              angles (zeros nr nc) out (ImgFacts.tabulate_shape nr nc _) Hrun)
    as (Hso & _ & Hwr).
  assert (Hpos : (0 < nr)%nat) by lia.
  rewrite (ImgFacts.shape_cols out nr nc Hso Hpos) in Hlater.
  destruct (Hwr j alpha R Hj HR Hlater) as (x & y & c & cn & v & Hs & Hc & Hcn & Hv & Hpx).
  exists x, y, c, v. repeat split; try assumption.
  rewrite (PolarFacts.item_ok out nr nc (R - fst r) c (Z.to_nat (R - fst r)) cn Hso Hpos);
    [now rewrite Hpx | apply PolarFacts.index_in_range; lia | exact Hcn].
Qed.

Lemma polar_raster_samples_witness :
  let sin0 := fun _ : float => 0%float in
  let cos0 := fun _ : float => 1%float in
  let roi := [[10; 11; 12; 13; 14; 15]] in
  polarTransform sin0 cos0 roi (5, 7) (1, 3) 1 1 = Ok [[12; 0]; [13; 0]]
  /\ np_arange 1 1 = Ok [0%float]
  /\ exists x y c v,
       polar_sample sin0 cos0 (1, 3) 0 2 = Ok (x, y)
       /\ polar_column 0 1 = Ok c
       /\ item roi x y = Ok v
       /\ item [[12; 0]; [13; 0]] (2 - 1) c = Ok v.
Proof.
  intros sin0 cos0 roi.
  split; [reflexivity|]. split; [reflexivity|].
  refine (polar_raster_samples sin0 cos0 roi (5, 7) (1, 3) 1 1
            [[12; 0]; [13; 0]] [0%float] eq_refl eq_refl 0%nat 0%float 2
            eq_refl (conj (proj1 (Z.leb_le 1 2) eq_refl) (proj1 (Z.ltb_lt 2 3) eq_refl)) _).
  intros [|[|j']] alpha' Hlt Hnth; try discriminate Hnth.
  inversion Hlt.
Defined.

(** C9, as the specification states it, fails: the raster has one column
    more than there are sampled angles. *)
Lemma raster_has_a_spare_column : ~ raster_has_a_column_per_angle.
Proof.
  intros H.
  destruct (H (fun _ => 0%float) (fun _ => 1%float) eq_refl eq_refl
              [[10; 11; 12; 13; 14; 15]] (0, 0) (1, 3) 1%float 1%float
              [[12; 0]; [13; 0]] [0%float] eq_refl eq_refl) as [_ Hc].
  vm_compute in Hc. discriminate.
Qed.

(** C9, amended: the returned raster has exactly r1 - r0 rows and
    int(theta / theta_inc) + 1 columns, a shape fixed by the radius band
    and the two angle parameters alone, and no ray of the transform
    changes that shape. *)
Theorem polar_raster_shape
        (math_sin math_cos : float -> float) (roi : image)
        (start_point r : Z * Z) (theta theta_inc : float) (out : image) :
  polarTransform math_sin math_cos roi start_point r theta theta_inc = Ok out ->
  exists q n,
    truediv theta theta_inc = Ok q /\ int_of_float q = Ok n
    /\ has_shape out (Z.to_nat (snd r - fst r)) (Z.to_nat (n + 1))
    /\ forall alpha roi2 roi2',
         has_shape roi2 (Z.to_nat (snd r - fst r)) (Z.to_nat (n + 1)) ->
         polar_ray math_sin math_cos roi r theta_inc roi2 alpha = Ok roi2' ->
         has_shape roi2' (Z.to_nat (snd r - fst r)) (Z.to_nat (n + 1)).
Proof.
  intros Hrun. unfold polarTransform in Hrun.
  apply PolarFacts.bind_ok in Hrun. destruct Hrun as ([nr nc] & Hshape & Hrun).
  apply PolarFacts.bind_ok in Hrun. destruct Hrun as (angles & Hangles & Hrun).
  cbn [fst snd] in Hrun.
  destruct (PolarFacts.polar_shape_ok r theta theta_inc nr nc Hshape)
    as (q & n & Hq & Hn & Hnr & Hnc & _ & _).
  exists q, n. split; [exact Hq|]. split; [exact Hn|].
  rewrite <- Hnr, <- Hnc. split.
  - now destruct (PolarFacts.polar_rays_ok math_sin math_cos roi r theta_inc nr nc Hnr
                    angles (zeros nr nc) out (ImgFacts.tabulate_shape nr nc _) Hrun).
  - intros alpha roi2 roi2' Hs Hray.
    now destruct (PolarFacts.polar_ray_ok math_sin math_cos roi r theta_inc nr nc Hnr
                    alpha roi2 roi2' Hs Hray).
Qed.

Lemma polar_raster_shape_witness :
  let sin0 := fun _ : float => 0%float in
  let cos0 := fun _ : float => 1%float in
  let roi := [[10; 11; 12; 13; 14; 15]] in
  polarTransform sin0 cos0 roi (0, 0) (1, 3) 1 1 = Ok [[12; 0]; [13; 0]]
  /\ exists q n, truediv 1 1 = Ok q /\ int_of_float q = Ok n
                 /\ has_shape [[12; 0]; [13; 0]] 2 (Z.to_nat (n + 1)).
Proof.
  intros sin0 cos0 roi. split; [reflexivity|].
  destruct (polar_raster_shape sin0 cos0 roi (0, 0) (1, 3) 1 1 [[12; 0]; [13; 0]] eq_refl)
    as (q & n & Hq & Hn & Hs & _).
  exists q, n. auto.
Defined.

(** The raster of the configured call: 181 rows and 361 columns for the
    360 angles 0, 0.25, ..., 89.75. *)
Example configured_polar_raster :
  int_of_float (PX2MM * 1) = Ok 145 /\ int_of_float (PX2MM * 2.25) = Ok 326
  /\ polar_shape (145, 326) 90 0.25 = Ok (181%nat, 361%nat)
  /\ bind (np_arange 90 0.25) (fun angles => Ok (length angles)) = Ok 360%nat.
Proof. repeat split; vm_compute; reflexivity. Qed.

(** * Further properties of the code *)

(** * The points the edge extractor returns *)

Module PointFacts.

Import ImgFacts.

Lemma flatnonzero_nodup_from (k : nat) (row : list Z) :
  NoDup (map fst (filter (fun p => negb (snd p =? 0))
                         (combine (seq k (length row)) row))).
Proof.
  revert k; induction row as [|v row IH]; intros k; simpl; [constructor|].
  destruct (v =? 0); simpl; [apply IH|].
  constructor; [|apply IH].
  intros Hin. apply flatnonzero_in_from in Hin. lia.
Qed.

Lemma flatnonzero_nodup (row : list Z) : NoDup (flatnonzero row).
Proof. apply flatnonzero_nodup_from. Qed.

Lemma nonzero_points_from (k : nat) (m : image) (x y : Z) :
  In (x, y)
     (flat_map (fun p => map (fun c => (Z.of_nat c, Z.of_nat (fst p)))
                             (flatnonzero (snd p)))
               (combine (seq k (length m)) m))
  <-> exists r c, x = Z.of_nat c /\ y = Z.of_nat r
                  /\ (k <= r < k + length m)%nat
                  /\ (c < length (nth (r - k) m []))%nat
                  /\ nth c (nth (r - k) m []) 0 <> 0.
Proof.
  revert k; induction m as [|row m IH]; intros k; simpl.
  - split; [intros [] | intros (r & c & _ & _ & H & _); lia].
  - rewrite in_app_iff, IH, in_map_iff. split.
    + intros [(c & Heq & Hin) | (r & c & -> & -> & Hr & Hc & Hnz)].
      * injection Heq as <- <-. apply flatnonzero_in in Hin.
        exists k, c. rewrite Nat.sub_diag. intuition lia.
      * exists r, c. replace (r - k)%nat with (S (r - S k)) by lia.
        intuition lia.
    + intros (r & c & -> & -> & Hr & Hc & Hnz).
      destruct (Nat.eq_dec r k) as [->|Hne].
      * left. exists c. rewrite Nat.sub_diag in Hc, Hnz.
        split; [reflexivity|]. apply flatnonzero_in. auto.
      * right. exists r, c.
        replace (r - k)%nat with (S (r - S k)) in Hc, Hnz by lia.
        intuition lia.
Qed.

(** [cv.findNonZero] lists the nonzero samples, each as (x, y). *)
Lemma nonzero_points_in (m : image) (nr nc : nat) (x y : Z) :
  has_shape m nr nc ->
  In (x, y) (nonzero_points m)
  <-> exists r c, x = Z.of_nat c /\ y = Z.of_nat r
                  /\ (r < nr)%nat /\ (c < nc)%nat /\ px m r c <> 0.
Proof.
  intros Hm. unfold nonzero_points. rewrite nonzero_points_from.
  pose proof (shape_rows m nr nc Hm) as Hrows. unfold rows in Hrows.
  split; intros (r & c & -> & -> & Hr & Hc & Hnz); exists r, c;
    rewrite Nat.sub_0_r in *.
  - rewrite (shape_row m nr nc r Hm) in Hc by lia.
    unfold px. intuition lia.
  - rewrite (shape_row m nr nc r Hm) by lia.
    unfold px in Hnz. intuition lia.
Qed.

Lemma nonzero_points_nodup_from (k : nat) (m : image) :
  NoDup (flat_map (fun p => map (fun c => (Z.of_nat c, Z.of_nat (fst p)))
                                (flatnonzero (snd p)))
                  (combine (seq k (length m)) m)).
Proof.
  revert k; induction m as [|row m IH]; intros k; simpl; [constructor|].
  apply NoDup_app.
  - apply Finite.Injective_map_NoDup; [|apply flatnonzero_nodup].
    intros c c' H. injection H as H. lia.
  - apply IH.
  - intros [x y] Hin Hin'. apply in_map_iff in Hin.
    destruct Hin as (c & Heq & _). injection Heq as <- <-.
    apply nonzero_points_from in Hin'.
    destruct Hin' as (r & c' & _ & Hy & Hr & _). lia.
Qed.

Lemma nonzero_points_nodup (m : image) : NoDup (nonzero_points m).
Proof. apply nonzero_points_nodup_from. Qed.

Lemma findNonZero_points (m : image) (pts : list (Z * Z)) :
  findNonZero m = Some pts -> pts = nonzero_points m.
Proof.
  unfold findNonZero. destruct (nonzero_points m); [discriminate|].
  now intros H; injection H as <-.
Qed.

Lemma findNonZero_none (m : image) :
  findNonZero m = None <-> nonzero_points m = [].
Proof.
  unfold findNonZero. destruct (nonzero_points m); split; congruence.
Qed.

End PointFacts.

Module OuterFacts.

Import ImgFacts ScanFacts PointFacts.

Ltac four_directions d Hd :=
  destruct (valid_direction_cases d Hd) as [-> | [-> | [-> | ->]]];
  cbn [rotate_to_search rotate_back search_shape base_coords scan_coords
       first_hit on_start_line same_scan_line scan_line scan_lines
       fst snd Z.eqb Pos.eqb negb].

Section Direction.

Variable d : direction.
Variable edges : image.
Variables nr nc : nat.
Hypothesis Hd : valid_direction d = true.
Hypothesis Hm : has_shape edges nr nc.
Hypothesis Hr : (0 < nr)%nat.
Hypothesis Hc : (0 < nc)%nat.

Lemma searched_shape :
  has_shape (rotate_to_search d edges)
            (fst (search_shape d nr nc)) (snd (search_shape d nr nc)).
Proof.
  pose proof (rotate_cw_shape edges nr nc Hm Hr) as Hcw.
  revert Hd. intros Hd'. four_directions d Hd'; auto using flip1_shape.
Qed.

Lemma searched_rows : (0 < fst (search_shape d nr nc))%nat.
Proof. revert Hd. intros Hd'. four_directions d Hd'; assumption. Qed.

(** The rotated map shows the sample (y, x) at [scan_coords]. *)
Lemma px_searched (y x : nat) :
  (y < nr)%nat -> (x < nc)%nat ->
  (fst (scan_coords d nr nc y x) < fst (search_shape d nr nc))%nat
  /\ (snd (scan_coords d nr nc y x) < snd (search_shape d nr nc))%nat
  /\ px (rotate_to_search d edges)
        (fst (scan_coords d nr nc y x)) (snd (scan_coords d nr nc y x))
     = px edges y x.
Proof.
  intros Hy Hx.
  pose proof (rotate_cw_shape edges nr nc Hm Hr) as Hcw.
  revert Hd. intros Hd'. four_directions d Hd'.
  - repeat split; assumption.
  - split; [assumption|]. split; [lia|].
    rewrite (px_flip1 edges nr nc) by (assumption || lia). f_equal; lia.
  - split; [assumption|]. split; [lia|].
    rewrite (px_rotate_cw edges nr nc) by (assumption || lia). f_equal; lia.
  - split; [assumption|]. split; [assumption|].
    rewrite (px_flip1 _ nc nr) by assumption.
    rewrite (px_rotate_cw edges nr nc) by (assumption || lia). f_equal; lia.
Qed.

(** A sample of the rotated map comes from [base_coords]. *)
Lemma px_searched_base (sr sc : nat) :
  (sr < fst (search_shape d nr nc))%nat ->
  (sc < snd (search_shape d nr nc))%nat ->
  (fst (base_coords d nr nc sr sc) < nr)%nat
  /\ (snd (base_coords d nr nc sr sc) < nc)%nat
  /\ scan_coords d nr nc (fst (base_coords d nr nc sr sc))
                 (snd (base_coords d nr nc sr sc)) = (sr, sc)
  /\ px (rotate_to_search d edges) sr sc
     = px edges (fst (base_coords d nr nc sr sc)) (snd (base_coords d nr nc sr sc)).
Proof.
  pose proof (rotate_cw_shape edges nr nc Hm Hr) as Hcw.
  revert Hd. intros Hd'. four_directions d Hd'; intros Hsr Hsc.
  - repeat split; assumption.
  - split; [assumption|]. split; [lia|]. split; [f_equal; lia|].
    now apply (px_flip1 edges nr nc).
  - split; [lia|]. split; [assumption|]. split; [f_equal; lia|].
    now apply (px_rotate_cw edges nr nc).
  - split; [assumption|]. split; [assumption|]. split; [reflexivity|].
    rewrite (px_flip1 _ nc nr) by assumption.
    rewrite (px_rotate_cw edges nr nc) by (assumption || lia). f_equal; lia.
Qed.

(** The rotation back puts the sample of [scan_coords] at (y, x). *)
Lemma px_rotate_back (drawing : image) :
  has_shape drawing (fst (search_shape d nr nc)) (snd (search_shape d nr nc)) ->
  has_shape (rotate_back d drawing) nr nc
  /\ forall y x, (y < nr)%nat -> (x < nc)%nat ->
       px (rotate_back d drawing) y x
       = px drawing (fst (scan_coords d nr nc y x)) (snd (scan_coords d nr nc y x)).
Proof.
  revert Hd. intros Hd'. four_directions d Hd'; intros Hs.
  - split; [assumption | reflexivity].
  - split; [now apply flip1_shape|]. intros y x Hy Hx.
    now apply (px_flip1 drawing nr nc).
  - split; [now apply rotate_ccw_shape|]. intros y x Hy Hx.
    now apply (px_rotate_ccw drawing nc nr).
  - split; [apply rotate_ccw_shape; [now apply flip1_shape | assumption]|].
    intros y x Hy Hx.
    rewrite (px_rotate_ccw _ nc nr) by (assumption || now apply flip1_shape).
    rewrite (px_flip1 drawing nc nr) by (assumption || lia). f_equal; lia.
Qed.

End Direction.

(** What the search records, row by row of the rotated map. *)
Lemma recorded_iff (m : image) (nr nc r c : nat) :
  has_shape m nr nc -> (r < nr)%nat -> (c < nc)%nat ->
  px (first_in_rows m) r c <> 0
  <-> px m r c <> 0
      /\ (forall c', (c' < c)%nat -> px m r c' = 0)
      /\ exists c'', (0 < c'')%nat /\ (c'' < nc)%nat /\ px m r c'' <> 0.
Proof.
  intros Hm Hr Hc.
  destruct (first_in_rows_spec m nr nc Hm ltac:(lia)) as [_ Hpx].
  rewrite (Hpx r c Hr Hc). clear Hpx.
  pose proof (shape_row m nr nc r Hm Hr) as Hlen.
  unfold first_edge, px.
  destruct (flatnonzero (nth r m [])) as [|i rest] eqn:Enz.
  - simpl. split; [intros H; now contradiction H|].
    intros (_ & _ & c'' & H0 & Hlt & Hnz).
    assert (Hin : In c'' (flatnonzero (nth r m [])))
      by (apply flatnonzero_in; split; [lia | exact Hnz]).
    rewrite Enz in Hin. destruct Hin.
  - destruct (flatnonzero_head _ _ _ Enz) as (Hi & Hnz & Hz).
    destruct (existsb (fun i => negb (Nat.eqb i 0)) (i :: rest)) eqn:Ex.
    + simpl hd. destruct (Nat.eqb_spec c i) as [->|Hne].
      * split; [|discriminate].
        intros _. split; [exact Hnz|]. split; [exact Hz|].
        apply existsb_exists in Ex. destruct Ex as (j & Hj & Hj0).
        rewrite <- Enz in Hj. apply flatnonzero_in in Hj.
        exists j. destruct (Nat.eqb_spec j 0); [discriminate|].
        repeat split; [lia | lia | tauto].
      * split; [intros H; now contradiction H|].
        intros (Hc0 & Hfirst & _). exfalso.
        destruct (Nat.lt_trichotomy c i) as [Hlt|[Heq|Hgt]]; [|contradiction|].
        -- apply Hc0, Hz, Hlt.
        -- apply Hnz, Hfirst, Hgt.
    + split; [intros H; now contradiction H|].
      intros (_ & _ & c'' & H0 & Hlt & Hnz'). exfalso.
      assert (Hin : In c'' (i :: rest)).
      { rewrite <- Enz. apply flatnonzero_in. split; [lia | exact Hnz']. }
      assert (Ht : existsb (fun i => negb (Nat.eqb i 0)) (i :: rest) = true).
      { apply existsb_exists. exists c''. split; [exact Hin|].
        destruct (Nat.eqb_spec c'' 0); [lia | reflexivity]. }
      congruence.
Qed.

Lemma px_outside_row (m : image) (nr nc r c : nat) :
  has_shape m nr nc -> (nr <= r)%nat -> px m r c = 0.
Proof.
  intros [Hl _] Hr. unfold px. rewrite (nth_overflow m) by lia.
  now destruct c.
Qed.

Lemma px_outside_col (m : image) (nr nc r c : nat) :
  has_shape m nr nc -> (nc <= c)%nat -> px m r c = 0.
Proof.
  intros Hm Hc. destruct (Nat.lt_ge_cases r nr) as [Hr|Hr].
  - unfold px. apply nth_overflow. now rewrite (shape_row m nr nc r Hm Hr).
  - now apply (px_outside_row m nr nc).
Qed.

End OuterFacts.

Module HitFacts.

Import ImgFacts ScanFacts PointFacts OuterFacts.

Section Direction.

Variable d : direction.
Variable edges : image.
Variables nr nc : nat.
Hypothesis Hd : valid_direction d = true.
Hypothesis Hm : has_shape edges nr nc.
Hypothesis Hr : (0 < nr)%nat.
Hypothesis Hc : (0 < nc)%nat.

(** A first hit, told in the coordinates of the rotated map. *)
Lemma first_hit_scan (y x : nat) :
  (y < nr)%nat -> (x < nc)%nat ->
  first_hit d edges y x
  <-> px (rotate_to_search d edges)
         (fst (scan_coords d nr nc y x)) (snd (scan_coords d nr nc y x)) <> 0
      /\ forall c', (c' < snd (scan_coords d nr nc y x))%nat ->
           px (rotate_to_search d edges) (fst (scan_coords d nr nc y x)) c' = 0.
Proof.
  intros Hy Hx.
  destruct (px_searched d edges nr nc Hd Hm Hr Hc y x Hy Hx) as (_ & _ & ->).
  pose proof (rotate_cw_shape edges nr nc Hm Hr) as Hcw.
  unfold first_hit.
  revert Hd. intros Hd'. four_directions d Hd'.
  - tauto.
  - split; intros [H0 H]; (split; [exact H0|]).
    + intros c' Hc'. rewrite (px_flip1 edges nr nc) by (assumption || lia).
      apply H. lia.
    + intros x' Hx'. destruct (Nat.lt_ge_cases x' nc) as [Hin|Hout];
        [|now apply (px_outside_col edges nr nc)].
      specialize (H (nc - 1 - x')%nat ltac:(lia)).
      rewrite (px_flip1 edges nr nc) in H by (assumption || lia).
      now replace (nc - 1 - (nc - 1 - x'))%nat with x' in H by lia.
  - split; intros [H0 H]; (split; [exact H0|]).
    + intros c' Hc'. rewrite (px_rotate_cw edges nr nc) by (assumption || lia).
      apply H. lia.
    + intros y' Hy'. destruct (Nat.lt_ge_cases y' nr) as [Hin|Hout];
        [|now apply (px_outside_row edges nr nc)].
      specialize (H (nr - 1 - y')%nat ltac:(lia)).
      rewrite (px_rotate_cw edges nr nc) in H by (assumption || lia).
      now replace (nr - 1 - (nr - 1 - y'))%nat with y' in H by lia.
  - split; intros [H0 H]; (split; [exact H0|]).
    + intros c' Hc'. rewrite (px_flip1 _ nc nr) by (assumption || lia).
      rewrite (px_rotate_cw edges nr nc) by (assumption || lia).
      replace (nr - 1 - (nr - 1 - c'))%nat with c' by lia. now apply H.
    + intros y' Hy'. specialize (H y' Hy').
      rewrite (px_flip1 _ nc nr) in H by (assumption || lia).
      rewrite (px_rotate_cw edges nr nc) in H by (assumption || lia).
      now replace (nr - 1 - (nr - 1 - y'))%nat with y' in H by lia.
Qed.

(** An edge sample off the start line, told in the coordinates of the
    rotated map: a nonzero sample outside column 0. *)
Lemma off_start_scan (y x : nat) :
  (y < nr)%nat -> (x < nc)%nat ->
  (exists y' x', (y' < nr)%nat /\ (x' < nc)%nat
                 /\ same_scan_line d y x y' x'
                 /\ px edges y' x' <> 0
                 /\ on_start_line d nr nc y' x' = false)
  <-> exists c'', (0 < c'')%nat /\ (c'' < snd (search_shape d nr nc))%nat
                  /\ px (rotate_to_search d edges)
                        (fst (scan_coords d nr nc y x)) c'' <> 0.
Proof.
  intros Hy Hx.
  pose proof (rotate_cw_shape edges nr nc Hm Hr) as Hcw.
  revert Hd. intros Hd'. four_directions d Hd'.
  - split.
    + intros (y' & x' & Hy' & Hx' & -> & Hnz & Hoff).
      apply Nat.eqb_neq in Hoff. exists x'. repeat split; (lia || assumption).
    + intros (c'' & H0 & Hlt & Hnz). exists y, c''.
      repeat split; try assumption. apply Nat.eqb_neq. lia.
  - split.
    + intros (y' & x' & Hy' & Hx' & -> & Hnz & Hoff).
      apply Nat.eqb_neq in Hoff. exists (nc - 1 - x')%nat.
      split; [lia|]. split; [lia|].
      rewrite (px_flip1 edges nr nc) by (assumption || lia).
      now replace (nc - 1 - (nc - 1 - x'))%nat with x' by lia.
    + intros (c'' & H0 & Hlt & Hnz).
      rewrite (px_flip1 edges nr nc) in Hnz by (assumption || lia).
      exists y, (nc - 1 - c'')%nat.
      split; [assumption|]. split; [lia|]. split; [reflexivity|].
      split; [assumption|]. apply Nat.eqb_neq. lia.
  - split.
    + intros (y' & x' & Hy' & Hx' & -> & Hnz & Hoff).
      apply Nat.eqb_neq in Hoff. exists (nr - 1 - y')%nat.
      split; [lia|]. split; [lia|].
      rewrite (px_rotate_cw edges nr nc) by (assumption || lia).
      now replace (nr - 1 - (nr - 1 - y'))%nat with y' by lia.
    + intros (c'' & H0 & Hlt & Hnz).
      rewrite (px_rotate_cw edges nr nc) in Hnz by (assumption || lia).
      exists (nr - 1 - c'')%nat, x.
      split; [lia|]. split; [assumption|]. split; [reflexivity|].
      split; [assumption|]. apply Nat.eqb_neq. lia.
  - split.
    + intros (y' & x' & Hy' & Hx' & -> & Hnz & Hoff).
      apply Nat.eqb_neq in Hoff. exists y'.
      split; [lia|]. split; [lia|].
      rewrite (px_flip1 _ nc nr) by (assumption || lia).
      rewrite (px_rotate_cw edges nr nc) by (assumption || lia).
      now replace (nr - 1 - (nr - 1 - y'))%nat with y' by lia.
    + intros (c'' & H0 & Hlt & Hnz).
      rewrite (px_flip1 _ nc nr) in Hnz by (assumption || lia).
      rewrite (px_rotate_cw edges nr nc) in Hnz by (assumption || lia).
      replace (nr - 1 - (nr - 1 - c''))%nat with c'' in Hnz by lia.
      exists c'', x.
      split; [lia|]. split; [assumption|]. split; [reflexivity|].
      split; [assumption|]. apply Nat.eqb_neq. lia.
Qed.

(** The map handed to [findNonZero]: its shape, and where it is nonzero. *)
Lemma outer_map (y x : nat) :
  (y < nr)%nat -> (x < nc)%nat ->
  let out := rotate_back d (first_in_rows (rotate_to_search d edges)) in
  has_shape out nr nc
  /\ (px out y x <> 0
      <-> first_hit d edges y x
          /\ exists y' x', (y' < nr)%nat /\ (x' < nc)%nat
                           /\ same_scan_line d y x y' x'
                           /\ px edges y' x' <> 0
                           /\ on_start_line d nr nc y' x' = false).
Proof.
  intros Hy Hx out.
  pose proof (searched_shape d edges nr nc Hd Hm Hr) as Hs.
  pose proof (searched_rows d nr nc Hd Hr Hc) as Hsr.
  destruct (first_in_rows_spec _ _ _ Hs Hsr) as [Hds _].
  destruct (px_rotate_back d nr nc Hd Hr Hc _ Hds) as [Hos Hpx].
  split; [exact Hos|].
  unfold out. rewrite (Hpx y x Hy Hx).
  destruct (px_searched d edges nr nc Hd Hm Hr Hc y x Hy Hx) as (Hb1 & Hb2 & _).
  rewrite (recorded_iff _ _ _ _ _ Hs Hb1 Hb2).
  rewrite (first_hit_scan y x Hy Hx), (off_start_scan y x Hy Hx). tauto.
Qed.

End Direction.

End HitFacts.

Module LineFacts.

Import ImgFacts ScanFacts PointFacts OuterFacts HitFacts.

(** On one scan line there is one first hit. *)
Lemma first_hit_unique (d : direction) (edges : image) (y x y' x' : nat) :
  valid_direction d = true ->
  first_hit d edges y x -> first_hit d edges y' x' ->
  same_scan_line d y x y' x' -> y' = y /\ x' = x.
Proof.
  intros Hd. unfold first_hit. four_directions d Hd;
    intros [H0 H] [H0' H'] ->; (split; [try reflexivity | try reflexivity]).
  - destruct (Nat.lt_trichotomy x' x) as [Hlt | [Heq | Hgt]]; [|assumption|].
    + now specialize (H x' Hlt).
    + now specialize (H' x Hgt).
  - destruct (Nat.lt_trichotomy x' x) as [Hlt | [Heq | Hgt]]; [|assumption|].
    + now specialize (H' x Hlt).
    + now specialize (H x' Hgt).
  - destruct (Nat.lt_trichotomy y' y) as [Hlt | [Heq | Hgt]]; [|assumption|].
    + now specialize (H' y Hlt).
    + now specialize (H y' Hgt).
  - destruct (Nat.lt_trichotomy y' y) as [Hlt | [Heq | Hgt]]; [|assumption|].
    + now specialize (H y' Hlt).
    + now specialize (H' y Hgt).
Qed.

(** A row with an edge sample outside column 0 records a sample. *)
Lemma recorded_exists (m : image) (nr nc r c'' : nat) :
  has_shape m nr nc -> (r < nr)%nat -> (0 < c'')%nat -> (c'' < nc)%nat ->
  px m r c'' <> 0 ->
  exists c, (c < nc)%nat /\ px (first_in_rows m) r c <> 0.
Proof.
  intros Hm Hr H0 Hlt Hnz.
  destruct (first_in_rows_spec m nr nc Hm ltac:(lia)) as [_ Hpx].
  pose proof (shape_row m nr nc r Hm Hr) as Hlen.
  assert (Hin : In c'' (flatnonzero (nth r m [])))
    by (apply flatnonzero_in; split; [lia | exact Hnz]).
  destruct (flatnonzero (nth r m [])) as [|i rest] eqn:Enz; [destruct Hin|].
  destruct (flatnonzero_head _ _ _ Enz) as (Hi & _).
  exists i. split; [lia|].
  rewrite (Hpx r i Hr ltac:(lia)). unfold first_edge. rewrite Enz.
  replace (existsb _ (i :: rest)) with true.
  - simpl hd. now rewrite Nat.eqb_refl.
  - symmetry. apply existsb_exists. exists c''. split; [exact Hin|].
    destruct (Nat.eqb_spec c'' 0); [lia | reflexivity].
Qed.

Lemma no_member_nil {A} (l : list A) : (forall a, ~ In a l) -> l = [].
Proof.
  destruct l as [|a l]; [reflexivity|]. intros H. destruct (H a). now left.
Qed.

(** At most one point for each scan line. *)
Lemma outer_points_bound (d : direction) (edges : image) (nr nc : nat)
      (pts : list (Z * Z)) :
  valid_direction d = true -> has_shape edges nr nc ->
  (0 < nr)%nat -> (0 < nc)%nat ->
  outer_line_points edges d = Some pts ->
  NoDup (map (scan_line d) pts)
  /\ (1 <= length pts <= scan_lines d nr nc)%nat
  /\ Forall (fun p => 0 <= fst p < Z.of_nat nc /\ 0 <= snd p < Z.of_nat nr) pts.
Proof.
  intros Hd Hm Hr Hc Hrun.
  assert (Hne : pts <> []) by (apply (ZeroFacts.findNonZero_some _ _ Hrun)).
  unfold outer_line_points in Hrun.
  apply findNonZero_points in Hrun.
  destruct (outer_map d edges nr nc Hd Hm Hr Hc 0 0 Hr Hc) as [Hos _].
  assert (Hchar : forall x y, In (x, y) pts ->
            exists r c, x = Z.of_nat c /\ y = Z.of_nat r
                        /\ (r < nr)%nat /\ (c < nc)%nat /\ first_hit d edges r c).
  { intros x y Hin. rewrite Hrun in Hin.
    apply (nonzero_points_in _ nr nc _ _ Hos) in Hin.
    destruct Hin as (r & c & -> & -> & Hrr & Hcc & Hnz).
    exists r, c. do 4 (split; [reflexivity || assumption|]).
    now apply (outer_map d edges nr nc Hd Hm Hr Hc r c Hrr Hcc) in Hnz. }
  assert (Hnd : NoDup (map (scan_line d) pts)).
  { apply NoDup_map_NoDup_ForallPairs;
      [|rewrite Hrun; apply nonzero_points_nodup].
    intros [x y] [x' y'] Hin Hin' Heq.
    destruct (Hchar x y Hin) as (r & c & -> & -> & _ & _ & Hfh).
    destruct (Hchar x' y' Hin') as (r' & c' & -> & -> & _ & _ & Hfh').
    assert (Hsame : same_scan_line d r c r' c').
    { unfold scan_line in Heq. unfold same_scan_line.
      destruct (snd d =? 0); simpl in Heq; lia. }
    destruct (first_hit_unique d edges r c r' c' Hd Hfh Hfh' Hsame)
      as [-> ->].
    reflexivity. }
  split; [exact Hnd|]. split; [split|].
  - destruct pts; [congruence | simpl; lia].
  - assert (Hincl : incl (map (scan_line d) pts)
                          (map Z.of_nat (seq 0 (scan_lines d nr nc)))).
    2: { pose proof (NoDup_incl_length Hnd Hincl) as Hle.
         now rewrite !length_map, length_seq in Hle. }
    intros z Hz. apply in_map_iff in Hz. destruct Hz as ([x y] & <- & Hin).
    destruct (Hchar x y Hin) as (r & c & -> & -> & Hrr & Hcc & _).
    apply in_map_iff. unfold scan_line, scan_lines.
    destruct (snd d =? 0); simpl; [exists r | exists c];
      (split; [reflexivity | apply in_seq; lia]).
  - apply Forall_forall. intros [x y] Hin.
    destruct (Hchar x y Hin) as (r & c & -> & -> & Hrr & Hcc & _).
    simpl. lia.
Qed.

(** An edge sample off the start line makes the search return points. *)
Lemma some_point_found (d : direction) (edges : image) (nr nc y x : nat) :
  valid_direction d = true -> has_shape edges nr nc ->
  (0 < nr)%nat -> (0 < nc)%nat -> (y < nr)%nat -> (x < nc)%nat ->
  px edges y x <> 0 -> on_start_line d nr nc y x = false ->
  outer_line_points edges d <> None.
Proof.
  intros Hd Hm Hr Hc Hy Hx Hnz Eon Hnone.
  unfold outer_line_points in Hnone. apply findNonZero_none in Hnone.
  pose proof (searched_shape d edges nr nc Hd Hm Hr) as Hs.
  pose proof (searched_rows d nr nc Hd Hr Hc) as Hsr.
  destruct (first_in_rows_spec _ _ _ Hs Hsr) as [Hds _].
  destruct (px_rotate_back d nr nc Hd Hr Hc _ Hds) as [Hos Hpx].
  assert (Hoff : exists c'', (0 < c'')%nat
                   /\ (c'' < snd (search_shape d nr nc))%nat
                   /\ px (rotate_to_search d edges)
                         (fst (scan_coords d nr nc y x)) c'' <> 0).
  { apply (off_start_scan d edges nr nc Hd Hm Hr Hc y x Hy Hx).
    exists y, x. repeat split; try assumption.
    unfold same_scan_line. now destruct (snd d =? 0). }
  destruct Hoff as (c'' & H0 & Hlt & Hnz'').
  destruct (px_searched d edges nr nc Hd Hm Hr Hc y x Hy Hx) as (Hb1 & _ & _).
  destruct (recorded_exists _ _ _ _ c'' Hs Hb1 H0 Hlt Hnz'') as (c & Hcb & Hrec).
  destruct (px_searched_base d edges nr nc Hd Hm Hr Hc _ c Hb1 Hcb)
    as (Hy' & Hx' & Hsc & _).
  set (y' := fst (base_coords d nr nc (fst (scan_coords d nr nc y x)) c)) in *.
  set (x' := snd (base_coords d nr nc (fst (scan_coords d nr nc y x)) c)) in *.
  assert (Hin : In (Z.of_nat x', Z.of_nat y')
                   (nonzero_points
                      (rotate_back d (first_in_rows (rotate_to_search d edges))))).
  { apply (nonzero_points_in _ nr nc _ _ Hos).
    exists y', x'. repeat split; try assumption.
    rewrite (Hpx y' x' Hy' Hx'), Hsc. exact Hrec. }
  rewrite Hnone in Hin. destruct Hin.
Qed.

End LineFacts.

(** ** What the edge extractor returns *)

(** X3: the points findLinesPoints returns are exactly the first hits of
    the search: a point (x, y) is returned if and only if the edge map
    has an edge sample at row y, column x, no edge sample of that scan
    line comes before it in the search along the direction (leftmost for
    (1, 0), rightmost for (-1, 0), lowest for (0, 1), topmost for
    (0, -1)), and the scan line has an edge sample off the border line
    where the search starts. *)
Theorem outer_points_are_first_hits
        (cv_morph_open cv_Canny : image -> image) (roi : image)
        (d : direction) (nr nc : nat) (pts : list (Z * Z)) :
  valid_direction d = true ->
  has_shape (cv_Canny (cv_morph_open roi)) nr nc ->
  (0 < nr)%nat -> (0 < nc)%nat ->
  findLinesPoints cv_morph_open cv_Canny roi d = Some pts ->
  let edges := cv_Canny (cv_morph_open roi) in
  forall x y : Z,
    In (x, y) pts
    <-> exists r c, x = Z.of_nat c /\ y = Z.of_nat r
          /\ (r < nr)%nat /\ (c < nc)%nat
          /\ first_hit d edges r c
          /\ exists r' c', (r' < nr)%nat /\ (c' < nc)%nat
                           /\ same_scan_line d r c r' c'
                           /\ px edges r' c' <> 0
                           /\ on_start_line d nr nc r' c' = false.
Proof.
  intros Hd Hm Hr Hc Hrun edges x y.
  unfold findLinesPoints, outer_line_points in Hrun. fold edges in Hrun.
  apply PointFacts.findNonZero_points in Hrun. subst pts.
  destruct (HitFacts.outer_map d edges nr nc Hd Hm Hr Hc 0 0 Hr Hc) as [Hos _].
  rewrite (PointFacts.nonzero_points_in _ nr nc x y Hos).
  split; intros (r & c & -> & -> & Hrr & Hcc & H); exists r, c;
    (split; [reflexivity|]); (split; [reflexivity|]);
    (split; [exact Hrr|]); (split; [exact Hcc|]);
    now apply (HitFacts.outer_map d edges nr nc Hd Hm Hr Hc r c Hrr Hcc).
Qed.

Lemma outer_points_are_first_hits_witness :
  let same := fun roi : image => roi in
  let roi := [[0; 0; 5; 0]; [0; 3; 0; 4]; [7; 0; 0; 0]] in
  findLinesPoints same same roi (0, 1) = Some [(2, 0); (1, 1); (3, 1)]
  /\ first_hit (0, 1) roi 1 3
  /\ on_start_line (0, 1) 3 4 2 0 = true.
Proof.
  intros same roi. split; [reflexivity|]. split; [|reflexivity].
  assert (Hs : has_shape (same (same roi)) 3 4)
    by (split; [reflexivity | repeat constructor]).
  assert (Hin : In (3, 1) [(2, 0); (1, 1); (3, 1)]) by (simpl; auto).
  destruct (proj1 (outer_points_are_first_hits same same roi (0, 1) 3 4
                     [(2, 0); (1, 1); (3, 1)] eq_refl Hs
                     (Nat.lt_0_succ 2) (Nat.lt_0_succ 3) eq_refl 3 1) Hin)
    as (r & c & Hx & Hy & _ & _ & Hfh & _).
  assert (c = 3%nat) by lia. assert (r = 1%nat) by lia. subst r c.
  exact Hfh.
Defined.

(** X4: findLinesPoints returns None exactly when every edge sample of
    the map lies on the border line where the search starts (column 0
    for (1, 0), the last column for (-1, 0), the last row for (0, 1),
    row 0 for (0, -1)): an edge that runs along that border is not seen,
    like a map without any edge sample. *)
Theorem no_points_iff_edges_on_start_line
        (cv_morph_open cv_Canny : image -> image) (roi : image)
        (d : direction) (nr nc : nat) :
  valid_direction d = true ->
  has_shape (cv_Canny (cv_morph_open roi)) nr nc ->
  (0 < nr)%nat -> (0 < nc)%nat ->
  let edges := cv_Canny (cv_morph_open roi) in
  findLinesPoints cv_morph_open cv_Canny roi d = None
  <-> forall y x, (y < nr)%nat -> (x < nc)%nat ->
        px edges y x <> 0 -> on_start_line d nr nc y x = true.
Proof.
  intros Hd Hm Hr Hc edges. unfold findLinesPoints. fold edges. split.
  - intros Hnone y x Hy Hx Hnz.
    destruct (on_start_line d nr nc y x) eqn:Eon; [reflexivity | exfalso].
    now apply (LineFacts.some_point_found d edges nr nc y x).
  - intros Hall. unfold outer_line_points.
    apply PointFacts.findNonZero_none, LineFacts.no_member_nil.
    destruct (HitFacts.outer_map d edges nr nc Hd Hm Hr Hc 0 0 Hr Hc) as [Hos _].
    intros [x y] Hin.
    apply (PointFacts.nonzero_points_in _ nr nc _ _ Hos) in Hin.
    destruct Hin as (r & c & _ & _ & Hrr & Hcc & Hnz).
    apply (HitFacts.outer_map d edges nr nc Hd Hm Hr Hc r c Hrr Hcc) in Hnz.
    destruct Hnz as (_ & y' & x' & Hy' & Hx' & _ & Hnz' & Hoff).
    rewrite (Hall y' x' Hy' Hx' Hnz') in Hoff. discriminate.
Qed.

Lemma no_points_iff_edges_on_start_line_witness :
  let same := fun roi : image => roi in
  let roi := [[9; 0; 0]; [0; 0; 0]; [4; 0; 0]] in
  findLinesPoints same same roi (1, 0) = None
  /\ forall y x, (y < 3)%nat -> (x < 3)%nat ->
       px roi y x <> 0 -> on_start_line (1, 0) 3 3 y x = true.
Proof.
  intros same roi. split; [reflexivity|].
  assert (Hs : has_shape (same (same roi)) 3 3)
    by (split; [reflexivity | repeat constructor]).
  exact (proj1 (no_points_iff_edges_on_start_line same same roi (1, 0) 3 3
                  eq_refl Hs (Nat.lt_0_succ 2) (Nat.lt_0_succ 2)) eq_refl).
Defined.

(** X5: findLinesPoints returns at most one point for each scan line:
    the points have pairwise different y for a horizontal direction and
    pairwise different x for a vertical one, so there are at most as many
    points as the map has rows, respectively columns, and at least one;
    every point lies inside the map. *)
Theorem one_point_per_scan_line
        (cv_morph_open cv_Canny : image -> image) (roi : image)
        (d : direction) (nr nc : nat) (pts : list (Z * Z)) :
  valid_direction d = true ->
  has_shape (cv_Canny (cv_morph_open roi)) nr nc ->
  (0 < nr)%nat -> (0 < nc)%nat ->
  findLinesPoints cv_morph_open cv_Canny roi d = Some pts ->
  NoDup (map (scan_line d) pts)
  /\ (1 <= length pts <= scan_lines d nr nc)%nat
  /\ Forall (fun p => 0 <= fst p < Z.of_nat nc /\ 0 <= snd p < Z.of_nat nr) pts.
Proof.
  intros Hd Hm Hr Hc Hrun. unfold findLinesPoints in Hrun.
  exact (LineFacts.outer_points_bound d _ nr nc pts Hd Hm Hr Hc Hrun).
Qed.

Lemma one_point_per_scan_line_witness :
  let same := fun roi : image => roi in
  let roi := [[0; 0; 5; 0]; [0; 3; 0; 4]; [7; 0; 0; 0]] in
  findLinesPoints same same roi (0, 1) = Some [(2, 0); (1, 1); (3, 1)]
  /\ NoDup (map (scan_line (0, 1)) [(2, 0); (1, 1); (3, 1)]).
Proof.
  intros same roi. split; [reflexivity|].
  assert (Hs : has_shape (same (same roi)) 3 4)
    by (split; [reflexivity | repeat constructor]).
  exact (proj1 (one_point_per_scan_line same same roi (0, 1) 3 4
                  [(2, 0); (1, 1); (3, 1)] eq_refl Hs
                  (Nat.lt_0_succ 2) (Nat.lt_0_succ 3) eq_refl)).
Defined.

(** * The arc examination as a whole *)

Module RasterFacts.

Import ImgFacts PolarFacts.

Lemma threshold_shape (t : Z) (m : image) (nr nc : nat) :
  has_shape m nr nc -> has_shape (threshold_tozero t m) nr nc.
Proof.
  intros [Hl Hf]. unfold threshold_tozero. split; [now rewrite length_map|].
  apply Forall_forall. intros row Hin. apply in_map_iff in Hin.
  destruct Hin as (row' & <- & Hin'). rewrite length_map.
  rewrite Forall_forall in Hf. now apply Hf.
Qed.

Lemma px_threshold (t : Z) (m : image) (r c : nat) :
  px (threshold_tozero t m) r c = if t <? px m r c then px m r c else 0.
Proof.
  unfold px, threshold_tozero.
  set (f := fun v => if t <? v then v else 0).
  assert (Hrow : nth r (map (map f) m) [] = map f (nth r m [])).
  { change (@nil Z) with (map f []) at 1. apply map_nth. }
  rewrite Hrow.
  destruct (Nat.lt_ge_cases c (length (nth r m []))) as [Hc|Hc].
  - rewrite (nth_indep _ 0 (f 0)) by (now rewrite length_map).
    now rewrite map_nth.
  - rewrite !nth_overflow by (rewrite ?length_map; lia).
    now destruct (t <? 0).
Qed.

(** What a successful transform has run through. *)
Lemma polarTransform_run (math_sin math_cos : float -> float) (roi : image)
      (start_point r : Z * Z) (theta theta_inc : float) (out : image) :
  polarTransform math_sin math_cos roi start_point r theta theta_inc = Ok out ->
  exists nr nc angles,
    polar_shape r theta theta_inc = Ok (nr, nc)
    /\ np_arange theta theta_inc = Ok angles
    /\ foldM (polar_ray math_sin math_cos roi r theta_inc) angles (zeros nr nc)
       = Ok out.
Proof.
  unfold polarTransform. intros H.
  apply bind_ok in H. destruct H as ([nr nc] & Hs & H).
  apply bind_ok in H. destruct H as (angles & Ha & H).
  exists nr, nc, angles. auto.
Qed.

(** The radius band and the angles of the call in findArcPoint. *)
Lemma configured_band :
  int_of_float (PX2MM * 1) = Ok 145 /\ int_of_float (PX2MM * 2.25) = Ok 326.
Proof. split; vm_compute; reflexivity. Qed.

Lemma configured_shape : polar_shape (145, 326) 90 0.25 = Ok (181%nat, 361%nat).
Proof. vm_compute. reflexivity. Qed.

Lemma configured_angles :
  np_arange 90 0.25 = Ok (map configured_angle (seq 0 360)).
Proof.
  unfold np_arange.
  replace (truediv (90 - 0) 0.25) with (Ok 360%float) by (vm_compute; reflexivity).
  cbn [bind].
  replace (ceil_of_float 360) with (Ok 360) by (vm_compute; reflexivity).
  reflexivity.
Qed.

Lemma configured_columns (i : nat) :
  (i < 360)%nat -> raster_column 361 (configured_angle i) 0.25 = Ok i.
Proof.
  intros Hi.
  assert (Hall : forallb (fun i => match raster_column 361 (configured_angle i) 0.25 with
                                   | Ok c => Nat.eqb c i
                                   | Raise _ => false
                                   end) (seq 0 360) = true)
    by (vm_compute; reflexivity).
  rewrite forallb_forall in Hall.
  specialize (Hall i ltac:(apply in_seq; lia)).
  destruct (raster_column 361 (configured_angle i) 0.25); [|discriminate].
  apply Nat.eqb_eq in Hall. now subst.
Qed.

Lemma configured_raster_shape (math_sin math_cos : float -> float) (roi : image)
      (start_point : Z * Z) (out : image) :
  polarTransform math_sin math_cos roi start_point (145, 326) 90 0.25 = Ok out ->
  has_shape out 181 361.
Proof.
  intros H. apply polarTransform_run in H.
  destruct H as (nr & nc & angles & Hs & _ & Hrun).
  rewrite configured_shape in Hs. injection Hs as <- <-.
  now destruct (polar_rays_ok math_sin math_cos roi (145, 326) 0.25 181 361
                  eq_refl angles (zeros 181 361) out (tabulate_shape _ _ _) Hrun).
Qed.

End RasterFacts.

Module ConfiguredFacts.

Import ImgFacts PolarFacts RasterFacts.

(** The raster of the configured call, column by column. *)
Lemma configured_raster (math_sin math_cos : float -> float) (roi : image)
      (start_point : Z * Z) (out : image) :
  polarTransform math_sin math_cos roi start_point (145, 326) 90 0.25 = Ok out ->
  has_shape out 181 361
  /\ (forall rr, px out rr 360 = 0)
  /\ forall (i : nat) (R : Z),
       (i < 360)%nat -> 145 <= R < 326 ->
       exists x y v,
         polar_sample math_sin math_cos (145, 326) (configured_angle i) R
         = Ok (x, y)
         /\ item roi x y = Ok v
         /\ px out (Z.to_nat (R - 145)) i = v.
Proof.
  intros Hrun.
  pose proof (configured_raster_shape _ _ _ _ _ Hrun) as Hshape.
  apply polarTransform_run in Hrun.
  destruct Hrun as (nr & nc & angles & Hs & Ha & Hrun).
  rewrite configured_shape in Hs. injection Hs as <- <-.
  rewrite configured_angles in Ha.
  assert (Ha' : map configured_angle (seq 0 360) = angles) by congruence.
  clear Ha. subst angles.
  destruct (polar_rays_ok math_sin math_cos roi (145, 326) 0.25 181 361
              eq_refl _ (zeros 181 361) out (tabulate_shape _ _ _) Hrun)
    as (_ & Hkeep & Hwritten).
  assert (Hnth : forall j alpha,
            nth_error (map configured_angle (seq 0 360)) j = Some alpha ->
            (j < 360)%nat /\ alpha = configured_angle j).
  { intros j alpha Hj.
    assert (Hlt : (j < 360)%nat).
    { rewrite <- (length_seq 360 0), <- (length_map configured_angle).
      apply nth_error_Some. congruence. }
    split; [exact Hlt|].
    rewrite (nth_error_nth' _ 0%float) in Hj by (now rewrite length_map, length_seq).
    rewrite (nth_map_seq configured_angle 360 j) in Hj
      by exact Hlt.
    congruence. }
  split; [exact Hshape|]. split.
  - intros rr. rewrite Hkeep.
    + apply ZeroFacts.px_all_zero. now apply ZeroFacts.tabulate_all_zero.
    + intros alpha cn Hin Hcn.
      destruct (In_nth_error _ _ Hin) as [j Hj].
      destruct (Hnth j alpha Hj) as [Hlt ->].
      rewrite (configured_columns j Hlt) in Hcn.
      injection Hcn as <-. lia.
  - intros i R Hi HR.
    assert (Hi' : nth_error (map configured_angle (seq 0 360)) i
                  = Some (configured_angle i)).
    { rewrite (nth_error_nth' _ 0%float) by (now rewrite length_map, length_seq).
      now rewrite (nth_map_seq configured_angle 360 i). }
    destruct (Hwritten i _ R Hi' HR) as (x & y & c & cn & v & Hsample & Hc & Hcn & Hv & Hpx).
    + intros j' alpha' Hlt Hj'. destruct (Hnth j' alpha' Hj') as [Hlt' ->].
      rewrite !configured_columns by assumption.
      intros H; injection H as H. lia.
    + exists x, y, v. split; [exact Hsample|]. split; [exact Hv|].
      assert (Hcol : raster_column 361 (configured_angle i) 0.25 = Ok cn)
        by (unfold raster_column; now rewrite Hc).
      rewrite (configured_columns i Hi) in Hcol.
      injection Hcol as <-. exact Hpx.
Qed.

End ConfiguredFacts.

Module PipelineFacts.

Import ImgFacts PolarFacts RasterFacts StoreFacts.



Section AfterCentre.

Variable cv_filter2D : image -> list (list Z) -> image.
Variables cv_morph_open cv_Canny : image -> image.
Variable np_linalg_inv : matrix -> result matrix.
Variable ndimage_rotate : image -> Z -> image.
Variables math_sin math_cos : float -> float.

(** findArcPoint from line 221 on, once the arc region [roi] is cut out. *)
Lemma findArcPoint_after_centre (image : image) (img_shape : Z * Z)
      (line1 line2 : line) (h : heap) (xc yc : float) (ang : Z) (roi : Img.image) :
  arc_centre np_linalg_inv ndimage_rotate image img_shape line1 line2
  = Ok (xc, yc, ang, roi) ->
  findArcPoint cv_filter2D cv_morph_open cv_Canny np_linalg_inv ndimage_rotate
               math_sin math_cos image img_shape line1 line2 h
  = match polarTransform math_sin math_cos roi (0, 0) (145, 326) 90 0.25 with
    | Raise _ => (Ok (None, -1), h)
    | Ok raster =>
        match findLinesPoints cv_morph_open cv_Canny
                (cv_filter2D (threshold_tozero 150 raster) kernel1) (0, 1) with
        | None => (Ok (None, -1), h)
        | Some pts =>
            match findArcPoint_examine (length h) (h ++ [map snd pts]) with
            | (Ok o, h') => (Ok (Some (fst o), snd o), h')
            | (Raise e, h') => (Raise e, h')
            end
        end
    end.
Proof.
  intros Harc. unfold findArcPoint, mbind at 1. unfold lift at 1. rewrite Harc.
  destruct configured_band as [-> ->]. cbn [bind].
  destruct (polarTransform math_sin math_cos roi (0, 0) (145, 326) 90 0.25)
    as [raster|e]; [|reflexivity].
  unfold mbind at 1. unfold lift at 1. cbn [linesFiltration snd fst Z.eqb negb].
  destruct (findLinesPoints _ _ _ _) as [pts|]; [|reflexivity].
  unfold alloc, mbind, ret.
  destruct (findArcPoint_examine _ _) as [[o|e] h']; reflexivity.
Qed.

End AfterCentre.

End PipelineFacts.

Module BoundsFacts.

Import ImgFacts PolarFacts RasterFacts.

(** A loop fails where one of its steps is bound to fail. *)
Lemma foldM_fails {A S : Type} (f : S -> A -> result S) (inv : S -> Prop)
      (e : exn) (l : list A) :
  (forall s a, inv s -> In a l ->
     f s a = Raise e \/ exists s', f s a = Ok s' /\ inv s') ->
  (exists a, In a l /\ forall s, inv s -> f s a = Raise e) ->
  forall s, inv s -> foldM f l s = Raise e.
Proof.
  induction l as [|a l IH]; intros Hstep (b & Hb & Hfail) s Hs; [destruct Hb|].
  simpl. destruct Hb as [<- | Hb].
  - now rewrite (Hfail s Hs).
  - destruct (Hstep s a Hs (or_introl eq_refl)) as [-> | (s' & -> & Hs')];
      [reflexivity|].
    simpl. apply IH; [|exists b; auto|exact Hs'].
    intros s0 a0 Hs0 Ha0. apply Hstep; [exact Hs0 | now right].
Qed.

Lemma index_fails (n : nat) (i : Z) :
  Z.of_nat n <= i -> index n i = Raise IndexError.
Proof.
  intros Hi. unfold index.
  replace (i <? 0) with false by (symmetry; apply Z.ltb_ge; lia).
  replace (i <? Z.of_nat n) with false by (symmetry; apply Z.ltb_ge; lia).
  now rewrite andb_false_r.
Qed.

Lemma index_raises (n : nat) (i : Z) (e : exn) :
  index n i = Raise e -> e = IndexError.
Proof.
  unfold index. destruct ((0 <=? _) && (_ <? _)); [discriminate|].
  now intros H; injection H as <-.
Qed.

Lemma item_raises (m : image) (i j : Z) (e : exn) :
  item m i j = Raise e -> e = IndexError.
Proof.
  unfold item.
  destruct (index (rows m) i) as [r|e1] eqn:E1; simpl;
    [|intros H; injection H as <-; now apply (index_raises _ _ _ E1)].
  destruct (index (cols m) j) as [c|e2] eqn:E2; simpl; [discriminate|].
  intros H; injection H as <-. now apply (index_raises _ _ _ E2).
Qed.

Lemma itemset_in_range (m : image) (nr nc : nat) (i j v : Z) :
  has_shape m nr nc -> 0 <= i < Z.of_nat nr -> 0 <= j < Z.of_nat nc ->
  exists m', itemset m i j v = Ok m' /\ has_shape m' nr nc.
Proof.
  intros Hm Hi Hj. unfold itemset.
  rewrite (shape_rows m nr nc Hm), (shape_cols m nr nc Hm ltac:(lia)).
  rewrite !index_in_range by assumption. simpl.
  eexists. split; [reflexivity | now apply set_px_shape].
Qed.

(** The first ray of the configured transform, with sin 0 = 0 and
    cos 0 = 1: the radius R is read at row 0, column R + 145. *)
Lemma first_ray_products (R : Z) :
  In R (range 145 326) ->
  int_of_float (0 * float_of_int R) = Ok 0
  /\ int_of_float (1 * float_of_int R) = Ok R.
Proof.
  intros HR.
  assert (Hall : forallb (fun R =>
                    match int_of_float (0 * float_of_int R),
                          int_of_float (1 * float_of_int R) with
                    | Ok a, Ok b => (a =? 0) && (b =? R)
                    | _, _ => false
                    end) (range 145 326) = true)
    by (vm_compute; reflexivity).
  rewrite forallb_forall in Hall. specialize (Hall R HR).
  destruct (int_of_float (0 * float_of_int R)) as [a|]; [|discriminate].
  destruct (int_of_float (1 * float_of_int R)) as [b|]; [|discriminate].
  apply andb_true_iff in Hall. destruct Hall as [Ha Hb].
  apply Z.eqb_eq in Ha, Hb. now subst.
Qed.

Section FirstRay.

Variables math_sin math_cos : float -> float.
Hypothesis Hsin : math_sin 0%float = 0%float.
Hypothesis Hcos : math_cos 0%float = 1%float.
Variable roi : image.

Lemma first_ray_step (roi2 : image) (R : Z) :
  In R (range 145 326) ->
  polar_step math_sin math_cos roi (145, 326) 0.25 0 0 145 roi2 R
  = bind (item roi 0 (R + 145)) (fun v => itemset roi2 (R - 145) 0 v).
Proof.
  intros HR. unfold polar_step.
  change (math_radians 0) with 0%float. rewrite Hsin, Hcos.
  destruct (first_ray_products R HR) as [-> ->]. cbn [bind fst].
  replace (polar_column 0 0.25) with (Ok 0) by (vm_compute; reflexivity).
  reflexivity.
Qed.

(** Where the first ray stops: at the conversion for an empty region, at
    the first sample beyond the last column for a narrow one. *)
Lemma first_ray_fails (roi2 : image) :
  (cols roi <= 470)%nat -> has_shape roi2 181 361 ->
  polar_ray math_sin math_cos roi (145, 326) 0.25 roi2 0
  = Raise (if is_empty roi then Cv2Error else IndexError).
Proof.
  intros Hsmall Hs. unfold polar_ray.
  change (math_radians 0) with 0%float. rewrite Hsin, Hcos.
  replace (int_of_float (0 * float_of_int (fst (145, 326)))) with (Ok 0)
    by (vm_compute; reflexivity).
  replace (int_of_float (1 * float_of_int (fst (145, 326)))) with (Ok 145)
    by (vm_compute; reflexivity).
  cbn [bind fst snd]. unfold cvtColor_gray2bgr.
  destruct (is_empty roi); [reflexivity|]. cbn [bind].
  apply (foldM_fails _ (fun m => has_shape m 181 361)); [| |exact Hs].
  - intros s R Hsh HR. rewrite (first_ray_step s R HR).
    destruct (item roi 0 (R + 145)) as [v|e] eqn:Hitem; simpl.
    + right. apply range_spec in HR.
      apply (itemset_in_range s 181 361); (assumption || lia).
    + left. now rewrite (item_raises _ _ _ _ Hitem).
  - exists 325. split; [apply range_spec; lia|].
    intros s Hsh. rewrite (first_ray_step s 325) by (apply range_spec; lia).
    unfold item. destruct (index (rows roi) 0) as [r|e] eqn:E; simpl.
    + now rewrite index_fails by lia.
    + now rewrite (index_raises _ _ _ E).
Qed.

End FirstRay.

End BoundsFacts.

Module StubFacts.

Import ImgFacts PolarFacts RasterFacts BoundsFacts.

(** A loop succeeds where each of its steps does. *)
Lemma foldM_succeeds {A S : Type} (f : S -> A -> result S) (inv : S -> Prop)
      (l : list A) :
  (forall s a, inv s -> In a l -> exists s', f s a = Ok s' /\ inv s') ->
  forall s, inv s -> exists s', foldM f l s = Ok s' /\ inv s'.
Proof.
  induction l as [|a l IH]; intros Hstep s Hs; [now exists s|].
  simpl. destruct (Hstep s a Hs (or_introl eq_refl)) as (s1 & -> & Hs1).
  simpl. apply IH; [|exact Hs1].
  intros s0 a0 Hs0 Ha0. apply Hstep; [exact Hs0 | now right].
Qed.

Section Constant.

(** A sine that is 0 and a cosine that is 1 at every angle: each ray then
    runs along row 0 of the region. *)
Variables math_sin math_cos : float -> float.
Hypothesis Hsin : forall x, math_sin x = 0%float.
Hypothesis Hcos : forall x, math_cos x = 1%float.
Variable roi : image.
Variables nr nc : nat.
Hypothesis Hroi : has_shape roi nr nc.
Hypothesis Hnr : (0 < nr)%nat.
Hypothesis Hnc : (471 <= nc)%nat.

Lemma constant_ray (i : nat) (roi2 : image) :
  (i < 360)%nat -> has_shape roi2 181 361 ->
  exists roi2',
    polar_ray math_sin math_cos roi (145, 326) 0.25 roi2 (configured_angle i)
    = Ok roi2'
    /\ has_shape roi2' 181 361.
Proof.
  intros Hi Hs. unfold polar_ray. rewrite Hsin, Hcos.
  replace (int_of_float (0 * float_of_int (fst (145, 326)))) with (Ok 0)
    by (vm_compute; reflexivity).
  replace (int_of_float (1 * float_of_int (fst (145, 326)))) with (Ok 145)
    by (vm_compute; reflexivity).
  cbn [bind fst snd].
  assert (Hne : is_empty roi = false).
  { unfold is_empty. rewrite (shape_rows roi nr nc Hroi), (shape_cols roi nr nc Hroi Hnr).
    apply orb_false_iff. split; apply Nat.eqb_neq; lia. }
  unfold cvtColor_gray2bgr. rewrite Hne. cbn [bind].
  pose proof (configured_columns i Hi) as Hcol. unfold raster_column in Hcol.
  apply bind_ok in Hcol. destruct Hcol as (c & Hc & Hidx).
  apply (foldM_succeeds _ (fun m => has_shape m 181 361)); [|exact Hs].
  intros s R Hsh HR. unfold polar_step. rewrite Hsin, Hcos.
  destruct (first_ray_products R HR) as [-> ->]. cbn [bind fst].
  rewrite Hc. cbn [bind]. cbv zeta. change (0 + 0) with 0.
  apply range_spec in HR.
  rewrite (item_ok roi nr nc 0 (R + 145) 0%nat (Z.to_nat (R + 145)) Hroi Hnr)
    by (apply index_in_range; lia).
  cbn [bind]. unfold itemset.
  rewrite (shape_rows s 181 361 Hsh), (shape_cols s 181 361 Hsh ltac:(lia)).
  rewrite (index_in_range 181 (R - 145)) by lia. rewrite Hidx. cbn [bind].
  eexists. split; [reflexivity | now apply set_px_shape].
Qed.

Lemma constant_transform (start_point : Z * Z) :
  exists out,
    polarTransform math_sin math_cos roi start_point (145, 326) 90 0.25 = Ok out.
Proof.
  unfold polarTransform. rewrite configured_shape, configured_angles.
  cbn [bind fst snd].
  destruct (foldM_succeeds (polar_ray math_sin math_cos roi (145, 326) 0.25)
              (fun m => has_shape m 181 361)
              (map configured_angle (seq 0 360))) with (s := zeros 181 361)
    as (out & Hout & _).
  - intros s a Hs Ha. apply in_map_iff in Ha. destruct Ha as (i & <- & Hi).
    apply in_seq in Hi. apply constant_ray; [lia | exact Hs].
  - apply tabulate_shape.
  - now exists out.
Qed.

End Constant.

End StubFacts.

(** ** The arc examination after the region is cut out *)



(** X7: a region too small for the configured transform yields no
    verdict.  With sin 0 = 0 and cos 0 = 1, as the C library gives them,
    the first ray converts the region for display and then reads it at
    row 0, columns 290 to 470.  When the region has at most 470 columns,
    polarTransform raises: the error of OpenCV when the region is empty
    (no row or no column), at the conversion, which comes before any
    read; IndexError otherwise, at the first read beyond the last
    column.  In both cases findArcPoint, whose handler catches every
    exception of the transform, returns -1 without a verdict and leaves
    the store untouched. *)
Theorem small_region_gives_no_arc
        (math_sin math_cos : float -> float) (roi : image) (start_point : Z * Z) :
  math_sin 0%float = 0%float -> math_cos 0%float = 1%float ->
  (cols roi <= 470)%nat ->
  polarTransform math_sin math_cos roi start_point (145, 326) 90 0.25
  = Raise (if is_empty roi then Cv2Error else IndexError)
  /\ forall (cv_filter2D : image -> list (list Z) -> image)
            (cv_morph_open cv_Canny : image -> image)
            (np_linalg_inv : matrix -> result matrix)
            (ndimage_rotate : image -> Z -> image)
            (image : image) (img_shape : Z * Z) (line1 line2 : line) (h : heap)
            (xc yc : float) (ang : Z),
       arc_centre np_linalg_inv ndimage_rotate image img_shape line1 line2
       = Ok (xc, yc, ang, roi) ->
       findArcPoint cv_filter2D cv_morph_open cv_Canny np_linalg_inv ndimage_rotate
                    math_sin math_cos image img_shape line1 line2 h
       = (Ok (None, -1), h).
Proof.
  intros Hsin Hcos Hsmall.
  assert (Hfail : forall sp, polarTransform math_sin math_cos roi sp (145, 326) 90 0.25
                             = Raise (if is_empty roi then Cv2Error else IndexError)).
  { intros sp. unfold polarTransform.
    rewrite RasterFacts.configured_shape, RasterFacts.configured_angles.
    cbn [bind fst snd].
    change (seq 0 360) with (0 :: seq 1 359)%nat.
    cbn [map foldM].
    change (configured_angle 0) with 0%float.
    rewrite (BoundsFacts.first_ray_fails math_sin math_cos Hsin Hcos roi
               (zeros 181 361) Hsmall (ImgFacts.tabulate_shape _ _ _)).
    reflexivity. }
  split; [apply Hfail|].
  intros cv_filter2D cv_morph_open cv_Canny np_linalg_inv ndimage_rotate
         image img_shape line1 line2 h xc yc ang Harc.
  rewrite (PipelineFacts.findArcPoint_after_centre _ _ _ _ _ _ _ _ _ _ _ _ _ _ _ _ Harc).
  now rewrite Hfail.
Qed.

Lemma small_region_gives_no_arc_witness :
  let sin0 := fun _ : float => 0%float in
  let cos0 := fun _ : float => 1%float in
  let roi := [repeat 7 470] in
  (cols roi = 470%nat /\ is_empty roi = false)
  /\ polarTransform sin0 cos0 roi (0, 0) (145, 326) 90 0.25 = Raise IndexError.
Proof.
  intros sin0 cos0 roi. split; [split; reflexivity|].
  refine (proj1 (small_region_gives_no_arc sin0 cos0 roi (0, 0) eq_refl eq_refl _)).
  apply Nat.leb_le. vm_compute. reflexivity.
Defined.

(** X8: the raster of the configured call.  For every region and
    whatever sine and cosine return, a successful transform gives a
    raster of 181 rows and 361 columns in which column i, for i below
    360, holds the ray of the angle of index i, that is i * 0.25
    degrees: the cell in row R - 145 is the sample the transform reads
    for that angle and the radius R, for every 145 <= R < 326.  Column
    360 is never written: it is blank in every row. *)
Theorem configured_raster_columns
        (math_sin math_cos : float -> float) (roi : image)
        (start_point : Z * Z) (out : image) :
  polarTransform math_sin math_cos roi start_point (145, 326) 90 0.25 = Ok out ->
  has_shape out 181 361
  /\ (forall rr, px out rr 360 = 0)
  /\ forall (i : nat) (R : Z),
       (i < 360)%nat -> 145 <= R < 326 ->
       exists x y v,
         polar_sample math_sin math_cos (145, 326) (configured_angle i) R
         = Ok (x, y)
         /\ item roi x y = Ok v
         /\ px out (Z.to_nat (R - 145)) i = v.
Proof. exact (ConfiguredFacts.configured_raster math_sin math_cos roi start_point out). Qed.

Lemma configured_raster_columns_witness :
  let sin0 := fun _ : float => 0%float in
  let cos0 := fun _ : float => 1%float in
  let roi := [repeat 0 420 ++ [200] ++ repeat 0 50] in
  exists out,
    polarTransform sin0 cos0 roi (0, 0) (145, 326) 90 0.25 = Ok out
    /\ has_shape out 181 361 /\ px out 130 359 = 200 /\ px out 130 360 = 0.
Proof.
  intros sin0 cos0 roi.
  assert (Hroi : has_shape roi 1 471) by (split; [reflexivity | repeat constructor]).
  destruct (StubFacts.constant_transform sin0 cos0 (fun _ => eq_refl) (fun _ => eq_refl)
              roi 1 471 Hroi (Nat.le_refl 1) (Nat.le_refl 471) (0, 0)) as [out E].
  exists out. split; [exact E|].
  destruct (configured_raster_columns sin0 cos0 roi (0, 0) out E) as (Hs & Hblank & Hcol).
  split; [exact Hs|]. split; [|apply Hblank].
  destruct (Hcol 359%nat 275 ltac:(lia) ltac:(lia)) as (x & y & v & Hxy & Hv & Hpx).
  vm_compute in Hxy. injection Hxy as <- <-.
  vm_compute in Hv. injection Hv as <-. exact Hpx.
Defined.

(** * Order statistics of the sorted list *)

Module MedianFacts.

Import StoreFacts SortFacts ListFacts.

Lemma filter_length_perm {A} (f : A -> bool) (l l' : list A) :
  Permutation l l' -> length (filter f l) = length (filter f l').
Proof.
  induction 1 as [|x l l' _ IH|x y l|l l' l'' _ IH1 _ IH2]; simpl.
  - reflexivity.
  - destruct (f x); simpl; congruence.
  - destruct (f x), (f y); reflexivity.
  - congruence.
Qed.

Lemma sum_perm (l l' : list Z) : Permutation l l' -> sum l = sum l'.
Proof.
  intros H. rewrite !sum_fold_right.
  induction H as [|x l l' _ IH|x y l|l l' l'' _ IH1 _ IH2]; simpl; lia.
Qed.

Lemma sorted_strongly (l : list Z) : Sorted Z.le l -> StronglySorted Z.le l.
Proof. apply Sorted_StronglySorted. intros x y z; lia. Qed.

(** In an ascending list a later position holds no smaller value. *)
Lemma sorted_nth (l : list Z) (i j : nat) :
  Sorted Z.le l -> (i <= j)%nat -> (j < length l)%nat ->
  nth i l 0 <= nth j l 0.
Proof.
  intros Hs. apply sorted_strongly in Hs.
  revert i j; induction Hs as [|a l Hs IH Ha]; intros i j Hij Hj; simpl in Hj; [lia|].
  destruct i as [|i], j as [|j]; simpl; try lia.
  - rewrite Forall_forall in Ha. apply Ha, nth_In. lia.
  - apply IH; lia.
Qed.

Lemma filter_all {A} (f : A -> bool) (l : list A) :
  (forall a, In a l -> f a = true) -> filter f l = l.
Proof.
  induction l as [|a l IH]; intros H; simpl; [reflexivity|].
  rewrite (H a (or_introl eq_refl)). f_equal. apply IH. intros b Hb. apply H. now right.
Qed.

Lemma in_firstn_nth (l : list Z) (k : nat) (a : Z) :
  In a (firstn k l) -> exists i, (i < k)%nat /\ (i < length l)%nat /\ nth i l 0 = a.
Proof.
  revert k; induction l as [|x l IH]; intros [|k] H; simpl in H; try destruct H.
  - exists 0%nat. simpl. repeat split; (lia || assumption).
  - destruct (IH k H) as (i & Hi & Hl & Hn). exists (S i). simpl.
    repeat split; (lia || assumption).
Qed.

Lemma in_skipn_nth (l : list Z) (k : nat) (a : Z) :
  In a (skipn k l) -> exists i, (k <= i)%nat /\ (i < length l)%nat /\ nth i l 0 = a.
Proof.
  revert k; induction l as [|x l IH]; intros [|k] H; simpl in H; try destruct H.
  - exists 0%nat. simpl. repeat split; (lia || assumption).
  - destruct (In_nth _ _ 0 H) as (i & Hi & Hn). exists (S i). simpl.
    repeat split; (lia || assumption).
  - destruct (IH k H) as (i & Hi & Hl & Hn). exists (S i). simpl.
    repeat split; (lia || assumption).
Qed.

(** The value at position [k] of an ascending list has at least [k + 1]
    values at most it, and all the values from [k] on at least it. *)
Lemma sorted_counts (l : list Z) (k : nat) :
  Sorted Z.le l -> (k < length l)%nat ->
  (k + 1 <= count_le (nth k l 0%Z) l)%nat
  /\ (length l - k <= count_ge (nth k l 0%Z) l)%nat.
Proof.
  intros Hs Hk. unfold count_le, count_ge.
  assert (Hlow : forall a, In a (firstn (k + 1) l) -> (a <=? nth k l 0) = true).
  { intros a Ha. apply in_firstn_nth in Ha. destruct Ha as (i & Hi & Hl & <-).
    apply Z.leb_le. apply sorted_nth; (assumption || lia). }
  assert (Hhigh : forall a, In a (skipn k l) -> (nth k l 0 <=? a) = true).
  { intros a Ha. apply in_skipn_nth in Ha. destruct Ha as (i & Hi & Hl & <-).
    apply Z.leb_le. apply sorted_nth; (assumption || lia). }
  revert Hlow Hhigh. generalize (nth k l 0) as m. intros m Hlow Hhigh. split.
  - rewrite <- (firstn_skipn (k + 1) l) at 1. rewrite filter_app, length_app.
    rewrite (filter_all (fun x => x <=? m) _ Hlow), length_firstn. lia.
  - rewrite <- (firstn_skipn k l) at 2. rewrite filter_app, length_app.
    rewrite (filter_all (fun x => m <=? x) _ Hhigh), length_skipn. lia.
Qed.

(** An ascending list is the only ascending arrangement of its values. *)
Lemma sorted_unique (l l' : list Z) :
  Sorted Z.le l -> Sorted Z.le l' -> Permutation l l' -> l = l'.
Proof.
  intros Hs Hs'. apply sorted_strongly in Hs, Hs'.
  revert l' Hs'; induction Hs as [|a l Hs IH Ha]; intros l' Hs' Hp.
  - now apply Permutation_nil in Hp.
  - destruct Hs' as [|b l' Hs' Hb]; [now apply Permutation_sym, Permutation_nil in Hp|].
    assert (Hab : a = b).
    { rewrite Forall_forall in Ha, Hb.
      assert (Hb_in : In b (a :: l))
        by (apply (Permutation_in b (Permutation_sym Hp)); now left).
      assert (Ha_in : In a (b :: l')) by (apply (Permutation_in a Hp); now left).
      destruct Hb_in as [|Hb_in]; [assumption|].
      destruct Ha_in as [|Ha_in]; [congruence|].
      specialize (Ha b Hb_in). specialize (Hb a Ha_in). lia. }
    subst b. f_equal. apply IH; [assumption|].
    now apply Permutation_cons_inv in Hp.
Qed.

Lemma sort_sorted (l : list Z) : Sorted Z.le l -> ZSort.sort l = l.
Proof.
  intros Hs. apply sorted_unique; [apply sort_ascending | assumption |].
  apply Permutation_sym, ZSort.Permuted_sort.
Qed.

Lemma sort_idempotent (l : list Z) : ZSort.sort (ZSort.sort l) = ZSort.sort l.
Proof. apply sort_sorted, sort_ascending. Qed.

End MedianFacts.

(** ** More about the statistics *)

(** X9: on the empty sequence mediana does not fail: it returns 0.0 and
    leaves the store as it is, while wariancja and odchylenie stop with
    ZeroDivisionError, like the mean. *)
Theorem statistics_on_empty_sequence (h : heap) (p : ref) (srednia : float) :
  nth_error h p = Some [] ->
  ExamineArc.mediana p h = (Ok (ExamineArc.Float 0), h)
  /\ ExamineArc.wariancja p srednia h = (Raise ZeroDivisionError, h)
  /\ ExamineArc.odchylenie p srednia h = (Raise ZeroDivisionError, h).
Proof.
  intros Hp.
  assert (Hw : ExamineArc.wariancja p srednia h = (Raise ZeroDivisionError, h)).
  { unfold ExamineArc.wariancja, mbind, load, lift.
    rewrite (StoreFacts.deref_lookup h p [] Hp). reflexivity. }
  split; [|split; [exact Hw|]].
  - rewrite (StatsFacts.mediana_run h p [] Hp).
    rewrite SortFacts.sort_nil, (StoreFacts.update_same h p [] Hp). reflexivity.
  - unfold ExamineArc.odchylenie, mbind. now rewrite Hw.
Qed.

Lemma statistics_on_empty_sequence_witness :
  ExamineArc.mediana 1%nat [[3; 1]; []] = (Ok (ExamineArc.Float 0), [[3; 1]; []])
  /\ ExamineArc.odchylenie 1%nat 0%float [[3; 1]; []]
     = (Raise ZeroDivisionError, [[3; 1]; []]).
Proof.
  destruct (statistics_on_empty_sequence [[3; 1]; []] 1%nat 0%float eq_refl)
    as (Hm & _ & Ho).
  split; [exact Hm | exact Ho].
Defined.

(** X10: the mean does not depend on the order of the values: srednia
    gives one and the same outcome, value or exception, on two lists that
    are permutations of each other, and in particular the same outcome
    before and after mediana has sorted the list in place. *)
Theorem srednia_ignores_order (h h' : heap) (p p' : ref) (l l' : list Z) :
  nth_error h p = Some l -> nth_error h' p' = Some l' -> Permutation l l' ->
  fst (ExamineArc.srednia p h) = fst (ExamineArc.srednia p' h')
  /\ fst (ExamineArc.srednia p (snd (ExamineArc.mediana p h)))
     = fst (ExamineArc.srednia p h).
Proof.
  intros Hp Hp' Hperm.
  assert (Hrun : forall h0 p0 l0, nth_error h0 p0 = Some l0 ->
            fst (ExamineArc.srednia p0 h0)
            = truediv (float_of_int (Py.sum l0)) (float_of_int (Z.of_nat (length l0)))).
  { intros h0 p0 l0 H0. unfold ExamineArc.srednia, mbind, load, lift.
    now rewrite (StoreFacts.deref_lookup h0 p0 l0 H0). }
  split.
  - rewrite (Hrun h p l Hp), (Hrun h' p' l' Hp').
    now rewrite (MedianFacts.sum_perm l l' Hperm), (Permutation_length Hperm).
  - rewrite (StatsFacts.mediana_run h p l Hp). cbn [snd].
    rewrite (Hrun _ p (ZSort.sort l) (StoreFacts.update_lookup h p l _ Hp)).
    rewrite (Hrun h p l Hp).
    rewrite <- (MedianFacts.sum_perm l _ (ZSort.Permuted_sort l)).
    now rewrite SortFacts.sort_length.
Qed.

Lemma srednia_ignores_order_witness :
  fst (ExamineArc.srednia 0%nat [[130; 128; 131]])
  = fst (ExamineArc.srednia 1%nat [[]; [131; 130; 128]]).
Proof.
  refine (proj1 (srednia_ignores_order [[130; 128; 131]] [[]; [131; 130; 128]]
                   0%nat 1%nat [130; 128; 131] [131; 130; 128] eq_refl eq_refl _)).
  apply (perm_trans (l' := [130; 131; 128])).
  - apply perm_skip, perm_swap.
  - apply perm_swap.
Defined.

(** X11: what mediana returns is a median of the values.  For an odd
    number of values it is one of them, and more than half of the values
    are at most it and more than half at least it.  For an even number it
    is (a + b) / 2 as a float, for two values a <= b of the list such
    that at least half of the values are at most a and at least half are
    at least b.  On a non-empty sequence of radial positions
    (non-negative pixel indices whose sum stays below 2^31, so that the
    sum of the two central values and its conversion to float stay in
    range) mediana does not raise. *)
Theorem mediana_is_central (h : heap) (p : ref) (pts : list Z) :
  nth_error h p = Some pts -> pts <> [] -> radial_positions pts ->
  match fst (ExamineArc.mediana p h) with
  | Ok (ExamineArc.Int m) =>
      Nat.odd (length pts) = true /\ In m pts
      /\ (length pts < 2 * count_le m pts)%nat
      /\ (length pts < 2 * count_ge m pts)%nat
  | Ok (ExamineArc.Float x) =>
      Nat.even (length pts) = true
      /\ exists a b, In a pts /\ In b pts /\ a <= b
           /\ x = (float_of_int (a + b) / 2)%float
           /\ (length pts <= 2 * count_le a pts)%nat
           /\ (length pts <= 2 * count_ge b pts)%nat
  | Raise _ => False
  end.
Proof.
  intros Hp Hne _. rewrite (StatsFacts.mediana_run h p pts Hp). cbn [fst].
  unfold sorted_midpoint.
  pose proof (ZSort.Permuted_sort pts) as Hperm.
  pose proof (SortFacts.sort_ascending pts) as Hsorted.
  pose proof (SortFacts.sort_length pts) as Hlen.
  assert (Hpos : (0 < length pts)%nat) by (destruct pts; [congruence | simpl; lia]).
  assert (Hin : forall k, (k < length pts)%nat -> In (nth k (ZSort.sort pts) 0) pts).
  { intros k Hk. apply (Permutation_in _ (Permutation_sym Hperm)).
    apply nth_In. lia. }
  assert (Hcount : forall k, (k < length pts)%nat ->
            (k + 1 <= count_le (nth k (ZSort.sort pts) 0%Z) pts)%nat
            /\ (length pts - k <= count_ge (nth k (ZSort.sort pts) 0%Z) pts)%nat).
  { intros k Hk.
    destruct (MedianFacts.sorted_counts (ZSort.sort pts) k Hsorted ltac:(lia)) as [H1 H2].
    unfold count_le, count_ge in *.
    rewrite <- (MedianFacts.filter_length_perm _ _ _ Hperm) in H1.
    rewrite <- (MedianFacts.filter_length_perm _ _ _ Hperm) in H2.
    rewrite Hlen in H2. split; assumption. }
  destruct (Nat.even (length pts)) eqn:He.
  - split; [reflexivity|].
    apply Nat.even_spec in He. destruct He as [q Hq].
    assert (Hdiv : (length pts / 2 = q)%nat)
      by (rewrite Hq, Nat.mul_comm; apply Nat.div_mul; lia).
    rewrite Hdiv.
    exists (nth (q - 1) (ZSort.sort pts) 0), (nth q (ZSort.sort pts) 0).
    destruct (Hcount (q - 1)%nat ltac:(lia)) as [Hle _].
    destruct (Hcount q ltac:(lia)) as [_ Hge].
    split; [apply Hin; lia|]. split; [apply Hin; lia|].
    split; [apply MedianFacts.sorted_nth; (assumption || lia)|].
    split; [reflexivity|]. split; lia.
  - assert (Ho : Nat.odd (length pts) = true)
      by (rewrite <- Nat.negb_even, He; reflexivity).
    split; [exact Ho|].
    apply Nat.odd_spec in Ho. destruct Ho as [q Hq].
    assert (Hdiv : (length pts / 2 = q)%nat).
    { rewrite Hq. rewrite Nat.add_comm, Nat.mul_comm, Nat.div_add by lia.
      reflexivity. }
    rewrite Hdiv.
    destruct (Hcount q ltac:(lia)) as [Hle Hge].
    split; [apply Hin; lia|]. split; lia.
Qed.

Lemma mediana_is_central_witness :
  let pts := [130; 128; 131; 129; 140] in
  radial_positions pts
  /\ fst (ExamineArc.mediana 0%nat [pts]) = Ok (ExamineArc.Int 130)
  /\ (length pts < 2 * count_le 130 pts)%nat
  /\ (length pts < 2 * count_ge 130 pts)%nat.
Proof.
  intros pts.
  assert (Hne : pts <> []) by discriminate.
  assert (Hr : radial_positions pts) by (unfold radial_positions; split; [repeat constructor; lia | simpl; lia]).
  pose proof (mediana_is_central [pts] 0%nat pts eq_refl Hne Hr) as H.
  change (fst (ExamineArc.mediana 0%nat [pts])) with
    (@Ok ExamineArc.number (ExamineArc.Int 130)) in H.
  split; [exact Hr|]. split; [reflexivity|].
  destruct H as (_ & _ & H1 & H2). split; assumption.
Defined.

(** X12: mediana is idempotent: a second call on the same list object
    returns what the first call returned and leaves the store as the
    first call left it. *)
Theorem mediana_twice (h : heap) (p : ref) (pts : list Z) :
  nth_error h p = Some pts ->
  let first := ExamineArc.mediana p h in
  ExamineArc.mediana p (snd first) = first.
Proof.
  intros Hp first. unfold first.
  rewrite (StatsFacts.mediana_run h p pts Hp). cbn [snd].
  pose proof (StoreFacts.update_lookup h p pts (ZSort.sort pts) Hp) as Hp'.
  rewrite (StatsFacts.mediana_run _ p (ZSort.sort pts) Hp').
  rewrite MedianFacts.sort_idempotent.
  rewrite (StoreFacts.update_same _ p _ Hp').
  unfold sorted_midpoint.
  now rewrite MedianFacts.sort_idempotent, SortFacts.sort_length.
Qed.

Lemma mediana_twice_witness :
  let h := [[130; 128; 131; 129]] in
  ExamineArc.mediana 0%nat (snd (ExamineArc.mediana 0%nat h))
  = (Ok (ExamineArc.Float 129.5), [[128; 129; 130; 131]]).
Proof.
  intros h.
  rewrite (mediana_twice h 0%nat [130; 128; 131; 129] eq_refl).
  reflexivity.
Defined.

(** * The search box *)

Module BoxFacts.

Import ImgFacts RasterFacts.

Lemma slice_inside {A} (l : list A) (a n : Z) :
  0 <= a -> 0 <= n -> a + n <= Z.of_nat (length l) ->
  slice l a (a + n) = firstn (Z.to_nat n) (skipn (Z.to_nat a) l).
Proof.
  intros Ha Hn Hl. unfold slice, clamp.
  replace (a <? 0) with false by (symmetry; apply Z.ltb_ge; lia).
  replace (a + n <? 0) with false by (symmetry; apply Z.ltb_ge; lia).
  rewrite !Z.min_l by lia. f_equal. lia.
Qed.

Lemma nth_window {A} (l : list A) (a n i : nat) (d : A) :
  (i < n)%nat -> nth i (firstn n (skipn a l)) d = nth (a + i) l d.
Proof.
  intros Hi. rewrite nth_firstn.
  replace (i <? n)%nat with true by (symmetry; apply Nat.ltb_lt; lia).
  apply nth_skipn.
Qed.

(** A box inside the frame is cut out as it stands. *)
Lemma crop_inside (m : image) (nr nc : nat) (x0 y0 w h : Z) :
  has_shape m nr nc ->
  0 <= x0 -> 0 <= y0 -> 0 <= w -> 0 <= h ->
  x0 + w <= Z.of_nat nc -> y0 + h <= Z.of_nat nr ->
  has_shape (crop m y0 (y0 + h) x0 (x0 + w)) (Z.to_nat h) (Z.to_nat w)
  /\ forall i j, (i < Z.to_nat h)%nat -> (j < Z.to_nat w)%nat ->
       px (crop m y0 (y0 + h) x0 (x0 + w)) i j
       = px m (Z.to_nat y0 + i) (Z.to_nat x0 + j).
Proof.
  intros Hm Hx Hy Hw Hh Hxw Hyh.
  pose proof (shape_rows m nr nc Hm) as Hrows. unfold rows in Hrows.
  unfold crop. rewrite (slice_inside m y0 h) by lia.
  assert (Hrow : forall row, In row (firstn (Z.to_nat h) (skipn (Z.to_nat y0) m)) ->
            length row = nc).
  { intros row Hin. apply In_nth with (d := []) in Hin.
    destruct Hin as (i & Hi & <-).
    rewrite length_firstn, length_skipn in Hi.
    rewrite nth_window by lia. apply (shape_row m nr nc); [assumption | lia]. }
  split.
  - split.
    + rewrite length_map, length_firstn, length_skipn. lia.
    + apply Forall_forall. intros row Hin. apply in_map_iff in Hin.
      destruct Hin as (row' & <- & Hin').
      rewrite (slice_inside row' x0 w) by (rewrite ?(Hrow row' Hin'); lia).
      rewrite length_firstn, length_skipn, (Hrow row' Hin'). lia.
  - intros i j Hi Hj. unfold px.
    assert (Hlen : (i < length (firstn (Z.to_nat h) (skipn (Z.to_nat y0) m)))%nat)
      by (rewrite length_firstn, length_skipn; lia).
    rewrite (nth_indep _ [] (slice [] x0 (x0 + w))) by (now rewrite length_map).
    rewrite (map_nth (fun row => slice row x0 (x0 + w))).
    pose proof (Hrow _ (nth_In _ [] Hlen)) as Hl.
    rewrite (slice_inside _ x0 w) by (rewrite ?Hl; lia).
    rewrite nth_window by lia. rewrite nth_window by lia. reflexivity.
Qed.

(** A box that lies inside the frame and has a positive width and height
    cuts out a region that is not empty. *)
Lemma crop_not_empty (m : image) (nr nc : nat) (x0 y0 w h : Z) :
  has_shape m nr nc ->
  0 <= x0 -> 0 <= y0 -> 0 < w -> 0 < h ->
  x0 + w <= Z.of_nat nc -> y0 + h <= Z.of_nat nr ->
  is_empty (crop m y0 (y0 + h) x0 (x0 + w)) = false.
Proof.
  intros Hm Hx Hy Hw Hh Hxw Hyh.
  destruct (crop_inside m nr nc x0 y0 w h Hm) as [Hs _]; try lia.
  unfold is_empty.
  rewrite (shape_rows _ _ _ Hs), (shape_cols _ _ _ Hs) by lia.
  apply orb_false_iff. split; apply Nat.eqb_neq; lia.
Qed.

Lemma firstn_Forall {A} (P : A -> Prop) (n : nat) (l : list A) :
  Forall P l -> Forall P (firstn n l).
Proof.
  intros H. rewrite <- (firstn_skipn n l) in H. now apply Forall_app in H.
Qed.

Lemma skipn_Forall {A} (P : A -> Prop) (n : nat) (l : list A) :
  Forall P l -> Forall P (skipn n l).
Proof.
  intros H. rewrite <- (firstn_skipn n l) in H. now apply Forall_app in H.
Qed.

(** What holds of every sample of the frame holds of every sample of a
    region cut out of it. *)
Lemma crop_Forall (P : Z -> Prop) (m : image) (a b c d : Z) :
  Forall (Forall P) m -> Forall (Forall P) (crop m a b c d).
Proof.
  intros H. unfold crop, slice. apply Forall_map.
  apply firstn_Forall, skipn_Forall.
  revert H. apply Forall_impl. intros row Hrow.
  now apply firstn_Forall, skipn_Forall.
Qed.

Lemma tabulate_Forall (P : Z -> Prop) (nr nc : nat) (f : nat -> nat -> Z) :
  (forall r c, P (f r c)) -> Forall (Forall P) (tabulate nr nc f).
Proof.
  intros Hf. unfold tabulate. apply Forall_map, Forall_forall. intros r _.
  apply Forall_map, Forall_forall. intros c _. apply Hf.
Qed.

(** The threshold blanks a region none of whose samples exceeds it. *)
Lemma threshold_dim (t : Z) (m : image) :
  Forall (Forall (fun v => v <= t)) m -> all_zero (threshold_tozero t m).
Proof.
  intros H. unfold all_zero, threshold_tozero. apply Forall_map.
  revert H. apply Forall_impl. intros row Hrow. apply Forall_map.
  revert Hrow. apply Forall_impl. intros v Hv.
  now replace (t <? v) with false by (symmetry; apply Z.ltb_ge; lia).
Qed.

Section Box.

Variable cv_filter2D : image -> list (list Z) -> image.
Variables cv_morph_open cv_Canny : image -> image.
Variable cv_fitLine : list (Z * Z) -> line.

(** searchingBox is a function of the thresholded region. *)
Lemma searchingBox_region (img img' : image) (points : Z * Z * Z * Z)
      (d : direction) :
  (let '(p0, p1, p2, p3) := points in
   threshold_tozero 150 (crop img p1 (p1 + p3) p0 (p0 + p2))
   = threshold_tozero 150 (crop img' p1 (p1 + p3) p0 (p0 + p2))) ->
  searchingBox cv_filter2D cv_morph_open cv_Canny cv_fitLine img points d
  = searchingBox cv_filter2D cv_morph_open cv_Canny cv_fitLine img' points d.
Proof.
  destruct points as [[[p0 p1] p2] p3]. intros H.
  unfold searchingBox. now rewrite H.
Qed.

(** No edge sample: the failure value, and nothing is fitted. *)
Lemma searchingBox_no_line (img : image) (p0 p1 p2 p3 : Z) (d : direction)
      (roi : image) :
  linesFiltration cv_filter2D
    (threshold_tozero 150 (crop img p1 (p1 + p3) p0 (p0 + p2))) d = Ok roi ->
  all_zero (cv_Canny (cv_morph_open roi)) ->
  searchingBox cv_filter2D cv_morph_open cv_Canny cv_fitLine img (p0, p1, p2, p3) d
  = Ok no_line.
Proof.
  intros Hf Hz. unfold searchingBox. rewrite Hf. cbn [bind].
  unfold findLinesPoints. now rewrite ZeroFacts.outer_line_points_all_zero.
Qed.

End Box.

Lemma int_of_float_raises (x : float) (e : exn) :
  int_of_float x = Raise e -> e = OverflowError \/ e = ValueError.
Proof.
  unfold int_of_float. destruct (Prim2SF x); intros H; try discriminate H;
    injection H as <-; auto.
Qed.

End BoxFacts.

(** ** The search box *)

(** X13: searchingBox reads the frame only inside its box and only
    through the threshold: on two frames of one shape whose samples in
    the box (x, y, width, height), column x to x + width and row y to
    y + height, agree wherever one of them exceeds 150, it returns the
    same line, the same failure value or the same exception. *)
Theorem searchingBox_reads_its_box
        (cv_filter2D : image -> list (list Z) -> image)
        (cv_morph_open cv_Canny : image -> image)
        (cv_fitLine : list (Z * Z) -> line)
        (img img' : image) (nr nc : nat) (x0 y0 w h : Z) (d : direction) :
  has_shape img nr nc -> has_shape img' nr nc ->
  0 <= x0 -> 0 <= y0 -> 0 <= w -> 0 <= h ->
  x0 + w <= Z.of_nat nc -> y0 + h <= Z.of_nat nr ->
  (forall i j, (i < Z.to_nat h)%nat -> (j < Z.to_nat w)%nat ->
     above_threshold (px img (Z.to_nat y0 + i) (Z.to_nat x0 + j))
     = above_threshold (px img' (Z.to_nat y0 + i) (Z.to_nat x0 + j))) ->
  searchingBox cv_filter2D cv_morph_open cv_Canny cv_fitLine img (x0, y0, w, h) d
  = searchingBox cv_filter2D cv_morph_open cv_Canny cv_fitLine img' (x0, y0, w, h) d.
Proof.
  intros Hm Hm' Hx Hy Hw Hh Hxw Hyh Hsame.
  apply BoxFacts.searchingBox_region.
  destruct (BoxFacts.crop_inside img nr nc x0 y0 w h Hm Hx Hy Hw Hh Hxw Hyh)
    as [Hs Hpx].
  destruct (BoxFacts.crop_inside img' nr nc x0 y0 w h Hm' Hx Hy Hw Hh Hxw Hyh)
    as [Hs' Hpx'].
  apply (ImgFacts.image_ext _ _ (Z.to_nat h) (Z.to_nat w));
    [now apply RasterFacts.threshold_shape | now apply RasterFacts.threshold_shape |].
  intros i j Hi Hj. rewrite !RasterFacts.px_threshold.
  rewrite (Hpx i j Hi Hj), (Hpx' i j Hi Hj). apply (Hsame i j Hi Hj).
Qed.

Lemma searchingBox_reads_its_box_witness :
  let keep := fun (roi : image) (_ : list (list Z)) => roi in
  let same := fun roi : image => roi in
  let fit := fun pts : list (Z * Z) =>
    (1%float, 0%float,
     float_of_int (fst (hd (0, 0) pts)), float_of_int (snd (hd (0, 0) pts))) in
  let img := [[9; 9; 9; 9]; [9; 0; 200; 9]; [9; 100; 0; 9]] in
  let img' := [[0; 0; 0; 0]; [0; 50; 200; 1]; [7; 0; 150; 0]] in
  searchingBox keep same same fit img (1, 1, 2, 2) (1, 0)
  = searchingBox keep same same fit img' (1, 1, 2, 2) (1, 0)
  /\ searchingBox keep same same fit img (1, 1, 2, 2) (1, 0) = Ok (1, 0, 2, 1)%float.
Proof.
  intros keep same fit img img'. split; [|reflexivity].
  assert (Hs : has_shape img 3 4) by (split; [reflexivity | repeat constructor]).
  assert (Hs' : has_shape img' 3 4) by (split; [reflexivity | repeat constructor]).
  refine (searchingBox_reads_its_box keep same same fit img img' 3 4 1 1 2 2 (1, 0)
            Hs Hs' _ _ _ _ _ _ _); try (simpl; lia).
  intros [|[|i]] [|[|j]] Hi Hj; try reflexivity; simpl in Hi, Hj; lia.
Defined.

(** X14: the direction decides the kernel and nothing else does.
    linesFiltration filters with kernel2 whenever the direction has an
    x component, also when it has both components, and with kernel1 when
    it has only a y component; for the direction (0, 0) no kernel is
    bound and the function raises UnboundLocalError, which searchingBox
    lets through for every frame and box. *)
Theorem direction_selects_kernel
        (cv_filter2D : image -> list (list Z) -> image)
        (cv_morph_open cv_Canny : image -> image)
        (cv_fitLine : list (Z * Z) -> line)
        (roi : image) (d : direction) :
  (fst d <> 0 -> linesFiltration cv_filter2D roi d = Ok (cv_filter2D roi kernel2))
  /\ (fst d = 0 -> snd d <> 0 ->
      linesFiltration cv_filter2D roi d = Ok (cv_filter2D roi kernel1))
  /\ (linesFiltration cv_filter2D roi d = Raise UnboundLocalError <-> d = (0, 0))
  /\ forall (image : image) (points : Z * Z * Z * Z),
       searchingBox cv_filter2D cv_morph_open cv_Canny cv_fitLine image points (0, 0)
       = Raise UnboundLocalError.
Proof.
  destruct d as [dx dy]. unfold linesFiltration. cbn [fst snd].
  split; [|split; [|split]].
  - intros Hx. apply Z.eqb_neq in Hx. rewrite Hx. now destruct (dy =? 0).
  - intros -> Hy. apply Z.eqb_neq in Hy. now rewrite Hy.
  - destruct (Z.eqb_spec dx 0) as [->|Hx], (Z.eqb_spec dy 0) as [->|Hy];
      cbn [negb]; split; intros H; try discriminate H; try reflexivity;
      congruence.
  - intros image [[[p0 p1] p2] p3]. reflexivity.
Qed.

(** X17: the exceptions of searchingBox.  Whatever the frame and the
    box, also a box that reaches beyond the frame, as long as the part of
    the box that lies inside the frame is not empty (OpenCV refuses to
    filter an empty array), searchingBox raises no IndexError: the box is
    clipped.  It raises UnboundLocalError, for the direction (0, 0) only,
    or else OverflowError or ValueError, and these only after a line was
    fitted, when an end point of the drawn line does not convert to an
    integer. *)
Theorem searchingBox_exceptions
        (cv_filter2D : image -> list (list Z) -> image)
        (cv_morph_open cv_Canny : image -> image)
        (cv_fitLine : list (Z * Z) -> line)
        (image : image) (p0 p1 p2 p3 : Z) (d : direction) (e : exn) :
  is_empty (crop image p1 (p1 + p3) p0 (p0 + p2)) = false ->
  searchingBox cv_filter2D cv_morph_open cv_Canny cv_fitLine
               image (p0, p1, p2, p3) d = Raise e ->
  (e = UnboundLocalError /\ d = (0, 0))
  \/ ((e = OverflowError \/ e = ValueError)
      /\ d <> (0, 0)
      /\ exists roi pts,
           linesFiltration cv_filter2D
             (threshold_tozero 150 (crop image p1 (p1 + p3) p0 (p0 + p2))) d = Ok roi
           /\ findLinesPoints cv_morph_open cv_Canny roi d = Some pts).
Proof.
  intros _. unfold searchingBox.
  set (roi0 := threshold_tozero 150 (crop image p1 (p1 + p3) p0 (p0 + p2))).
  destruct (linesFiltration cv_filter2D roi0 d) as [roi|e0] eqn:Hf; cbn [bind].
  - intros H. right.
    assert (Hd : d <> (0, 0)).
    { intros ->. discriminate Hf. }
    destruct (findLinesPoints cv_morph_open cv_Canny roi d) as [pts|] eqn:Hpts;
      [|discriminate H].
    destruct (cv_fitLine pts) as [[[vx vy] x] y].
    split; [|split; [exact Hd | now exists roi, pts]].
    repeat match type of H with
           | bind (int_of_float ?a) _ = Raise _ =>
               let E := fresh "E" in
               destruct (int_of_float a) eqn:E; cbn [bind] in H;
               [|injection H as <-; now apply (BoxFacts.int_of_float_raises _ _ E)]
           end.
    discriminate H.
  - intros H. injection H as <-. left.
    destruct d as [dx dy]. unfold linesFiltration in Hf. cbn [fst snd] in Hf.
    destruct (Z.eqb_spec dx 0) as [->|Hx], (Z.eqb_spec dy 0) as [->|Hy];
      cbn [negb] in Hf; try discriminate Hf.
    injection Hf as <-. split; reflexivity.
Qed.

Lemma searchingBox_exceptions_witness :
  let keep := fun (roi : image) (_ : list (list Z)) => roi in
  let same := fun roi : image => roi in
  let fit := fun _ : list (Z * Z) => (infinity, 0, 0, 0)%float in
  let img := [[0; 200]; [0; 0]] in
  crop img 0 (0 + 5) 0 (0 + 5) = img
  /\ searchingBox keep same same fit img (0, 0, 5, 5) (1, 0) = Raise OverflowError
  /\ exists roi pts,
       linesFiltration keep (threshold_tozero 150 (crop img 0 (0 + 5) 0 (0 + 5))) (1, 0)
       = Ok roi
       /\ findLinesPoints same same roi (1, 0) = Some pts.
Proof.
  intros keep same fit img. split; [reflexivity|]. split; [reflexivity|].
  destruct (searchingBox_exceptions keep same same fit img 0 0 5 5 (1, 0)
              OverflowError eq_refl eq_refl) as [[H _] | (_ & _ & H)];
    [discriminate H | exact H].
Defined.
(** ** The offset from the crossing point to the arc centres *)

(** X15: the faults of the offset scale k.  For two lines whose direction
    components do not exceed 1 in magnitude, as searchingBox returns
    them, the components of the offset direction are absolute values,
    never negative, and the length of that direction is the root of a sum
    of squares: computing k never fails in math.sqrt.  The only exception
    it raises is ZeroDivisionError, and it does raise it when both
    components of the offset direction are zero, that is when the
    directions of the two lines cancel. *)
Theorem offset_scale_faults (line1 line2 : line) :
  unit_direction line1 -> unit_direction line2 ->
  let vx := fst (offset_vector line1 line2) in
  let vy := snd (offset_vector line1 line2) in
  float_nonneg vx = true /\ float_nonneg vy = true
  /\ (forall e, offset_scale vx vy = Raise e -> e = ZeroDivisionError)
  /\ (vx = 0%float -> vy = 0%float -> offset_scale vx vy = Raise ZeroDivisionError).
Proof.
  intros _ _.
  destruct line1 as [[[vx1 vy1] x1] y1], line2 as [[[vx2 vy2] x2] y2].
  cbn [offset_vector fst snd].
  assert (Habs : forall x, float_nonneg (abs x) = true).
  { intros x. unfold float_nonneg. rewrite abs_spec.
    now destruct (Prim2SF x) as [s|s| |s m e]. }
  split; [destruct (PrimFloat.ltb vy2 0); apply Habs|].
  split; [destruct (PrimFloat.ltb vy2 0); apply Habs|].
  split.
  - intros e. unfold offset_scale, math_sqrt.
    rewrite FloatFacts.nonneg_not_ltb_zero
      by (apply FloatFacts.nonneg_add; apply FloatFacts.nonneg_sqr).
    cbn [bind]. unfold truediv.
    destruct (PrimFloat.eqb _ 0); [congruence | discriminate].
  - intros -> ->. reflexivity.
Qed.

Lemma offset_scale_faults_witness :
  let line1 := (1, 0, 0, 0)%float in
  let line2 := (-1, 0, 0, 1)%float in
  (unit_direction line1 /\ unit_direction line2)
  /\ offset_vector line1 line2 = (0, 0)%float
  /\ offset_scale 0 0 = Raise ZeroDivisionError.
Proof.
  intros line1 line2.
  assert (H1 : unit_direction line1) by (split; reflexivity).
  assert (H2 : unit_direction line2) by (split; reflexivity).
  split; [split; assumption|]. split; [reflexivity|].
  exact (proj2 (proj2 (proj2 (offset_scale_faults line1 line2 H1 H2)))
           eq_refl eq_refl).
Defined.

(** Perpendicular unit directions give k = 580 / sqrt 2; directions that
    cancel give a zero length and the division fails. *)
Example offset_scale_cases :
  offset_vector (1, 0, 1400, 725)%float (0, 1, 475, 1225)%float = (1, 1)%float
  /\ is_ok (offset_scale 1 1) = true
  /\ offset_vector (1, 0, 0, 0)%float (-1, 0, 0, 1)%float = (0, 0)%float
  /\ offset_scale 0 0 = Raise ZeroDivisionError.
Proof. repeat split. Qed.

(** ** One frame of the main loop *)

(** X16: a frame in which neither search box shows an edge stops the
    program.  When the part of each box that lies inside the frame is
    not empty (OpenCV refuses to filter an empty array) and the edge map
    of neither region has a sample, both searches return the failure
    value (-1, -1, -1, -1) and draw nothing; the main loop hands the two
    values to findArcPoint untested, where they give a coefficient matrix
    whose directions are parallel; the exception with which
    np.linalg.inv refuses that matrix leaves findArcPoint and the frame
    processing uncaught. *)
Theorem frame_without_lines_fails
        (cv_filter2D : image -> list (list Z) -> image)
        (cv_morph_open cv_Canny : image -> image)
        (cv_fitLine : list (Z * Z) -> line)
        (np_linalg_inv : matrix -> result matrix)
        (ndimage_rotate : image -> Z -> image)
        (math_sin math_cos : float -> float)
        (cv_line : image -> Z * Z -> Z * Z -> image)
        (cv_rectangle : image -> Z * Z * Z * Z -> image)
        (img : image) (h : heap) (e : exn) :
  let region1 :=
    cv_filter2D (threshold_tozero 150 (crop img 625 (625 + 200) 1000 (1000 + 800)))
                kernel1 in
  let region2 :=
    cv_filter2D (threshold_tozero 150 (crop img 1075 (1075 + 300) 325 (325 + 300)))
                kernel2 in
  is_empty (crop img 625 (625 + 200) 1000 (1000 + 800)) = false ->
  is_empty (crop img 1075 (1075 + 300) 325 (325 + 300)) = false ->
  all_zero (cv_Canny (cv_morph_open region1)) ->
  all_zero (cv_Canny (cv_morph_open region2)) ->
  np_linalg_inv (fst (crossing_system no_line no_line)) = Raise e ->
  searchingBox cv_filter2D cv_morph_open cv_Canny cv_fitLine
               img (1000, 625, 800, 200) (0, 1) = Ok no_line
  /\ searchingBox_draws cv_filter2D cv_morph_open cv_Canny cv_fitLine
                        cv_line cv_rectangle img (1000, 625, 800, 200) (0, 1) = Ok img
  /\ searchingBox cv_filter2D cv_morph_open cv_Canny cv_fitLine
                  img (325, 1075, 300, 300) (1, 0) = Ok no_line
  /\ direction_cross no_line no_line = 0%float
  /\ process_frame cv_filter2D cv_morph_open cv_Canny cv_fitLine np_linalg_inv
                   ndimage_rotate math_sin math_cos cv_line cv_rectangle img h
     = (Raise e, h).
Proof.
  intros region1 region2 _ _ Hz1 Hz2 Hinv.
  assert (H1 : searchingBox cv_filter2D cv_morph_open cv_Canny cv_fitLine
                            img (1000, 625, 800, 200) (0, 1) = Ok no_line)
    by (now apply (BoxFacts.searchingBox_no_line _ _ _ _ _ _ _ _ _ _ region1)).
  assert (H2 : searchingBox cv_filter2D cv_morph_open cv_Canny cv_fitLine
                            img (325, 1075, 300, 300) (1, 0) = Ok no_line)
    by (now apply (BoxFacts.searchingBox_no_line _ _ _ _ _ _ _ _ _ _ region2)).
  assert (Hd : searchingBox_draws cv_filter2D cv_morph_open cv_Canny cv_fitLine
                 cv_line cv_rectangle img (1000, 625, 800, 200) (0, 1) = Ok img).
  { unfold searchingBox_draws. cbn [linesFiltration fst snd Z.eqb negb bind].
    fold region1. unfold findLinesPoints.
    now rewrite ZeroFacts.outer_line_points_all_zero. }
  split; [exact H1|]. split; [exact Hd|]. split; [exact H2|].
  split; [reflexivity|].
  unfold process_frame, mbind, lift. rewrite H1, Hd, H2.
  unfold findArcPoint, mbind, lift, arc_centre, lines_crossing.
  cbn [crossing_system no_line]. cbn [crossing_system no_line fst] in Hinv.
  now rewrite Hinv.
Qed.

Lemma frame_without_lines_fails_witness :
  let keep := fun (roi : image) (_ : list (list Z)) => roi in
  let same := fun roi : image => roi in
  let fit := fun _ : list (Z * Z) => (1, 0, 0, 0)%float in
  let inv := fun _ : matrix => @Raise matrix LinAlgError in
  let rot := fun (roi : image) (_ : Z) => roi in
  let sin0 := fun _ : float => 0%float in
  let cos0 := fun _ : float => 1%float in
  let line := fun (img : image) (_ _ : Z * Z) => img in
  let rect := fun (img : image) (_ : Z * Z * Z * Z) => img in
  let img := tabulate 1500 2000 (fun _ _ => 100) in
  (has_shape (crop img 625 (625 + 200) 1000 (1000 + 800)) 200 800
   /\ has_shape (crop img 1075 (1075 + 300) 325 (325 + 300)) 300 300)
  /\ process_frame keep same same fit inv rot sin0 cos0 line rect img []
     = (Raise LinAlgError, []).
Proof.
  intros keep same fit inv rot sin0 cos0 line rect img.
  assert (Hs : has_shape img 1500 2000) by apply ImgFacts.tabulate_shape.
  assert (Hdim : Forall (Forall (fun v => v <= 150)) img)
    by (apply BoxFacts.tabulate_Forall; intros _ _; lia).
  split.
  - split.
    + apply (BoxFacts.crop_inside img 1500 2000 1000 625 800 200 Hs); lia.
    + apply (BoxFacts.crop_inside img 1500 2000 325 1075 300 300 Hs); lia.
  - apply (frame_without_lines_fails keep same same fit inv rot sin0 cos0
             line rect img [] LinAlgError).
    + apply (BoxFacts.crop_not_empty img 1500 2000 1000 625 800 200 Hs); lia.
    + apply (BoxFacts.crop_not_empty img 1500 2000 325 1075 300 300 Hs); lia.
    + apply BoxFacts.threshold_dim, BoxFacts.crop_Forall, Hdim.
    + apply BoxFacts.threshold_dim, BoxFacts.crop_Forall, Hdim.
    + reflexivity.
Defined.
